(** * The SV4D grid sampling schedule

    A shallow embedding of [sample] from
    [generative-models/scripts/sampling/simple_video_sample_4d.py]:
    the (frame, view) image grid, the anchor pass, the dense pass with its
    alternating traversal, and the assembly of the output videos.

    The pretrained models, the tensor runtime and the video I/O are external
    collaborators.  They enter the development as an interface ([Oracle])
    whose methods are ordinary functions; every method that draws random
    numbers threads the generator state explicitly. *)

From Stdlib Require QArith.QArith QArith.Qround.
From stdpp Require Import base numbers strings pretty gmap list.

Set Default Proof Using "Type".

(** ** Model configuration (the constants at the top of [sample]) *)

Definition T : nat := 5.   (* number of frames per sample *)
Definition V : nat := 8.   (* number of views per sample *)
Module Dims.
Definition F : nat := 8. (* vae factor to downsize image->latent *)
Definition C : nat := 4.
Definition H : nat := 576.
Definition W : nat := 576.
End Dims.
Definition n_frames : nat := 21.
Definition n_views : nat := V + 1.
Definition n_views_sv3d : nat := 21.
Definition subsampled_views : list nat := [0; 2; 5; 7; 9; 12; 14; 16; 19].
Definition model_config : string := "scripts/sampling/configs/sv4d.yaml".

Record VersionDict := mkVersionDict {
  vd_T : nat; vd_H : nat; vd_W : nat; vd_C : nat; vd_f : nat;
  vd_num_steps : nat
}.

(** ** Integer helpers *)

(** [np.arange(start, stop, step)] for a positive integer [step]: the
    values [start + k * step] below [stop]. *)
Definition arange (start stop step : nat) : list nat :=
  (λ k, start + k * step) <$> seq 0 ((stop - start + (step - 1)) `div` step).

(** [enumerate(l)] *)
Definition enumerate {A} (l : list A) : list (nat * A) :=
  zip (seq 0 (length l)) l.

(** [torch.roll(l, shift, 0)]: element [i] moves to [(i + shift) mod n]. *)
Definition roll {A} (shift : nat) (l : list A) : list A :=
  let k := length l - shift `mod` length l in
  drop k l ++ take k l.

(** [x.view(rows, cols, ...)] of a flat batch, once the size is checked. *)
Fixpoint chunks {A} (rows cols : nat) (l : list A) : list (list A) :=
  match rows with
  | 0 => []
  | S r => take cols l :: chunks r cols (drop cols l)
  end.

(** The window of the dense pass that starts at [t0]: [t0 + np.arange(T)]. *)
Definition window (t0 : nat) : list nat := (λ k, t0 + k) <$> arange 0 T 1.

(** [np.arange(V) + 1] *)
Definition view_indices : list nat := (λ v, v + 1) <$> arange 0 V 1.

(** The frames of the anchor pass: [np.arange(T - 1, n_frames, T - 1)]. *)
Definition anchor_frame_indices : list nat := arange (T - 1) n_frames (T - 1).

(** The window starts of the dense pass:
    [np.arange(0, n_frames - 1, T - 1)]. *)
Definition window_starts : list nat := arange 0 (n_frames - 1) (T - 1).

(** [m[i][j]] on a list of lists, where it exists. *)
Definition slot {A} (m : list (list A)) (i j : nat) : option A :=
  row ← m !! i; row !! j.

(** The view shown at frame [t] of the diagonal video:
    [(t // (n_frames // n_views)) % n_views]. *)
Definition diag_view (t : nat) : nat :=
  (t `div` (n_frames `div` n_views)) `mod` n_views.

(** The same index as the specification words it,
    [floor(t / (n_frames / n_views)) mod n_views], the inner quotient being
    the exact rational [21/9]. *)
Definition diag_view_spec (t : nat) : Z :=
  (Qround.Qfloor
     (QArith_base.Qdiv (QArith_base.inject_Z (Z.of_nat t))
        (QArith_base.Qdiv (QArith_base.inject_Z (Z.of_nat n_frames))
                          (QArith_base.inject_Z (Z.of_nat n_views))))
   `mod` Z.of_nat n_views)%Z.

(** ** File names *)

(** [f"{n:0{width}d}"] for a natural number. *)
Definition zfill (width : nat) (n : nat) : string :=
  let s := pretty n in
  String.concat "" (replicate (width - String.length s) "0") +:+ s.

Definition seed_views_file (base_count : nat) : string :=
  zfill 6 base_count +:+ "_t000.mp4".
Definition seed_frames_file (base_count : nat) : string :=
  zfill 6 base_count +:+ "_v000.mp4".
Definition view_file (base_count v : nat) : string :=
  zfill 6 base_count +:+ "_v" +:+ zfill 3 v +:+ ".mp4".
Definition diag_file (base_count : nat) : string :=
  zfill 6 base_count +:+ "_diag.mp4".


Definition ends_with (suffix s : string) : bool :=
  String.prefix (String.rev suffix) (String.rev s).

(** [glob("*.mp4")] on one directory entry: the name ends in [.mp4] and,
    as for every [*] pattern, does not start with a dot. *)
Definition is_mp4 (name : string) : bool :=
  ends_with ".mp4" name && negb (String.prefix "." name).

Definition count_mp4 (dir : gset string) : nat :=
  length (filter (λ name, is_mp4 name = true) (elements dir)).



(** ** Errors *)

Inductive Error :=
| AssertionError (msg : string)
| IndexError
| TypeError
| RuntimeError.

Definition elevations_msg (given : nat) : string :=
  "Please provide 1 value, or a list of " +:+ pretty n_views_sv3d
  +:+ " values for elevations_deg! Given " +:+ pretty given.
Definition azimuths_msg (given : nat) : string :=
  "Please provide a list of " +:+ pretty n_views_sv3d
  +:+ " values for azimuths_deg! Given " +:+ pretty given.

(** ** The external collaborators *)

(** [elevations_deg : Optional[Union[float, List[float]]]] *)
Inductive Elevations (Float : Type) :=
| ElevScalar (e : Float)
| ElevList (l : list Float)
| ElevNone.
Arguments ElevScalar {Float} e.
Arguments ElevList {Float} l.
Arguments ElevNone {Float}.

(** The keyword arguments of [sample]. *)
Record Args (Float : Type) := mkArgs {
  input_path : string;
  output_folder : string;
  num_steps : nat;
  sv3d_version : string;
  fps_id : nat;
  motion_bucket_id : nat;
  cond_aug : Float;
  seed : Z;
  decoding_t : nat;
  device : string;
  elevations_deg : Elevations Float;
  azimuths_deg : option (list Float);
  image_frame_ratio : option Float;
  verbose : bool;
  remove_bg : bool
}.
Arguments mkArgs {Float}.
Arguments input_path {Float} a.
Arguments output_folder {Float} a.
Arguments num_steps {Float} a.
Arguments sv3d_version {Float} a.
Arguments fps_id {Float} a.
Arguments motion_bucket_id {Float} a.
Arguments cond_aug {Float} a.
Arguments seed {Float} a.
Arguments decoding_t {Float} a.
Arguments device {Float} a.
Arguments elevations_deg {Float} a.
Arguments azimuths_deg {Float} a.
Arguments image_frame_ratio {Float} a.
Arguments verbose {Float} a.
Arguments remove_bg {Float} a.

(** Floating-point numbers, tensors, the pretrained models and the random
    number generator are opaque.  [Float] is the type of Python/NumPy
    floats, [Image] of image tensors, [Latent] of one (frame, view) latent,
    [RNG] of the state of torch's global generator. *)
Class Oracle (Float Image Latent Model RNG : Type) := {
  (* arithmetic on floats *)
  of_int : Z → Float;
  fsub : Float → Float → Float;               (* [x - y] *)
  fmod : Float → Float → Float;               (* [x % y] *)
  deg2rad : Float → Float;                    (* [np.deg2rad] *)
  two_pi : Float;                             (* [torch.pi * 2] *)
  linspace_at : Float → Float → nat → nat → Float;
                                              (* [np.linspace(a, b, num)[k]] *)
  (* tensors *)
  unsqueeze : Image → Image;                  (* [x.unsqueeze(0)] *)
  rescale : Image → Image;                    (* [x * 2 - 1] *)
  (* random numbers *)
  manual_seed : Z → RNG;                      (* [torch.manual_seed] *)
  randn : RNG → Latent * RNG;                 (* noise for one latent slot *)
  (* scripts.demo.sv4d_helpers *)
  read_video : Args Float → nat → nat → nat → list Image;
  sample_sv3d : Args Float → Image → nat → list Float → list Float →
                RNG → list Image * RNG;
  load_model : string → string → nat → nat → bool → Model;
  run_img2vid : VersionDict → Model → Image → Z → list Float → list Float →
                list Image → list Image → RNG → list Image * RNG;
  run_img2vid_per_step :
                VersionDict → Model → Image → Z → list Float → list Float →
                list Image → list Image → nat → list Latent →
                RNG → list Latent * RNG;
  decode_latents : Model → Latent → nat → Image
}.

Section Sampler.
Context {Float Image Latent Model RNG : Type}.
Context `{!Oracle Float Image Latent Model RNG}.

(** The calls the run issues to the diffusion models and to the video
    writer, with the conditioning inputs they receive. *)
Inductive Call :=
| SampleSv3d (image : Image) (polars azims : list Float)
| RunImg2Vid (image : Image) (polars azims : list Float)
             (cond_motion cond_view : list Image)
| RunImg2VidPerStep (image : Image) (polars azims : list Float)
             (cond_motion cond_view : list Image)
             (step : nat) (noisy_latents : list Latent)
| SaveVideo (file : string) (frames : list Image).

Definition is_diffusion (c : Call) : bool :=
  match c with SaveVideo _ _ => false | _ => true end.

(** What a run can observe and change: the generator state, the names in
    the output folder, and the log of calls made so far. *)
Record World := mkWorld {
  rng : RNG;
  folder : gset string;
  calls : list Call
}.

(** ** State and exceptions *)

Definition M (A : Type) : Type := World → World * (Error + A).

Definition ret {A} (a : A) : M A := λ w, (w, inr a).
Definition raise {A} (e : Error) : M A := λ w, (w, inl e).
Definition bind {A B} (m : M A) (k : A → M B) : M B :=
  λ w, match m w with
       | (w', inl e) => (w', inl e)
       | (w', inr a) => k a w'
       end.

#[global] Instance M_ret : MRet M := @ret.
#[global] Instance M_bind : MBind M := λ A B k m, bind m k.

Definition assert (b : bool) (msg : string) : M unit :=
  if b then ret tt else raise (AssertionError msg).

(** [for x in l: s = body x s] *)
Fixpoint for_each {A S} (l : list A) (body : A → S → M S) (s : S) : M S :=
  match l with
  | [] => ret s
  | x :: l' => s' ← body x s; for_each l' body s'
  end.

(** [[f x for x in l]] *)
Fixpoint for_list {A B} (f : A → M B) (l : list A) : M (list B) :=
  match l with
  | [] => ret []
  | x :: l' => y ← f x; ys ← for_list f l'; ret (y :: ys)
  end.

(** ** Primitive effects *)

Definition log (c : Call) : M unit :=
  λ w, (mkWorld (rng w) (folder w) (calls w ++ [c]), inr tt).

Definition with_rng {A} (f : RNG → A * RNG) : M A :=
  λ w, let '(a, r) := f (rng w) in (mkWorld r (folder w) (calls w), inr a).

Definition torch_manual_seed (s : Z) : M unit :=
  λ w, (mkWorld (manual_seed s) (folder w) (calls w), inr tt).

Definition glob_mp4 : M nat := λ w, (w, inr (count_mp4 (folder w))).

Definition write_file (file : string) : M unit :=
  λ w, (mkWorld (rng w) ({[file]} ∪ folder w) (calls w), inr tt).

(** ** Python indexing *)

Definition index {A} (l : list A) (i : nat) : M A :=
  match l !! i with Some x => ret x | None => raise IndexError end.

(** [l[-1]] *)
Definition index_last {A} (l : list A) : M A :=
  match l !! (length l - 1) with Some x => ret x | None => raise IndexError end.

(** A value that must not be [None] where it is used. *)
Definition not_none {A} (o : option A) : M A :=
  match o with Some x => ret x | None => raise TypeError end.

(** [torch.cat(xs, 0)] of one-image tensors: fails on a [None] entry. *)
Definition cat (xs : list (option Image)) : M (list Image) :=
  for_list not_none xs.

(** [x.view(rows, cols, ...)] *)
Definition view {A} (rows cols : nat) (l : list A) : M (list (list A)) :=
  if decide (length l = rows * cols) then ret (chunks rows cols l)
  else raise RuntimeError.

(** [m[i][j]] and [m[i][j] = x] on a list of lists. *)
Definition get2 {A} (m : list (list A)) (i j : nat) : M A :=
  row ← index m i; index row j.
Definition set2 {A} (m : list (list A)) (i j : nat) (x : A)
  : M (list (list A)) :=
  row ← index m i;
  if decide (j < length row) then ret (<[i := <[j := x]> row]> m)
  else raise IndexError.

(** ** The image grid *)

Definition Grid : Type := list (list (option Image)).
Definition LatentMatrix : Type := list (list Latent).

(** ** Calls into [scripts.demo.sv4d_helpers] *)

Definition call_sample_sv3d (a : Args Float) (image : Image)
    (polars azims : list Float) : M (list Image) :=
  log (SampleSv3d image polars azims);;
  with_rng (sample_sv3d a image n_views_sv3d polars azims).

Definition call_run_img2vid (vd : VersionDict) (model : Model)
    (image : option Image) (sd : Z) (polars azims : list Float)
    (cond_motion cond_view : list Image) : M (list Image) :=
  image ← not_none image;
  log (RunImg2Vid image polars azims cond_motion cond_view);;
  with_rng (run_img2vid vd model image sd polars azims cond_motion cond_view).

Definition call_run_img2vid_per_step (vd : VersionDict) (model : Model)
    (image : option Image) (sd : Z) (polars azims : list Float)
    (cond_motion cond_view : list Image) (step : nat)
    (noisy_latents : list Latent) : M (list Latent) :=
  image ← not_none image;
  log (RunImg2VidPerStep image polars azims cond_motion cond_view
                         step noisy_latents);;
  with_rng (run_img2vid_per_step vd model image sd polars azims
                                 cond_motion cond_view step noisy_latents).

(** [save_video(file, frames)]: every frame must be an image. *)
Definition save_video (file : string) (frames : list (option Image))
  : M unit :=
  frames ← cat frames;
  log (SaveVideo file frames);;
  write_file file.

(** [torch.randn(rows, cols, C, H // F, W // F)], slot by slot in
    row-major order. *)
Definition torch_randn (rows cols : nat) : M LatentMatrix :=
  for_list (λ _, for_list (λ _, with_rng randn) (seq 0 cols)) (seq 0 rows).

(** ** Camera viewpoints (lines 101-114) *)

Definition default_azimuths : list Float :=
  (λ x, fmod x (of_int 360))
  <$> drop 1 (linspace_at (of_int 0) (of_int 360) (n_views_sv3d + 1)
              <$> seq 0 (n_views_sv3d + 1)).

Definition camera_viewpoints (a : Args Float)
  : M (list Float * list Float) :=
  elevations ← match elevations_deg a with
               | ElevScalar e => ret (replicate n_views_sv3d e)
               | ElevList l => ret l
               | ElevNone => raise TypeError
               end;
  assert (bool_decide (length elevations = n_views_sv3d))
         (elevations_msg (length elevations));;
  let azimuths := default default_azimuths (azimuths_deg a) in
  assert (bool_decide (length azimuths = n_views_sv3d))
         (azimuths_msg (length azimuths));;
  let polars_rad := (λ e, deg2rad (fsub (of_int 90) e)) <$> elevations in
  azimuths_rad ←
    for_list (λ x, ref ← index_last azimuths;
                   ret (deg2rad (fmod (fsub x ref) (of_int 360))))
             azimuths;
  ret (polars_rad, azimuths_rad).

(** ** Initialisation of the image matrix (lines 134-138) *)

Definition empty_grid : Grid := replicate n_frames (replicate n_views None).

Definition init_grid (images_t0 images_v0 : list Image) : M Grid :=
  let img_matrix := empty_grid in
  img_matrix ←
    for_each (enumerate subsampled_views)
      (λ '(i, v) g, x ← index images_t0 v; set2 g 0 i (Some (unsqueeze x)))
      img_matrix;
  for_each (seq 0 n_frames)
    (λ t g, x ← index images_v0 t; set2 g t 0 (Some x))
    img_matrix.

(** ** Conditioning inputs (lines 164-169 and, verbatim, 190-195) *)

Definition v0 : nat := 0.

(** [angles_rad[subsampled_views[1:]][None].repeat(T, 0).flatten()] *)
Definition view_angles (angles_rad : list Float) : M (list Float) :=
  sel ← for_list (index angles_rad) (drop 1 subsampled_views);
  ret (mjoin (replicate T sel)).

Record Conditioning := mkConditioning {
  c_image : option Image;
  c_motion : list Image;
  c_view : list Image;
  c_polars : list Float;
  c_azims : list Float
}.

Definition conditioning (polars_rad azimuths_rad : list Float)
    (img_matrix : Grid) (t0 : nat) (frame_indices : list nat)
  : M Conditioning :=
  image ← get2 img_matrix t0 v0;
  motion ← for_list (λ t, get2 img_matrix t v0) frame_indices;
  cond_motion ← cat motion;
  views ← for_list (λ v, get2 img_matrix t0 v) view_indices;
  cond_view ← cat views;
  polars ← view_angles polars_rad;
  azims ← view_angles azimuths_rad;
  ref ← index azimuths_rad v0;
  let azims := (λ x, fmod (fsub x ref) two_pi) <$> azims in
  ret (mkConditioning image cond_motion cond_view polars azims).

(** ** Interleaved sampling for anchor frames (lines 160-177) *)

(** The loop of lines 174-177. *)
Definition anchor_commit (frame_indices : list nat)
    (samples : list (list Image)) (img_matrix : Grid) : M Grid :=
  for_each (enumerate frame_indices)
    (λ '(i, t) g,
       for_each (enumerate view_indices)
         (λ '(j, v) g,
            cur ← get2 g t v;
            match cur with
            | None => x ← get2 samples i j; set2 g t v (Some (rescale x))
            | Some _ => ret g
            end) g)
    img_matrix.

Definition anchor_pass (vd : VersionDict) (model : Model) (sd : Z)
    (polars_rad azimuths_rad : list Float) (img_matrix : Grid) : M Grid :=
  let t0 := 0 in
  let frame_indices := anchor_frame_indices in
  c ← conditioning polars_rad azimuths_rad img_matrix t0 frame_indices;
  samples ← call_run_img2vid vd model (c_image c) sd (c_polars c)
                             (c_azims c) (c_motion c) (c_view c);
  samples ← view T V samples;
  anchor_commit frame_indices samples img_matrix.

(** ** Dense sampling for the rest (lines 181-218) *)

(** [latent_matrix[frame_indices][:, view_indices].flatten(0, 1)] *)
Definition gather (latent_matrix : LatentMatrix) (frame_indices : list nat)
  : M (list Latent) :=
  rows ← for_list (index latent_matrix) frame_indices;
  rows ← for_list (λ row, for_list (index row) view_indices) rows;
  ret (mjoin rows).

(** The loop of lines 210-212. *)
Definition scatter (frame_indices : list nat) (samples : list (list Latent))
    (latent_matrix : LatentMatrix) : M LatentMatrix :=
  for_each (enumerate frame_indices)
    (λ '(i, t) lm,
       for_each (enumerate view_indices)
         (λ '(j, v) lm, x ← get2 samples i j; set2 lm t v x) lm)
    latent_matrix.

(** One iteration of the loop over [step] (lines 186-212).  The loop
    carries [frame_indices] and [latent_matrix]; the image matrix is only
    read. *)
Definition dense_step (vd : VersionDict) (model : Model) (sd : Z)
    (polars_rad azimuths_rad : list Float) (img_matrix : Grid)
    (step : nat) (st : list nat * LatentMatrix)
  : M (list nat * LatentMatrix) :=
  let '(frame_indices, latent_matrix) := st in
  let frame_indices := reverse frame_indices in
  t0 ← index frame_indices 0;
  c ← conditioning polars_rad azimuths_rad img_matrix t0 frame_indices;
  noisy_latents ← gather latent_matrix frame_indices;
  samples ← call_run_img2vid_per_step vd model (c_image c) sd (c_polars c)
              (c_azims c) (c_motion c) (c_view c) step noisy_latents;
  samples ← view T V samples;
  latent_matrix ← scatter frame_indices samples latent_matrix;
  ret (frame_indices, latent_matrix).

(** The loop of lines 214-218. *)
Definition decode_commit (model : Model) (frame_indices : list nat)
    (latent_matrix : LatentMatrix) (img_matrix : Grid) : M Grid :=
  for_each frame_indices
    (λ t g,
       for_each view_indices
         (λ v g,
            if decide (t ≠ 0 ∧ v ≠ 0) then
              z ← get2 latent_matrix t v;
              let img := decode_latents model z T in
              set2 g t v (Some (rescale img))
            else ret g) g)
    img_matrix.

(** The loop over [step] (line 185). *)
Definition dense_steps (vd : VersionDict) (model : Model) (sd : Z)
    (polars_rad azimuths_rad : list Float) (img_matrix : Grid)
    (steps : nat) (st : list nat * LatentMatrix)
  : M (list nat * LatentMatrix) :=
  for_each (seq 0 steps)
    (dense_step vd model sd polars_rad azimuths_rad img_matrix) st.

(** The body of the loop over [t0] (lines 182-218). *)
Definition dense_window (vd : VersionDict) (model : Model) (sd : Z)
    (steps : nat) (polars_rad azimuths_rad : list Float)
    (t0 : nat) (img_matrix : Grid) : M Grid :=
  let frame_indices := window t0 in
  latent_matrix ← torch_randn n_frames n_views;
  '(frame_indices, latent_matrix) ←
    dense_steps vd model sd polars_rad azimuths_rad img_matrix steps
                (frame_indices, latent_matrix);
  decode_commit model frame_indices latent_matrix img_matrix.

Definition dense_pass (vd : VersionDict) (model : Model) (sd : Z)
    (steps : nat) (polars_rad azimuths_rad : list Float)
    (img_matrix : Grid) : M Grid :=
  for_each window_starts
    (dense_window vd model sd steps polars_rad azimuths_rad)
    img_matrix.

(** ** Output videos (lines 221-232) *)

Definition save_outputs (base_count : nat) (img_matrix : Grid) : M unit :=
  for_each view_indices
    (λ v _,
       frames ← for_list (λ t, get2 img_matrix t v) (seq 0 n_frames);
       save_video (view_file base_count v) frames) tt;;
  diag_frames ←
    for_list (λ t, get2 img_matrix t (diag_view t)) (seq 0 n_frames);
  save_video (diag_file base_count) diag_frames.

(** ** The whole run *)

Definition version_dict (a : Args Float) : VersionDict :=
  mkVersionDict (T * V) Dims.H Dims.W Dims.C Dims.F (num_steps a).

(** Lines 85-218: everything up to the end of the dense pass.  Returns
    the run number and the image matrix the output videos are cut from. *)
Definition sample_grid (a : Args Float) : M (nat * Grid) :=
  torch_manual_seed (seed a);;
  let images_v0 := read_video a n_frames Dims.W Dims.H in
  '(polars_rad, azimuths_rad) ← camera_viewpoints a;
  first ← index images_v0 0;
  images_t0 ← call_sample_sv3d a first polars_rad azimuths_rad;
  let images_t0 := roll 1 images_t0 in
  img_matrix ← init_grid images_t0 images_v0;
  n_mp4 ← glob_mp4;
  let base_count := n_mp4 `div` 10 in
  row0 ← index img_matrix 0;
  save_video (seed_views_file base_count) row0;;
  col0 ← for_list (λ t, get2 img_matrix t 0) (seq 0 n_frames);
  save_video (seed_frames_file base_count) col0;;
  let model := load_model model_config (device a) (vd_T (version_dict a))
                          (num_steps a) (verbose a) in
  img_matrix ← anchor_pass (version_dict a) model (seed a)
                           polars_rad azimuths_rad img_matrix;
  img_matrix ← dense_pass (version_dict a) model (seed a) (num_steps a)
                          polars_rad azimuths_rad img_matrix;
  ret (base_count, img_matrix).

Definition sample (a : Args Float) : M unit :=
  '(base_count, img_matrix) ← sample_grid a;
  save_outputs base_count img_matrix.

(** ** Specifications of runs

    [wp E m w Q]: from world [w] the action [m] returns a value and a
    world that satisfy [Q]; if it raises, [E] must hold.  [wp False] is
    total correctness (the action does not raise), [wp True] is partial
    correctness. *)
Definition wp {A} (E : Prop) (m : M A) (w : World) (Q : A → World → Prop)
  : Prop :=
  match m w with
  | (w', inr a) => Q a w'
  | (_, inl _) => E
  end.

(** The names of the videos written so far, in order. *)
Definition saved_files (cs : list Call) : list string :=
  omap (λ c, match c with SaveVideo file _ => Some file | _ => None end) cs.

(** [w'] has the folder and the written videos of [w]. *)
Definition same_io (w w' : World) : Prop :=
  folder w' = folder w ∧ saved_files (calls w') = saved_files (calls w).

(** An action that neither touches the folder nor writes a video. *)
Definition quiet {A} (m : M A) : Prop := ∀ w, same_io w (m w).1.

(** *** Comparing two runs *)

(** A call without the name of the file it writes. *)
Definition erase (c : Call) : Call :=
  match c with
  | SaveVideo _ frames => SaveVideo "" frames
  | _ => c
  end.

(** The frames of the videos written so far, in order. *)
Definition saved_frames (cs : list Call) : list (list Image) :=
  omap (λ c, match c with SaveVideo _ frames => Some frames | _ => None end)
       cs.

(** Two worlds with the same generator state and the same calls so far,
    up to the names of the files written.  The folders are unrelated. *)
Definition alike (w1 w2 : World) : Prop :=
  rng w1 = rng w2 ∧ erase <$> calls w1 = erase <$> calls w2.

(** From worlds related by [P], [m1] and [m2] both raise the same error
    or both return, with results related by [R]; the worlds they leave
    are [alike]. *)
Definition related {A B} (P : World → World → Prop) (R : A → B → Prop)
    (m1 : M A) (m2 : M B) : Prop :=
  ∀ w1 w2, P w1 w2 →
    match m1 w1, m2 w2 with
    | (w1', inr x1), (w2', inr x2) => alike w1' w2' ∧ R x1 x2
    | (w1', inl e1), (w2', inl e2) => alike w1' w2' ∧ e1 = e2
    | _, _ => False
    end.

(** What a run of [sample_grid] leaves in the image matrix. *)
Definition outcome_grid (r : World * (Error + nat * Grid)) : Error + Grid :=
  match r.2 with
  | inl e => inl e
  | inr (_, g) => inr g
  end.

(** [g'] is [g] with exactly the slots in [S] replaced by the decoded
    and rescaled latents of [latent_matrix]. *)
Definition decoded_into (model : Model) (latent_matrix : LatentMatrix)
    (S : nat → nat → Prop) (g g' : Grid) : Prop :=
  ∀ t v,
    (is_Some (slot g' t v) ↔ is_Some (slot g t v)) ∧
    (S t v → ∃ z, slot latent_matrix t v = Some z ∧
                  slot g' t v
                  = Some (Some (rescale (decode_latents model z T)))) ∧
    (¬ S t v → slot g' t v = slot g t v).

End Sampler.

(** ** Valid configurations *)

(** The sizes of the batches the collaborators return: [read_video] yields
    the requested number of frames, [sample_sv3d] one image per view,
    [run_img2vid] the [T * V] images of [version_dict["T"]], and
    [run_img2vid_per_step] one latent for each latent it is given. *)
Record well_sized {Float Image Latent Model RNG}
    `{!Oracle Float Image Latent Model RNG} : Prop := {
  read_video_size : ∀ a n w h, length (read_video a n w h) = n;
  sample_sv3d_size : ∀ a x n ps azs r,
    length (sample_sv3d a x n ps azs r).1 = n;
  run_img2vid_size : ∀ vd m x sd ps azs cm cv r,
    length (run_img2vid vd m x sd ps azs cm cv r).1 = vd_T vd;
  run_img2vid_per_step_size : ∀ vd m x sd ps azs cm cv step noisy r,
    length (run_img2vid_per_step vd m x sd ps azs cm cv step noisy r).1
    = length noisy
}.
Arguments well_sized {Float Image Latent Model RNG} _.

(** The angle lists the run accepts: one elevation or a list of
    [n_views_sv3d], no azimuths or a list of [n_views_sv3d]. *)
Definition valid_angles {Float} (a : Args Float) : Prop :=
  match elevations_deg a with
  | ElevScalar _ => True
  | ElevList l => length l = n_views_sv3d
  | ElevNone => False
  end ∧
  match azimuths_deg a with
  | None => True
  | Some l => length l = n_views_sv3d
  end.

(** Every slot of the image matrix holds an image. *)
Definition fully_filled {Image} (g : list (list (option Image))) : Prop :=
  ∀ t v, t < n_frames → v < n_views → ∃ x, slot g t v = Some (Some x).

(** A matrix has exactly the slots [(i, j)], [i < rows], [j < cols]. *)
Definition has_shape {A} (rows cols : nat) (m : list (list A)) : Prop :=
  ∀ i j, is_Some (slot m i j) ↔ i < rows ∧ j < cols.

(** Slot [(t, v)] of the image matrix holds an image. *)
Definition filled {Image} (g : list (list (option Image))) (t v : nat) : Prop :=
  ∃ x, slot g t v = Some (Some x).

(** [g'] has kept the shape and every image of [g]. *)
Definition extends {Image} (g g' : list (list (option Image))) : Prop :=
  (∀ t v, is_Some (slot g' t v) ↔ is_Some (slot g t v)) ∧
  (∀ t v x, slot g t v = Some (Some x) → slot g' t v = Some (Some x)).

(** [m'] is [m] with slot [(i, j)] set to [x]. *)
Definition is_update {A} (m : list (list A)) (i j : nat) (x : A)
    (m' : list (list A)) : Prop :=
  ∀ i' j', slot m' i' j'
           = if decide (i' = i ∧ j' = j) then Some x else slot m i' j'.

Arguments World : clear implicits.
Arguments Call : clear implicits.
Arguments M : clear implicits.

(** ** A deterministic stand-in for the collaborators

    Floats, images and latents are integers; the stand-in produces batches
    of the sizes the real helpers produce, so the schedule can be run on
    concrete data. *)
Module Stub.

Definition args (steps : nat) (elev : Elevations Z)
    (azim : option (list Z)) : Args Z :=
  mkArgs "assets/test_video.mp4" "outputs/sv4d" steps "sv3d_u" 6 127 0%Z
         23%Z 14 "cuda" elev azim None false false.

#[global] Instance oracle : Oracle Z Z Z unit Z := {|
  of_int z := z;
  fsub x y := (x - y)%Z;
  fmod x y := (x `mod` y)%Z;
  deg2rad x := x;
  two_pi := 360%Z;
  linspace_at a b num k :=
    (a + ((b - a) * Z.of_nat k) `div` (Z.of_nat num - 1))%Z;
  unsqueeze x := x;
  rescale x := (x * 2 - 1)%Z;
  manual_seed s := s;
  randn r := (r, (r + 1)%Z);
  read_video _ n _ _ := (λ t, 100 + Z.of_nat t)%Z <$> seq 0 n;
  sample_sv3d _ _ n _ _ r :=
    ((λ v, 1000 + Z.of_nat v)%Z <$> seq 0 n, (r + 1)%Z);
  load_model _ _ _ _ _ := tt;
  run_img2vid vd _ _ _ _ _ _ _ r :=
    ((λ k, 2000 + Z.of_nat k)%Z <$> seq 0 (vd_T vd), (r + 1)%Z);
  run_img2vid_per_step _ _ _ _ _ _ _ _ step noisy r :=
    ((λ z, z + 10000 * (1 + Z.of_nat step))%Z <$> noisy, (r + 1)%Z);
  decode_latents _ z _ := (3000 + z)%Z
|}.

Definition world (r : Z) (dir : gset string) : World Z Z Z Z :=
  mkWorld r dir [].

(** The value an action returned, or [d] if it raised. *)
Definition value {A} (d : A) (r : World Z Z Z Z * (Error + A)) : A :=
  match r.2 with inr x => x | inl _ => d end.

(** The stages of one run with two denoising steps, each from the state
    its predecessor left. *)
Definition a : Args Z := args 2 (ElevScalar 10%Z) None.
Definition w0 : World Z Z Z Z := world 23 ∅.
Definition angles : list Z * list Z :=
  value ([], []) (camera_viewpoints a w0).
Definition images_v0 : list Z := read_video a n_frames Dims.W Dims.H.
Definition images_t0 : list Z :=
  roll 1 (sample_sv3d a 100%Z n_views_sv3d angles.1 angles.2 23%Z).1.
Definition g0 : list (list (option Z)) :=
  value [] (init_grid images_t0 images_v0 w0).
Definition after_anchor :=
  anchor_pass (version_dict a) tt 23%Z angles.1 angles.2 g0 w0.
Definition g1 : list (list (option Z)) := value [] after_anchor.
Definition after_window0 :=
  dense_window (version_dict a) tt 23%Z 2 angles.1 angles.2 0 g1
               after_anchor.1.
Definition after_dense :=
  dense_pass (version_dict a) tt 23%Z 2 angles.1 angles.2 g1
             after_anchor.1.
Definition g2 : list (list (option Z)) := value [] after_dense.
Definition lm0 : list (list Z) := value [] (torch_randn n_frames n_views w0).
Definition after_steps (k : nat) :=
  dense_steps (version_dict a) tt 23%Z angles.1 angles.2 g1 k
              (window 0, lm0) w0.

End Stub.

(** ** A stand-in whose input video is too short *)
Module Clip.

(** [Stub.oracle] with a reader that finds only [frames] frames. *)
Definition oracle (frames : nat) : Oracle Z Z Z unit Z := {|
  of_int := Stub.oracle.(of_int);
  fsub := Stub.oracle.(fsub);
  fmod := Stub.oracle.(fmod);
  deg2rad := Stub.oracle.(deg2rad);
  two_pi := Stub.oracle.(two_pi);
  linspace_at := Stub.oracle.(linspace_at);
  unsqueeze := Stub.oracle.(unsqueeze);
  rescale := Stub.oracle.(rescale);
  manual_seed := Stub.oracle.(manual_seed);
  randn := Stub.oracle.(randn);
  read_video _ n _ _ := (λ t, 100 + Z.of_nat t)%Z <$> seq 0 (n `min` frames);
  sample_sv3d := Stub.oracle.(sample_sv3d);
  load_model := Stub.oracle.(load_model);
  run_img2vid := Stub.oracle.(run_img2vid);
  run_img2vid_per_step := Stub.oracle.(run_img2vid_per_step);
  decode_latents := Stub.oracle.(decode_latents)
|}.

End Clip.

(** ** The order of calls *)

(** What kind of call was made: SV3D, the SV4D anchor call, the SV4D
    denoising call of a given step, or a video write. *)
Inductive Kind :=
| KSv3d
| KAnchor
| KStep (step : nat)
| KSave.

Section Trace.
Context {Float Image Latent RNG : Type}.
Local Abbreviation M := (M Float Image Latent RNG).

Definition kind (c : Call Float Image Latent) : Kind :=
  match c with
  | SampleSv3d _ _ _ => KSv3d
  | RunImg2Vid _ _ _ _ _ => KAnchor
  | RunImg2VidPerStep _ _ _ _ _ step _ => KStep step
  | SaveVideo _ _ => KSave
  end.

(** The action makes the calls [ks], in this order, if it returns, and
    some of them, from the first on, if it raises. *)
Definition issues {A} (m : M A) (ks : list Kind) : Prop :=
  ∀ w,
    match m w with
    | (w', inr _) => kind <$> calls w' = (kind <$> calls w) ++ ks
    | (w', inl _) =>
        ∃ pre, pre `prefix_of` ks ∧ kind <$> calls w' = (kind <$> calls w) ++ pre
    end.

End Trace.

(** * The inference script, [src/inference/inference_sdxl.py]

    [main] loads the models, picks the example input, prepares the output
    folder, runs the pipeline once and saves every image it returns with
    the layout boxes drawn on it. *)
Module Inference.

(** [os.path.join(a, b)] on POSIX: an absolute [b] replaces [a]; otherwise
    the two are joined by one [/], unless [a] is empty or ends in one. *)
Definition path_join (a b : string) : string :=
  if String.prefix "/" b then b
  else if bool_decide (a = "") || ends_with "/" a then a +:+ b
  else a +:+ "/" +:+ b.

(** The fields of the hydra configuration that [main] reads:
    [cfg.general.unet_config], [cfg.general.model_path],
    [cfg.general.save_path], [cfg.general.real_image_editing] and
    [cfg.real_image_editing.placeholder_token]. *)
Record Config := mkConfig {
  unet_config : string;
  model_path : string;
  save_path : string;
  real_image_editing : bool;
  placeholder_token : string
}.

(** Boxes per phrase, each box four coordinates.  The coordinates are the
    decimal literals of the source; [main] only passes them on. *)
Definition Layout : Type := list (list (list QArith_base.Q)).

(** The dictionary [examples]. *)
Record Examples := mkExamples {
  prompt : string;
  phrases : string;
  bboxes : Layout;
  examples_save_path : string
}.

(** Lines 31-43. *)
Definition examples (cfg : Config) : Examples :=
  let examples :=
    mkExamples "A hello kitty toy is playing with a purple ball."
               "hello kitty; ball"
               [[[QArith_base.Qmake 1 10; QArith_base.Qmake 2 10;
                  QArith_base.Qmake 5 10; QArith_base.Qmake 8 10]];
                [[QArith_base.Qmake 75 100; QArith_base.Qmake 6 10;
                  QArith_base.Qmake 95 100; QArith_base.Qmake 8 10]]]
               (save_path cfg) in
  if real_image_editing cfg then
    mkExamples ("A " +:+ placeholder_token cfg +:+ " is standing on grass.")
               (placeholder_token cfg)
               [[[QArith_base.Qmake 4 10; QArith_base.Qmake 2 10;
                  QArith_base.Qmake 9 10; QArith_base.Qmake 9 10]]]
               (save_path cfg)
  else examples.

(** [os.path.join(cfg.general.save_path, 'config.yaml')] *)
Definition config_path (cfg : Config) : string :=
  path_join (save_path cfg) "config.yaml".

(** [os.path.join(cfg.general.save_path, 'example_{}.png'.format(index))] *)
Definition image_path (cfg : Config) (index : nat) : string :=
  path_join (save_path cfg) ("example_" +:+ pretty index +:+ ".png").

Section Main.
Context {PIL : Type}.

(** What the pipeline returns for a prompt, a layout and its phrases. *)
Variable pipe : Config → string → Layout → string → list PIL.
(** [torch.cuda.is_available()] *)
Variable cuda_is_available : bool.

(** What [main] does to the world outside, in order. *)
Inductive Event :=
| LoadJson (path : string)
| Print
| FromPretrained (model_path subfolder : string)
| To (subfolder device : string)
| MakeDirs (path : string)
| SetupLogger (path : string)
| LogInfo (msg : string)
| LogConfig
| SaveConfig (path : string)
| LoadPipeline (name : string)
| RunPipe (prompt : string) (bboxes : Layout) (phrases : string)
| DrawBox (image : PIL) (bboxes : Layout) (phrases : string) (path : string).

(** The paths that exist and the events so far. *)
Record State := mkState {
  existing : gset string;
  events : list Event
}.

Definition emit (e : Event) (s : State) : State :=
  mkState (existing s) (events s ++ [e]).

(** Lines 47-48. *)
Definition prepare_folder (path : string) (s : State) : State :=
  if bool_decide (path ∈ existing s)
  then s
  else emit (MakeDirs path) (mkState ({[path]} ∪ existing s) (events s)).

(** One iteration of the loop of lines 77-80. *)
Definition save_example (cfg : Config) (ex : Examples)
    (s : State) (item : nat * PIL) : State :=
  let '(index, pil_image) := item in
  let image_path := image_path cfg index in
  let s := emit (LogInfo ("save example image to " +:+ image_path)) s in
  emit (DrawBox pil_image (bboxes ex) (phrases ex) image_path) s.

Definition main (cfg : Config) (s : State) : State :=
  let s := emit (LoadJson (unet_config cfg)) s in
  let s := emit Print s in
  let s := emit (FromPretrained (model_path cfg) "tokenizer") s in
  let s := emit (FromPretrained (model_path cfg) "text_encoder") s in
  let s := emit (FromPretrained (model_path cfg) "vae") s in
  let device := if cuda_is_available then "cuda" else "cpu" in
  let s := emit (To "vae" device) s in
  let s := emit (To "text_encoder" device) s in
  let ex := examples cfg in
  let s := prepare_folder (save_path cfg) s in
  let s := emit (SetupLogger (save_path cfg)) s in
  let s := emit LogConfig s in
  let s := emit (LogInfo ("save config to " +:+ config_path cfg)) s in
  let s := emit (SaveConfig (config_path cfg))
                (mkState ({[config_path cfg]} ∪ existing s) (events s)) in
  let s := emit (LoadPipeline "stabilityai/stable-diffusion-xl-base-1.0") s in
  let s := emit (FromPretrained (model_path cfg) "unet") s in
  let s := emit (To "pipe" "cuda:0") s in
  let s := emit (RunPipe (prompt ex) (bboxes ex) (phrases ex)) s in
  let pil_images := pipe cfg (prompt ex) (bboxes ex) (phrases ex) in
  foldl (save_example cfg ex) s (enumerate pil_images).

(** The images drawn so far, with the path each one was saved to. *)
Definition drawn (es : list Event) : list (PIL * Layout * string * string) :=
  omap (λ e, match e with
             | DrawBox image boxes phrases path =>
                 Some (image, boxes, phrases, path)
             | _ => None
             end) es.

(** The layouts the pipeline was run with so far. *)
Definition piped (es : list Event) : list (string * Layout * string) :=
  omap (λ e, match e with
             | RunPipe prompt boxes phrases => Some (prompt, boxes, phrases)
             | _ => None
             end) es.

End Main.

End Inference.

(** * Properties of the schedule *)

(** ** Index arithmetic *)

Lemma view_indices_eq : view_indices = [1; 2; 3; 4; 5; 6; 7; 8].
Proof. reflexivity. Qed.

Lemma window_eq t0 : window t0 = [t0; t0 + 1; t0 + 2; t0 + 3; t0 + 4].
Proof. unfold window. simpl. by rewrite Nat.add_0_r. Qed.

(** ** Matrices seen through their slots *)

Section Slots.
Context {A : Type}.
Implicit Types (m : list (list A)) (row : list A).

Lemma slot_lookup m i j row : m !! i = Some row → slot m i j = row !! j.
Proof. unfold slot. by intros ->. Qed.

Lemma slot_lookup_or_none m i j :
  slot m i j = match m !! i with Some row => row !! j | None => None end.
Proof. unfold slot. by destruct (m !! i). Qed.

Lemma slot_is_Some m i j :
  is_Some (slot m i j) ↔ ∃ row, m !! i = Some row ∧ j < length row.
Proof.
  unfold slot. destruct (m !! i) as [row|]; simpl.
  - rewrite lookup_lt_is_Some. naive_solver.
  - split; [by intros [? ?]|naive_solver].
Qed.

Lemma is_update_insert m i j x row :
  m !! i = Some row → j < length row →
  is_update m i j x (<[i := <[j := x]> row]> m).
Proof.
  intros Hrow Hj i' j'. unfold slot.
  assert (i < length m) by (by eapply lookup_lt_Some).
  destruct (decide (i' = i)) as [->|Hi].
  - rewrite list_lookup_insert_eq by done. simpl.
    destruct (decide (j' = j)) as [->|Hj'].
    + rewrite list_lookup_insert_eq by done. by rewrite decide_True.
    + rewrite list_lookup_insert_ne by done.
      rewrite decide_False by naive_solver. by rewrite Hrow.
  - rewrite list_lookup_insert_ne by done.
    by rewrite decide_False by naive_solver.
Qed.

Lemma is_update_shape rows cols m i j x m' :
  has_shape rows cols m → is_Some (slot m i j) → is_update m i j x m' →
  has_shape rows cols m'.
Proof.
  intros Hshape Hij Hupd i' j'. rewrite Hupd.
  destruct (decide (i' = i ∧ j' = j)) as [[-> ->]|Hne].
  - split; [intros _; by apply Hshape|done].
  - apply Hshape.
Qed.

Lemma has_shape_replicate rows cols (x : A) :
  has_shape rows cols (replicate rows (replicate cols x)).
Proof.
  intros i j. unfold slot. split.
  - intros [y Hy]. destruct (replicate rows _ !! i) as [row|] eqn:Hrow;
      [|done]. simpl in Hy.
    apply lookup_replicate in Hrow as [-> Hi].
    apply lookup_replicate in Hy as [_ Hj]. done.
  - intros [Hi Hj]. rewrite (lookup_replicate_2 _ _ _ Hi). simpl.
    rewrite (lookup_replicate_2 _ _ _ Hj). done.
Qed.

Lemma slot_replicate rows cols (x : A) i j :
  i < rows → j < cols →
  slot (replicate rows (replicate cols x)) i j = Some x.
Proof.
  intros Hi Hj. unfold slot. rewrite (lookup_replicate_2 _ _ _ Hi). simpl.
  by rewrite (lookup_replicate_2 _ _ _ Hj).
Qed.

Lemma is_update_is_Some m i j x m' i' j' :
  is_Some (slot m i j) → is_update m i j x m' →
  is_Some (slot m' i' j') ↔ is_Some (slot m i' j').
Proof.
  intros Hij Hupd. rewrite Hupd. case_decide as Heq; [|done].
  destruct Heq as [-> ->]. naive_solver.
Qed.

Lemma enumerate_lookup_from (l : list A) n k :
  zip (seq n (length l)) l !! k = (λ x, (n + k, x)) <$> l !! k.
Proof.
  revert n k. induction l as [|x l IH]; intros n k; [done|].
  destruct k as [|k]; simpl.
  - by rewrite Nat.add_0_r.
  - rewrite IH. by replace (S n + k) with (n + S k) by lia.
Qed.

Lemma elem_of_enumerate (l : list A) i x :
  (i, x) ∈ enumerate l ↔ l !! i = Some x.
Proof.
  unfold enumerate. rewrite list_elem_of_lookup. split.
  - intros [k Hk]. rewrite enumerate_lookup_from in Hk.
    destruct (l !! k) as [y|] eqn:Hy; simplify_eq/=. done.
  - intros Hi. exists i. by rewrite enumerate_lookup_from, Hi.
Qed.

Lemma elem_of_enumerate_2 (l : list A) x :
  x ∈ l → ∃ i, (i, x) ∈ enumerate l.
Proof.
  intros [i Hi]%list_elem_of_lookup. exists i. by apply elem_of_enumerate.
Qed.

Lemma has_shape_of_lengths rows cols m :
  length m = rows → Forall (λ row, length row = cols) m →
  has_shape rows cols m.
Proof.
  intros Hlen Hrows i j. rewrite slot_is_Some. split.
  - intros (row & Hrow & Hj). split.
    + rewrite <- Hlen. by eapply lookup_lt_Some.
    + by rewrite <- (Forall_lookup_1 _ _ _ _ Hrows Hrow).
  - intros [Hi Hj]. rewrite <- Hlen in Hi.
    apply lookup_lt_is_Some_2 in Hi as [row Hrow]. exists row.
    split; [done|]. by rewrite (Forall_lookup_1 _ _ _ _ Hrows Hrow).
Qed.

Lemma length_mjoin_uniform cols (rows : list (list A)) :
  Forall (λ row, length row = cols) rows →
  length (mjoin rows) = length rows * cols.
Proof.
  induction 1 as [|row rows Hrow _ IH]; [done|].
  simpl. rewrite length_app, IH, Hrow. done.
Qed.

Lemma Forall2_const_r {B} (P : A → Prop) (l : list B) (k : list A) :
  Forall2 (λ _ y, P y) l k → Forall P k.
Proof. induction 1; by constructor. Qed.

Lemma has_shape_row rows cols m i :
  has_shape rows cols m → 0 < cols → i < rows →
  ∃ row, m !! i = Some row ∧ length row = cols.
Proof.
  intros Hshape Hcols Hi.
  destruct (proj1 (slot_is_Some m i 0)) as (row & Hrow & _).
  { apply Hshape. lia. }
  exists row. split; [done|].
  assert (∀ j, j < length row ↔ j < cols) as Hj.
  { intros j. rewrite <- lookup_lt_is_Some, <- (slot_lookup _ _ _ _ Hrow).
    rewrite (Hshape i j). naive_solver. }
  pose proof (Hj (length row)). pose proof (Hj cols). lia.
Qed.

Lemma slot_chunks rows cols (l : list A) i j :
  i < rows → j < cols → length l = rows * cols →
  slot (chunks rows cols l) i j = l !! (i * cols + j).
Proof.
  revert l i. induction rows as [|rows IH]; intros l i Hi Hj Hlen; [lia|].
  simpl. destruct i as [|i]; unfold slot; simpl.
  - by rewrite lookup_take_lt.
  - fold (slot (chunks rows cols (drop cols l)) i j).
    rewrite IH; [|lia|done|rewrite length_drop; lia].
    rewrite lookup_drop. f_equal. lia.
Qed.

Lemma has_shape_chunks rows cols (l : list A) :
  length l = rows * cols → has_shape rows cols (chunks rows cols l).
Proof.
  revert l. induction rows as [|rows IH]; intros l Hlen i j.
  - simpl. unfold slot. simpl. split; [by intros [? ?]|intros [? _]; lia].
  - simpl. destruct i as [|i]; unfold slot; simpl.
    + rewrite lookup_lt_is_Some, length_take. lia.
    + fold (slot (chunks rows cols (drop cols l)) i j).
      assert (length (drop cols l) = rows * cols) as Hlen'
        by (rewrite length_drop; lia).
      unfold has_shape in IH. rewrite (IH _ Hlen' i j). lia.
Qed.

End Slots.

Lemma elem_of_view_indices v : v ∈ view_indices ↔ 1 ≤ v ≤ V.
Proof.
  rewrite view_indices_eq. unfold V. repeat rewrite elem_of_cons.
  rewrite elem_of_nil. lia.
Qed.

Lemma enumerate_view_indices j v :
  (j, v) ∈ enumerate view_indices → j < V ∧ v ∈ view_indices.
Proof.
  rewrite elem_of_enumerate. intros Hj. split.
  - apply lookup_lt_Some in Hj. by rewrite view_indices_eq in Hj.
  - by eapply list_elem_of_lookup_2.
Qed.

Lemma elem_of_split_middle {A} (l pre post : list A) x :
  l = pre ++ x :: post → x ∈ l.
Proof. intros ->. set_solver. Qed.

(** ** Rules for runs *)

Section Rules.
Context {Float Image Latent Model RNG : Type}.
Context `{!Oracle Float Image Latent Model RNG}.
Local Abbreviation M := (M Float Image Latent RNG).
Local Abbreviation World := (World Float Image Latent RNG).
Implicit Types (w : World) (E : Prop).

Lemma wp_ret {A} E (a : A) w (Q : A → World → Prop) :
  Q a w → wp E (ret a) w Q.
Proof. done. Qed.

Lemma wp_raise {A} E e w (Q : A → World → Prop) :
  E → wp E (raise e) w Q.
Proof. done. Qed.

Lemma wp_bind {A B} E (m : M A) (k : A → M B) w (Q : B → World → Prop) :
  wp E m w (λ a w', wp E (k a) w' Q) → wp E (m ≫= k) w Q.
Proof.
  unfold wp, mbind, M_bind, bind. by destruct (m w) as [w' [e|a]].
Qed.

Lemma wp_mono {A} E (m : M A) w (Q Q' : A → World → Prop) :
  wp E m w Q → (∀ a w', Q a w' → Q' a w') → wp E m w Q'.
Proof. unfold wp. destruct (m w) as [w' [e|a]]; auto. Qed.

Lemma wp_total {A} (m : M A) w (Q : A → World → Prop) :
  wp False m w Q ↔ ∃ a w', m w = (w', inr a) ∧ Q a w'.
Proof.
  unfold wp. destruct (m w) as [w' [e|a]]; split.
  - done.
  - intros (a & w'' & Heq & _). discriminate Heq.
  - eauto.
  - intros (a' & w'' & Heq & HQ). by simplify_eq.
Qed.

Lemma wp_partial {A} (m : M A) w (Q : A → World → Prop) :
  wp True m w Q ↔ ∀ a w', m w = (w', inr a) → Q a w'.
Proof.
  unfold wp. destruct (m w) as [w' [e|a]]; split; try done.
  - intros HQ a' w'' Heq. by simplify_eq.
  - intros HQ. by apply HQ.
Qed.

Lemma wp_weaken {A} E (m : M A) w (Q : A → World → Prop) :
  wp False m w Q → wp E m w Q.
Proof. unfold wp. by destruct (m w) as [w' [e|a]]. Qed.

(** Loops: the invariant is indexed by the elements already visited. *)
Lemma wp_for_each_from {A S} E (body : A → S → M S)
    (I : list A → S → World → Prop) (todo visited : list A) s w :
  I visited s w →
  (∀ pre x s w, (∃ post, visited ++ todo = pre ++ x :: post) →
                I pre s w → wp E (body x s) w (I (pre ++ [x]))) →
  wp E (for_each todo body s) w (I (visited ++ todo)).
Proof.
  revert visited s w.
  induction todo as [|x todo IH]; intros visited s w HI Hbody.
  - rewrite app_nil_r. by apply wp_ret.
  - simpl. apply wp_bind.
    eapply wp_mono; [apply Hbody; [by eexists|done]|].
    intros s' w' HI'. simpl in HI'.
    replace (visited ++ x :: todo) with ((visited ++ [x]) ++ todo)
      by (by rewrite <- app_assoc).
    apply IH; [done|].
    intros pre y s'' w'' [post Hpost] HI''. apply Hbody; [|done].
    exists post. by rewrite <- Hpost, <- app_assoc.
Qed.

Lemma wp_for_each {A S} E (body : A → S → M S)
    (I : list A → S → World → Prop) (l : list A) s w :
  I [] s w →
  (∀ pre x s w, (∃ post, l = pre ++ x :: post) →
                I pre s w → wp E (body x s) w (I (pre ++ [x]))) →
  wp E (for_each l body s) w (I l).
Proof. intros HI Hbody. by apply (wp_for_each_from E body I l []). Qed.

Lemma for_each_app {A S} (body : A → S → M S) (l1 l2 : list A) s w :
  for_each (l1 ++ l2) body s w
  = (for_each l1 body s ≫= for_each l2 body) w.
Proof.
  revert s w. induction l1 as [|x l1 IH]; intros s w; [done|].
  simpl. unfold mbind, M_bind, bind.
  destruct (body x s w) as [w1 [e|s1]]; [done|]. apply IH.
Qed.

(** Loops with an invariant that does not mention the position. *)
Lemma wp_for_each_inv {A S} E (body : A → S → M S)
    (I : S → World → Prop) (l : list A) s w :
  I s w →
  (∀ x s w, x ∈ l → I s w → wp E (body x s) w I) →
  wp E (for_each l body s) w I.
Proof.
  intros HI Hbody. apply (wp_for_each E body (λ _, I) l); [done|].
  intros pre x s' w' [post ->] HI'. apply Hbody; [|done].
  set_solver.
Qed.

(** Comprehensions: [R] relates every element to its image. *)
Lemma wp_for_list {A B} E (f : A → M B) (I : World → Prop)
    (R : A → B → Prop) (l : list A) w :
  I w →
  (∀ x w, x ∈ l → I w → wp E (f x) w (λ y w', I w' ∧ R x y)) →
  wp E (for_list f l) w (λ ys w', I w' ∧ Forall2 R l ys).
Proof.
  revert w. induction l as [|x l IH]; intros w HI Hf; simpl.
  - apply wp_ret. by split.
  - apply wp_bind. eapply wp_mono; [apply Hf; [set_solver|done]|].
    intros y w' [HI' HR]. simpl. apply wp_bind.
    eapply wp_mono; [apply IH; [done|]|].
    + intros x' w'' Hx' HI''. apply Hf; [set_solver|done].
    + intros ys w'' [HI'' HRs]. apply wp_ret. split; [done|]. by constructor.
Qed.

Lemma wp_raised {A} E (m : M A) w e (Q : A → World → Prop) :
  m w = (w, inl e) → E → wp E m w Q.
Proof. unfold wp. by intros ->. Qed.

Lemma wp_returned {A} E (m : M A) w a (Q : A → World → Prop) :
  m w = (w, inr a) → Q a w → wp E m w Q.
Proof. unfold wp. by intros ->. Qed.

(** *** Primitive actions *)

Lemma wp_assert E (b : bool) msg w (Q : unit → World → Prop) :
  (if b then Q tt w else E) → wp E (assert b msg) w Q.
Proof. unfold wp, assert. by destruct b. Qed.

Lemma wp_index {A} E (l : list A) i w (Q : A → World → Prop) :
  match l !! i with Some x => Q x w | None => E end →
  wp E (index l i) w Q.
Proof. unfold wp, index. by destruct (l !! i). Qed.

Lemma wp_index_last {A} E (l : list A) w (Q : A → World → Prop) :
  match l !! (length l - 1) with Some x => Q x w | None => E end →
  wp E (index_last l) w Q.
Proof. unfold wp, index_last. by destruct (l !! _). Qed.

Lemma wp_not_none {A} E (o : option A) w (Q : A → World → Prop) :
  match o with Some x => Q x w | None => E end → wp E (not_none o) w Q.
Proof. unfold wp, not_none. by destruct o. Qed.

Lemma wp_view {A} E rows cols (l : list A) w
    (Q : list (list A) → World → Prop) :
  (if decide (length l = rows * cols) then Q (chunks rows cols l) w
   else E) →
  wp E (view rows cols l) w Q.
Proof. unfold wp, view. by case_decide. Qed.

Lemma wp_get2 {A} E (m : list (list A)) i j w (Q : A → World → Prop) :
  match slot m i j with Some x => Q x w | None => E end →
  wp E (get2 m i j) w Q.
Proof.
  unfold get2, slot. intros HQ. apply wp_bind, wp_index.
  destruct (m !! i) as [row|]; [|done]. by apply wp_index.
Qed.

Lemma wp_set2 {A} E (m : list (list A)) i j x w
    (Q : list (list A) → World → Prop) :
  match slot m i j with
  | Some _ => ∀ m', is_update m i j x m' → Q m' w
  | None => E
  end →
  wp E (set2 m i j x) w Q.
Proof.
  unfold set2. intros HQ. apply wp_bind, wp_index.
  rewrite (slot_lookup_or_none m i j) in HQ.
  destruct (m !! i) as [row|] eqn:Hrow; [|done].
  case_decide as Hj.
  - apply lookup_lt_is_Some in Hj as Hx. destruct Hx as [y Hy].
    rewrite Hy in HQ. apply wp_ret, HQ. by apply is_update_insert.
  - rewrite lookup_ge_None_2 in HQ by lia. by apply wp_raise.
Qed.

Lemma wp_cat E (xs : list (option Image)) w (Q : list Image → World → Prop) :
  (∀ ys, xs = Some <$> ys → Q ys w) →
  E ∨ Forall is_Some xs →
  wp E (cat xs) w Q.
Proof.
  unfold cat. revert Q. induction xs as [|x xs IH]; intros Q HQ Hok; simpl.
  - apply wp_ret. by apply (HQ []).
  - apply wp_bind, wp_not_none. destruct x as [y|].
    + apply wp_bind, IH.
      * intros ys ->. apply wp_ret. by apply (HQ (y :: ys)).
      * destruct Hok as [?|Hok]; [by left|right]. by inversion Hok.
    + destruct Hok as [?|Hok]; [done|]. inversion Hok as [|?? [? ?]].
      done.
Qed.

Lemma wp_log E c w (Q : unit → World → Prop) :
  Q tt (mkWorld (rng w) (folder w) (calls w ++ [c])) → wp E (log c) w Q.
Proof. done. Qed.

Lemma wp_with_rng {A} E (f : RNG → A * RNG) w (Q : A → World → Prop) :
  Q (f (rng w)).1 (mkWorld (f (rng w)).2 (folder w) (calls w)) →
  wp E (with_rng f) w Q.
Proof. unfold wp, with_rng. by destruct (f (rng w)). Qed.

Lemma wp_torch_manual_seed E s w (Q : unit → World → Prop) :
  Q tt (mkWorld (manual_seed s) (folder w) (calls w)) →
  wp E (torch_manual_seed s) w Q.
Proof. done. Qed.

Lemma wp_glob_mp4 E w (Q : nat → World → Prop) :
  Q (count_mp4 (folder w)) w → wp E glob_mp4 w Q.
Proof. done. Qed.

Lemma wp_write_file E file w (Q : unit → World → Prop) :
  Q tt (mkWorld (rng w) ({[file]} ∪ folder w) (calls w)) →
  wp E (write_file file) w Q.
Proof. done. Qed.

End Rules.

(** ** Runs that complete *)

Section Total.
Context {Float Image Latent Model RNG : Type}.
Context `{O : !Oracle Float Image Latent Model RNG}.
Local Abbreviation M := (M Float Image Latent RNG).
Local Abbreviation World := (World Float Image Latent RNG).
Local Abbreviation Grid := (list (list (option Image))).
Implicit Types (w : World) (g : Grid) (lm : list (list Latent)).

Lemma default_azimuths_length : length default_azimuths = n_views_sv3d.
Proof.
  unfold default_azimuths.
  by rewrite length_fmap, length_drop, length_fmap, length_seq.
Qed.

Lemma camera_viewpoints_ok a w :
  valid_angles a →
  wp False (camera_viewpoints a) w
     (λ r w', w' = w ∧ length r.1 = n_views_sv3d
              ∧ length r.2 = n_views_sv3d).
Proof.
  intros [Hel Haz]. unfold camera_viewpoints. apply wp_bind.
  apply wp_mono with (Q := λ el w', w' = w ∧ length el = n_views_sv3d).
  { destruct (elevations_deg a) as [e|l|]; [| |done]; apply wp_ret.
    - split; [done|]. by rewrite length_replicate.
    - done. }
  intros el w' [-> Hlen]. apply wp_bind, wp_assert.
  rewrite bool_decide_true by done. apply wp_bind, wp_assert.
  assert (length (default default_azimuths (azimuths_deg a))
          = n_views_sv3d) as Hazl.
  { destruct (azimuths_deg a); [done|]. apply default_azimuths_length. }
  rewrite bool_decide_true by done. apply wp_bind.
  eapply wp_mono.
  { apply (wp_for_list False _ (λ w', w' = w) (λ _ _, True)); [done|].
    intros x w' _ ->. apply wp_bind, wp_index_last.
    destruct (lookup_lt_is_Some_2
                (default default_azimuths (azimuths_deg a))
                (length (default default_azimuths (azimuths_deg a)) - 1))
      as [y ->]; [rewrite Hazl; unfold n_views_sv3d; lia|].
    by apply wp_ret. }
  intros ys w' [-> Hys]. apply wp_ret. split; [done|]. simpl.
  split; [by rewrite length_fmap|].
  apply Forall2_length in Hys; by rewrite <- Hys.
Qed.

Lemma view_angles_ok (angles : list Float) w :
  length angles = n_views_sv3d →
  wp False (view_angles angles) w (λ _ w', w' = w).
Proof.
  intros Hlen. unfold view_angles. apply wp_bind. eapply wp_mono.
  { apply (wp_for_list False _ (λ w', w' = w) (λ _ _, True)); [done|].
    intros v w' Hv ->. apply wp_index.
    destruct (lookup_lt_is_Some_2 angles v) as [y ->]; [|done].
    rewrite Hlen. unfold n_views_sv3d.
    assert (Forall (λ v, v < 21) (drop 1 subsampled_views)) as Hall
      by (vm_compute; repeat constructor).
    exact (proj1 (Forall_forall _ _) Hall v Hv). }
  intros ys w' [-> _]. by apply wp_ret.
Qed.

(** Reading filled slots. *)
Lemma wp_get2_filled E g t v w (Q : option Image → World → Prop) :
  filled g t v → (∀ x, slot g t v = Some (Some x) → Q (Some x) w) →
  wp E (get2 g t v) w Q.
Proof. intros [x Hx] HQ. apply wp_get2. rewrite Hx. by apply HQ. Qed.

Lemma read_filled g (f : nat → nat * nat) (l : list nat) w :
  (∀ x, x ∈ l → filled g (f x).1 (f x).2) →
  wp False (for_list (λ x, get2 g (f x).1 (f x).2) l) w
     (λ xs w', w' = w ∧ Forall is_Some xs ∧ length xs = length l).
Proof.
  intros Hfilled. eapply wp_mono.
  { apply (wp_for_list False _ (λ w', w' = w) (λ _ y, is_Some y)); [done|].
    intros x w' Hx ->. apply wp_get2_filled; [by apply Hfilled|].
    intros y _. by split. }
  intros xs w' [-> Hxs]. split; [done|]. split.
  - clear Hfilled. induction Hxs; by constructor.
  - symmetry. by eapply Forall2_length.
Qed.

Lemma extends_refl g : extends g g.
Proof. by split. Qed.

Lemma extends_trans g1 g2 g3 : extends g1 g2 → extends g2 g3 → extends g1 g3.
Proof.
  intros [Hs1 Hv1] [Hs2 Hv2]. split.
  - intros t v. by rewrite Hs2, Hs1.
  - intros t v x Hx. by apply Hv2, Hv1.
Qed.

Lemma extends_filled g g' t v : extends g g' → filled g t v → filled g' t v.
Proof. intros [_ Hv] [x Hx]. exists x. by apply Hv. Qed.

Lemma extends_shape rows cols g g' :
  extends g g' → has_shape rows cols g → has_shape rows cols g'.
Proof. intros [Hs _] Hshape t v. by rewrite Hs. Qed.

(** Writing an image into a slot that exists keeps the shape; it keeps
    every image when the slot was empty. *)
Lemma is_update_extends g t v x g' :
  slot g t v = Some None → is_update g t v (Some x) g' → extends g g'.
Proof.
  intros Hnone Hupd. split.
  - intros t' v'. eapply is_update_is_Some; [by rewrite Hnone|done].
  - intros t' v' y Hy. rewrite Hupd. case_decide as Heq; [|done].
    destruct Heq as [-> ->]. congruence.
Qed.

Lemma is_update_filled g t v x g' :
  is_update g t v (Some x) g' → filled g' t v.
Proof. intros Hupd. exists x. rewrite Hupd. by rewrite decide_True. Qed.

(** The loop of lines 174-177 fills the anchor slots and overwrites
    nothing. *)
Lemma anchor_commit_spec E frame_indices samples g w :
  E ∨ (has_shape n_frames n_views g
       ∧ has_shape (length frame_indices) V samples
       ∧ ∀ t, t ∈ frame_indices → t < n_frames) →
  wp E (anchor_commit frame_indices samples g) w
     (λ g' w', w' = w ∧ extends g g' ∧
        ∀ t v, t ∈ frame_indices → v ∈ view_indices → filled g' t v).
Proof.
  intros Hok. unfold anchor_commit. eapply wp_mono.
  { apply (wp_for_each E _
      (λ pre g' w', w' = w ∧ extends g g' ∧
         ∀ i t v, (i, t) ∈ pre → v ∈ view_indices → filled g' t v)).
    { split; [done|]. split; [apply extends_refl|].
      intros i t v Hin. by apply elem_of_nil in Hin. }
    intros pre [i t] g1 w1 [post Hl] (-> & Hext & Hfill).
    apply elem_of_split_middle, elem_of_enumerate in Hl as Hit.
    eapply wp_mono.
    { apply (wp_for_each E _
        (λ pre' g' w', w' = w ∧ extends g1 g' ∧
           ∀ j v, (j, v) ∈ pre' → filled g' t v)).
      { split; [done|]. split; [apply extends_refl|].
        intros j v Hin. by apply elem_of_nil in Hin. }
      intros pre' [j v] g2 w2 [post' Hl'] (-> & Hext' & Hfill').
      apply elem_of_split_middle, enumerate_view_indices in Hl' as [Hj Hv].
      apply wp_bind, wp_get2.
      destruct (slot g2 t v) as [[y|]|] eqn:Hcur.
      - apply wp_ret. split; [done|]. split; [done|].
        intros j' v' [Hin|Hin]%elem_of_app; [by eapply Hfill'|].
        apply list_elem_of_singleton in Hin. simplify_eq. by exists y.
      - apply wp_bind, wp_get2.
        destruct (slot samples i j) as [x|] eqn:Hx.
        + apply wp_set2. rewrite Hcur. intros g3 Hupd. split; [done|].
          assert (extends g2 g3) as Hext3 by (by eapply is_update_extends).
          split; [by eapply extends_trans|].
          intros j' v' [Hin|Hin]%elem_of_app.
          * eapply extends_filled; [done|]. by eapply Hfill'.
          * apply list_elem_of_singleton in Hin. simplify_eq.
            by eapply is_update_filled.
        + destruct Hok as [?|(_ & Hs & _)]; [done|]. exfalso.
          apply lookup_lt_Some in Hit.
          destruct (proj2 (Hs i j)) as [? ?]; [done|congruence].
      - destruct Hok as [?|(Hg & _ & Hfi)]; [done|]. exfalso.
        assert (has_shape n_frames n_views g2) as Hg2.
        { eapply extends_shape; [|done]. by eapply extends_trans. }
        apply list_elem_of_lookup_2, Hfi in Hit.
        apply elem_of_view_indices in Hv. unfold V in Hv.
        destruct (proj2 (Hg2 t v)) as [? ?]; [|congruence].
        unfold n_views, V. lia. }
    cbv beta. intros g2 w2 (-> & Hext2 & Hfill2). split; [done|].
    split; [by eapply extends_trans|].
    intros i' t' v' [Hin|Hin]%elem_of_app Hv'.
    - eapply extends_filled; [done|]. by eapply Hfill.
    - apply list_elem_of_singleton in Hin. simplify_eq.
      apply elem_of_enumerate_2 in Hv' as [j' Hj']. by eapply Hfill2. }
  cbv beta. intros g' w' (-> & Hext & Hfill). split; [done|].
  split; [done|]. intros t v Ht Hv.
  apply elem_of_enumerate_2 in Ht as [i Hi]. by eapply Hfill.
Qed.

Lemma conditioning_ok polars_rad azimuths_rad g t0 frame_indices w :
  length polars_rad = n_views_sv3d →
  length azimuths_rad = n_views_sv3d →
  filled g t0 0 →
  (∀ t, t ∈ frame_indices → filled g t 0) →
  (∀ v, v ∈ view_indices → filled g t0 v) →
  wp False (conditioning polars_rad azimuths_rad g t0 frame_indices) w
     (λ c w', w' = w ∧ is_Some (c_image c)).
Proof.
  intros Hp Ha H00 Hcol Hrow. unfold conditioning, v0.
  apply wp_bind, wp_get2_filled; [done|]. intros x _.
  apply wp_bind. eapply wp_mono.
  { apply (read_filled g (λ t, (t, 0))). intros t Ht. by apply Hcol. }
  intros motion w' (-> & Hmotion & _). cbv beta.
  apply wp_bind, wp_cat; [|by right]. intros cond_motion _.
  apply wp_bind. eapply wp_mono.
  { apply (read_filled g (λ v, (t0, v))). intros v Hv. by apply Hrow. }
  intros views w' (-> & Hviews & _). cbv beta.
  apply wp_bind, wp_cat; [|by right]. intros cond_view _.
  apply wp_bind. eapply wp_mono; [by apply view_angles_ok|].
  intros polars w' ->. cbv beta.
  apply wp_bind. eapply wp_mono; [by apply view_angles_ok|].
  intros azims w' ->. cbv beta.
  apply wp_bind, wp_index.
  destruct (lookup_lt_is_Some_2 azimuths_rad 0) as [y ->];
    [rewrite Ha; unfold n_views_sv3d; lia|].
  apply wp_ret. by split.
Qed.

Lemma call_run_img2vid_ok vd model image sd polars azims cm cv w :
  well_sized O → is_Some image →
  wp False (call_run_img2vid vd model image sd polars azims cm cv) w
     (λ samples _, length samples = vd_T vd).
Proof.
  intros Hsized [x ->]. unfold call_run_img2vid.
  apply wp_bind, wp_not_none, wp_bind, wp_log, wp_with_rng.
  apply run_img2vid_size, Hsized.
Qed.

Lemma call_run_img2vid_per_step_ok vd model image sd polars azims cm cv
    step noisy w :
  well_sized O → is_Some image →
  wp False (call_run_img2vid_per_step vd model image sd polars azims
                                      cm cv step noisy) w
     (λ samples _, length samples = length noisy).
Proof.
  intros Hsized [x ->]. unfold call_run_img2vid_per_step.
  apply wp_bind, wp_not_none, wp_bind, wp_log, wp_with_rng.
  apply run_img2vid_per_step_size, Hsized.
Qed.

Lemma anchor_frame_indices_lt t : t ∈ anchor_frame_indices → t < n_frames.
Proof.
  assert (Forall (λ t, t < n_frames) anchor_frame_indices) as Hall
    by (vm_compute; repeat constructor).
  intros Ht. exact (proj1 (Forall_forall _ _) Hall t Ht).
Qed.

Lemma anchor_pass_ok vd model sd polars_rad azimuths_rad g w :
  well_sized O → vd_T vd = T * V →
  length polars_rad = n_views_sv3d → length azimuths_rad = n_views_sv3d →
  has_shape n_frames n_views g →
  (∀ t, t < n_frames → filled g t 0) →
  (∀ v, v < n_views → filled g 0 v) →
  wp False (anchor_pass vd model sd polars_rad azimuths_rad g) w
     (λ g' _, extends g g' ∧
        ∀ t v, t ∈ anchor_frame_indices → v ∈ view_indices →
               filled g' t v).
Proof.
  intros Hsized HT Hp Ha Hshape Hcol Hrow. unfold anchor_pass.
  apply wp_bind. eapply wp_mono.
  { apply conditioning_ok; [done|done|..].
    - apply Hcol. unfold n_frames. lia.
    - intros t Ht. by apply Hcol, anchor_frame_indices_lt.
    - intros v [_ Hv]%elem_of_view_indices. apply Hrow.
      unfold n_views. lia. }
  cbv beta. intros c w' [-> Himage].
  apply wp_bind. eapply wp_mono; [by apply call_run_img2vid_ok|].
  cbv beta. intros samples w' Hlen. rewrite HT in Hlen.
  apply wp_bind, wp_view. rewrite decide_True by done.
  eapply wp_mono.
  { apply anchor_commit_spec. right. split; [done|]. split.
    - by apply has_shape_chunks.
    - apply anchor_frame_indices_lt. }
  cbv beta. by intros g' w'' (_ & Hext & Hfill).
Qed.

(** *** The dense pass *)

Lemma torch_randn_spec E rows cols w :
  wp E (torch_randn rows cols) w
     (λ lm w', has_shape rows cols lm
               ∧ folder w' = folder w ∧ calls w' = calls w).
Proof.
  unfold torch_randn. eapply wp_mono.
  { apply (wp_for_list E _
             (λ w', folder w' = folder w ∧ calls w' = calls w)
             (λ _ row, length row = cols)); [done|].
    intros _ w1 _ Hw1. eapply wp_mono.
    { apply (wp_for_list E _
               (λ w', folder w' = folder w ∧ calls w' = calls w)
               (λ _ _, True)); [done|].
      intros _ w2 _ Hw2. by apply wp_with_rng. }
    cbv beta. intros row w2 [Hw2 Hrow]. split; [done|].
    apply Forall2_length in Hrow. by rewrite length_seq in Hrow. }
  cbv beta. intros lm w' [Hw' Hlm]. split; [|done].
  apply has_shape_of_lengths.
  - apply Forall2_length in Hlm. by rewrite length_seq in Hlm.
  - by eapply Forall2_const_r.
Qed.

Lemma gather_ok lm frame_indices w :
  has_shape n_frames n_views lm →
  (∀ t, t ∈ frame_indices → t < n_frames) →
  wp False (gather lm frame_indices) w
     (λ l w', w' = w ∧ length l = length frame_indices * V).
Proof.
  intros Hshape Hfi. unfold gather. apply wp_bind. eapply wp_mono.
  { apply (wp_for_list False _ (λ w', w' = w)
             (λ _ row, length row = n_views)); [done|].
    intros t w' Ht ->. apply wp_index.
    destruct (has_shape_row _ _ lm t Hshape) as (row & -> & Hrow);
      [unfold n_views, V; lia|by apply Hfi|done]. }
  cbv beta. intros rows w' [-> Hrows].
  apply Forall2_length in Hrows as Hlen.
  apply Forall2_const_r in Hrows. rewrite Forall_forall in Hrows.
  apply wp_bind. eapply wp_mono.
  { apply (wp_for_list False _ (λ w', w' = w)
             (λ _ out, length out = V)); [done|].
    intros row w' Hrow ->. eapply wp_mono.
    { apply (wp_for_list False _ (λ w', w' = w) (λ _ _, True)); [done|].
      intros v w' [_ Hv]%elem_of_view_indices ->. apply wp_index.
      destruct (lookup_lt_is_Some_2 row v) as [z ->]; [|done].
      rewrite (Hrows row Hrow). unfold n_views. lia. }
    cbv beta. intros out w' [-> Hout]. split; [done|].
    apply Forall2_length in Hout. by rewrite <- Hout. }
  cbv beta. intros rows' w' [-> Hrows']. apply wp_ret. split; [done|].
  apply Forall2_length in Hrows' as Hlen'.
  rewrite (length_mjoin_uniform V); [lia|]. by eapply Forall2_const_r.
Qed.

Lemma scatter_ok frame_indices samples lm w :
  has_shape n_frames n_views lm →
  has_shape (length frame_indices) V samples →
  (∀ t, t ∈ frame_indices → t < n_frames) →
  wp False (scatter frame_indices samples lm) w
     (λ lm' w', w' = w ∧ has_shape n_frames n_views lm').
Proof.
  intros Hshape Hsamples Hfi. unfold scatter.
  apply (wp_for_each_inv False _
           (λ lm' w', w' = w ∧ has_shape n_frames n_views lm'));
    [done|].
  intros [i t] lm1 w1 Hit%elem_of_enumerate [-> Hlm1].
  apply (wp_for_each_inv False _
           (λ lm' w', w' = w ∧ has_shape n_frames n_views lm'));
    [done|].
  intros [j v] lm2 w2 [Hj Hv]%enumerate_view_indices [-> Hlm2].
  apply elem_of_view_indices in Hv.
  apply wp_bind, wp_get2.
  destruct (proj2 (Hsamples i j)) as [x ->];
    [split; [by eapply lookup_lt_Some|done]|].
  apply wp_set2.
  destruct (proj2 (Hlm2 t v)) as [z Hz].
  { split; [by eapply Hfi, list_elem_of_lookup_2|unfold n_views; lia]. }
  rewrite Hz. intros lm3 Hupd. split; [done|].
  eapply is_update_shape; [done| |done]. by rewrite Hz.
Qed.

Lemma window_length t0 : length (window t0) = T.
Proof. by rewrite window_eq. Qed.

Lemma elem_of_window t0 t : t ∈ window t0 ↔ t0 ≤ t ≤ t0 + 4.
Proof.
  rewrite window_eq. repeat rewrite elem_of_cons. rewrite elem_of_nil. lia.
Qed.

Lemma dense_step_ok vd model sd polars_rad azimuths_rad g step
    frame_indices lm w :
  well_sized O → vd_T vd = T * V →
  length polars_rad = n_views_sv3d → length azimuths_rad = n_views_sv3d →
  (∀ t, t < n_frames → filled g t 0) →
  length frame_indices = T →
  (∀ t, t ∈ frame_indices → t < n_frames) →
  (∀ t v, reverse frame_indices !! 0 = Some t → v ∈ view_indices →
          filled g t v) →
  has_shape n_frames n_views lm →
  wp False (dense_step vd model sd polars_rad azimuths_rad g step
                       (frame_indices, lm)) w
     (λ st _, st.1 = reverse frame_indices
              ∧ has_shape n_frames n_views st.2).
Proof.
  intros Hsized HT Hp Ha Hcol Hlen Hfi Hrow Hlm.
  unfold dense_step. cbv beta iota zeta.
  assert (∀ t, t ∈ reverse frame_indices → t < n_frames) as Hfi'.
  { intros t Ht. apply Hfi. by apply elem_of_reverse. }
  apply wp_bind, wp_index.
  destruct (lookup_lt_is_Some_2 (reverse frame_indices) 0) as [t0 Ht0].
  { rewrite length_reverse, Hlen. unfold T. lia. }
  rewrite Ht0.
  apply wp_bind. eapply wp_mono.
  { apply conditioning_ok; [done|done|..].
    - by eapply Hcol, Hfi', list_elem_of_lookup_2.
    - intros t Ht. by apply Hcol, Hfi'.
    - intros v Hv. by apply Hrow. }
  cbv beta. intros c w' [-> Himage].
  apply wp_bind. eapply wp_mono; [by apply gather_ok|].
  cbv beta. intros noisy w' [-> Hnoisy].
  rewrite length_reverse, Hlen in Hnoisy.
  apply wp_bind. eapply wp_mono;
    [by apply call_run_img2vid_per_step_ok|].
  cbv beta. intros samples w' Hsamples. rewrite Hnoisy in Hsamples.
  apply wp_bind, wp_view. rewrite decide_True by done.
  apply wp_bind. eapply wp_mono.
  { apply scatter_ok; [done| |done].
    rewrite length_reverse, Hlen. by apply has_shape_chunks. }
  cbv beta. intros lm' w'' [-> Hlm']. by apply wp_ret.
Qed.

Lemma dense_steps_ok vd model sd polars_rad azimuths_rad g steps t0 lm w :
  well_sized O → vd_T vd = T * V →
  length polars_rad = n_views_sv3d → length azimuths_rad = n_views_sv3d →
  (∀ t, t < n_frames → filled g t 0) →
  t0 + 4 < n_frames →
  (∀ v, v ∈ view_indices → filled g t0 v) →
  (∀ v, v ∈ view_indices → filled g (t0 + 4) v) →
  has_shape n_frames n_views lm →
  wp False (dense_steps vd model sd polars_rad azimuths_rad g steps
                        (window t0, lm)) w
     (λ st _, (st.1 = window t0 ∨ st.1 = reverse (window t0))
              ∧ has_shape n_frames n_views st.2).
Proof.
  intros Hsized HT Hp Ha Hcol Ht0 Hrow0 Hrow4 Hlm. unfold dense_steps.
  apply (wp_for_each_inv False _
           (λ st _, (st.1 = window t0 ∨ st.1 = reverse (window t0))
                    ∧ has_shape n_frames n_views st.2)).
  { split; [by left|done]. }
  intros step [fi lm1] w1 _ [Hfi Hlm1]. simpl in Hfi, Hlm1.
  eapply wp_mono.
  { apply dense_step_ok; try done.
    - destruct Hfi as [->| ->];
        [|rewrite length_reverse]; apply window_length.
    - intros t Ht.
      assert (t ∈ window t0) as Hw.
      { destruct Hfi as [->| ->]; [done|by apply elem_of_reverse]. }
      apply elem_of_window in Hw. lia.
    - intros t v Hhead Hv. destruct Hfi as [->| ->].
      + rewrite window_eq in Hhead. simplify_eq/=. by apply Hrow4.
      + rewrite reverse_involutive, window_eq in Hhead.
        simplify_eq/=. by apply Hrow0. }
  cbv beta. intros [fi' lm'] w' [Hfi' Hlm']. simpl in *. split; [|done].
  destruct Hfi as [->| ->]; [by right|left].
  by rewrite Hfi', reverse_involutive.
Qed.

(** *** Decoding and committing a window (lines 214-218) *)

Lemma decoded_into_iff model lm (S S' : nat → nat → Prop) g g' :
  (∀ t v, S t v ↔ S' t v) →
  decoded_into model lm S g g' → decoded_into model lm S' g g'.
Proof.
  intros Hiff Hdec t v. destruct (Hdec t v) as (Hs & Hin & Hout).
  split; [done|]. split.
  - intros HS. by apply Hin, Hiff.
  - intros HS. apply Hout. by rewrite Hiff.
Qed.

Lemma decoded_into_refl model lm g :
  decoded_into model lm (λ _ _, False) g g.
Proof. intros t v. by split; [|split]. Qed.

(** One more slot decoded. *)
Lemma decoded_into_update model lm (S : nat → nat → Prop) g g1 g2 t v z :
  decoded_into model lm S g g1 →
  slot lm t v = Some z →
  is_Some (slot g1 t v) →
  is_update g1 t v (Some (rescale (decode_latents model z T))) g2 →
  decoded_into model lm (λ t' v', S t' v' ∨ (t' = t ∧ v' = v)) g g2.
Proof.
  intros Hdec Hz Hsome Hupd t' v'.
  destruct (Hdec t' v') as (Hs & Hin & Hout). split; [|split].
  - by rewrite (is_update_is_Some _ _ _ _ _ _ _ Hsome Hupd).
  - intros HS. rewrite Hupd. case_decide as Heq.
    + destruct Heq as [-> ->]. by exists z.
    + destruct HS as [HS|[-> ->]]; [by apply Hin|].
      by destruct Heq.
  - intros HS. rewrite Hupd. rewrite decide_False by naive_solver.
    apply Hout. naive_solver.
Qed.

Lemma decode_commit_spec E model frame_indices lm g w :
  E ∨ (has_shape n_frames n_views g ∧ has_shape n_frames n_views lm
       ∧ ∀ t, t ∈ frame_indices → t < n_frames) →
  wp E (decode_commit model frame_indices lm g) w
     (λ g' w', w' = w ∧
        decoded_into model lm
          (λ t v, t ∈ frame_indices ∧ t ≠ 0 ∧ v ∈ view_indices) g g').
Proof.
  intros Hok. unfold decode_commit. eapply wp_mono.
  { apply (wp_for_each E _
      (λ pre g' w', w' = w ∧
         decoded_into model lm
           (λ t v, t ∈ pre ∧ t ≠ 0 ∧ v ∈ view_indices) g g')).
    { split; [done|]. eapply decoded_into_iff; [|apply decoded_into_refl].
      intros t v. rewrite elem_of_nil. naive_solver. }
    intros pre t g1 w1 [post Hl] [-> Hdec1].
    apply elem_of_split_middle in Hl as Ht.
    eapply wp_mono.
    { apply (wp_for_each E _
        (λ pre' g' w', w' = w ∧
           decoded_into model lm
             (λ t' v, (t' ∈ pre ∧ t' ≠ 0 ∧ v ∈ view_indices)
                      ∨ (t' = t ∧ t ≠ 0 ∧ v ∈ pre')) g g')).
      { split; [done|]. eapply decoded_into_iff; [|done].
        intros t' v. rewrite elem_of_nil. naive_solver. }
      intros pre' v g2 w2 [post' Hl'] [-> Hdec2].
      apply elem_of_split_middle in Hl' as Hv.
      case_decide as Hguard.
      - apply wp_bind, wp_get2.
        destruct (slot lm t v) as [z|] eqn:Hz.
        + apply wp_set2.
          destruct (slot g2 t v) as [cur|] eqn:Hcur.
          * intros g3 Hupd. split; [done|].
            eapply decoded_into_iff;
              [|eapply decoded_into_update; [exact Hdec2|exact Hz| |done]].
            -- intros t' v'. cbv beta. rewrite elem_of_app.
               rewrite list_elem_of_singleton. naive_solver.
            -- by rewrite Hcur.
          * destruct Hok as [?|(Hg & _ & Hfi)]; [done|]. exfalso.
            destruct (Hdec2 t v) as (Hsome & _ & _).
            rewrite Hcur in Hsome.
            apply elem_of_view_indices in Hv. unfold V in Hv.
            destruct (proj2 Hsome) as [? ?]; [|done].
            apply Hg. split; [by apply Hfi|unfold n_views, V; lia].
        + destruct Hok as [?|(_ & Hlm & Hfi)]; [done|]. exfalso.
          apply elem_of_view_indices in Hv. unfold V in Hv.
          destruct (proj2 (Hlm t v)) as [? ?]; [|congruence].
          split; [by apply Hfi|unfold n_views, V; lia].
      - apply wp_ret. split; [done|]. eapply decoded_into_iff; [|done].
        intros t' v'. cbv beta. rewrite elem_of_app.
        rewrite list_elem_of_singleton.
        apply elem_of_view_indices in Hv. split; [naive_solver|].
        intros [?|(-> & Hne & [?| ->])]; [naive_solver|naive_solver|].
        destruct Hguard. split; [done|lia]. }
    cbv beta. intros g2 w2 [-> Hdec2]. split; [done|].
    eapply decoded_into_iff; [|done]. intros t' v'. cbv beta.
    rewrite elem_of_app, list_elem_of_singleton. naive_solver. }
  cbv beta. by intros g' w' [-> Hdec].
Qed.

Lemma decoded_into_shape model lm S g g' rows cols :
  decoded_into model lm S g g' → has_shape rows cols g →
  has_shape rows cols g'.
Proof.
  intros Hdec Hshape t v. destruct (Hdec t v) as (Hs & _ & _).
  by rewrite Hs.
Qed.

Lemma decoded_into_written model lm (S : nat → nat → Prop) g g' t v :
  decoded_into model lm S g g' → S t v → filled g' t v.
Proof.
  intros Hdec HS. destruct (Hdec t v) as (_ & Hin & _).
  destruct (Hin HS) as (z & _ & Hz). by eexists.
Qed.

Lemma decoded_into_filled model lm (S : nat → nat → Prop) g g' t v :
  decoded_into model lm S g g' → (S t v ∨ ¬ S t v) →
  filled g t v → filled g' t v.
Proof.
  intros Hdec [HS|HS] Hfilled; [by eapply decoded_into_written|].
  destruct (Hdec t v) as (_ & _ & Hout). unfold filled.
  by rewrite (Hout HS).
Qed.

Lemma in_window_dec t0 t v :
  (t ∈ window t0 ∧ t ≠ 0 ∧ v ∈ view_indices)
  ∨ ¬ (t ∈ window t0 ∧ t ≠ 0 ∧ v ∈ view_indices).
Proof.
  destruct (decide (t ∈ window t0 ∧ t ≠ 0 ∧ v ∈ view_indices)); auto.
Qed.

Lemma dense_window_ok vd model sd steps polars_rad azimuths_rad t0 g w :
  well_sized O → vd_T vd = T * V →
  length polars_rad = n_views_sv3d → length azimuths_rad = n_views_sv3d →
  has_shape n_frames n_views g →
  (∀ t, t < n_frames → filled g t 0) →
  t0 + 4 < n_frames →
  (∀ v, v ∈ view_indices → filled g t0 v) →
  (∀ v, v ∈ view_indices → filled g (t0 + 4) v) →
  wp False (dense_window vd model sd steps polars_rad azimuths_rad t0 g) w
     (λ g' _, ∃ lm,
        decoded_into model lm
          (λ t v, t ∈ window t0 ∧ t ≠ 0 ∧ v ∈ view_indices) g g').
Proof.
  intros Hsized HT Hp Ha Hshape Hcol Ht0 Hrow0 Hrow4. unfold dense_window.
  apply wp_bind. eapply wp_mono; [apply torch_randn_spec|].
  cbv beta. intros lm w1 (Hlm & _ & _).
  apply wp_bind. eapply wp_mono; [by apply dense_steps_ok|].
  cbv beta. intros [fi lm'] w2 [Hfi Hlm']. simpl in Hfi, Hlm'.
  eapply wp_mono.
  { apply (decode_commit_spec False). right. split; [done|].
    split; [done|]. intros t Ht.
    assert (t ∈ window t0) as Hw.
    { destruct Hfi as [->| ->]; [done|by apply elem_of_reverse]. }
    apply elem_of_window in Hw. lia. }
  cbv beta. intros g' w3 [_ Hdec]. exists lm'.
  eapply decoded_into_iff; [|done]. intros t v. cbv beta.
  destruct Hfi as [->| ->]; [done|]. by rewrite elem_of_reverse.
Qed.

Lemma window_starts_rows t0 :
  t0 ∈ window_starts →
  (t0 = 0 ∨ t0 ∈ anchor_frame_indices)
  ∧ t0 + 4 ∈ anchor_frame_indices ∧ t0 + 4 < n_frames.
Proof.
  assert (Forall (λ t0, (t0 = 0 ∨ t0 ∈ anchor_frame_indices)
                        ∧ t0 + 4 ∈ anchor_frame_indices
                        ∧ t0 + 4 < n_frames) window_starts) as Hall.
  { apply (bool_decide_unpack _). by vm_compute. }
  intros Ht0. exact (proj1 (Forall_forall _ _) Hall t0 Ht0).
Qed.

Lemma windows_cover t :
  1 ≤ t < n_frames → ∃ t0, t0 ∈ window_starts ∧ t ∈ window t0.
Proof.
  assert (Forall (λ t, Exists (λ t0, t ∈ window t0) window_starts)
                 (seq 1 (n_frames - 1))) as Hall.
  { apply (bool_decide_unpack _). by vm_compute. }
  intros Ht. rewrite Forall_forall in Hall.
  assert (t ∈ seq 1 (n_frames - 1)) as Hin'
    by (apply elem_of_seq; unfold n_frames in *; lia).
  destruct (proj1 (Exists_exists _ _) (Hall t Hin'))
    as (t0 & Ht0 & Hin).
  by exists t0.
Qed.

Lemma dense_pass_ok vd model sd steps polars_rad azimuths_rad g w :
  well_sized O → vd_T vd = T * V →
  length polars_rad = n_views_sv3d → length azimuths_rad = n_views_sv3d →
  has_shape n_frames n_views g →
  (∀ t, t < n_frames → filled g t 0) →
  (∀ v, v < n_views → filled g 0 v) →
  (∀ t v, t ∈ anchor_frame_indices → v ∈ view_indices → filled g t v) →
  wp False (dense_pass vd model sd steps polars_rad azimuths_rad g) w
     (λ g' _, has_shape n_frames n_views g' ∧ fully_filled g').
Proof.
  intros Hsized HT Hp Ha Hshape Hcol Hrow Hanchor. unfold dense_pass.
  eapply wp_mono.
  { apply (wp_for_each False _
      (λ pre g' _, has_shape n_frames n_views g'
         ∧ (∀ t v, filled g t v → filled g' t v)
         ∧ (∀ t0 t v, t0 ∈ pre → t ∈ window t0 → t ≠ 0 →
                      v ∈ view_indices → filled g' t v))).
    { split; [done|]. split; [done|]. intros t0 t v Hin.
      by apply elem_of_nil in Hin. }
    intros pre t0 g1 w1 [post Hl] (Hshape1 & Hmono1 & Hdone1).
    apply elem_of_split_middle, window_starts_rows in Hl
      as (Hrow0 & Hrow4 & Hlt).
    eapply wp_mono.
    { apply dense_window_ok; try done.
      - intros t Ht. by apply Hmono1, Hcol.
      - intros v Hv. apply Hmono1. destruct Hrow0 as [->|Hin].
        + apply Hrow. apply elem_of_view_indices in Hv.
          unfold n_views. lia.
        + by apply Hanchor.
      - intros v Hv. by apply Hmono1, Hanchor. }
    cbv beta. intros g2 w2 [lm Hdec]. split; [|split].
    - by eapply decoded_into_shape.
    - intros t v Hf. eapply decoded_into_filled;
        [exact Hdec|apply in_window_dec|]. by apply Hmono1.
    - intros t0' t v [Hin|Hin]%elem_of_app Ht Hne Hv.
      + eapply decoded_into_filled; [exact Hdec|apply in_window_dec|].
        by eapply Hdone1.
      + apply list_elem_of_singleton in Hin as ->.
        by eapply decoded_into_written. }
  cbv beta. intros g' w' (Hshape' & Hmono & Hdone). split; [done|].
  intros t v Ht Hv.
  destruct (decide (v = 0)) as [->|Hv0]; [by apply Hmono, Hcol|].
  destruct (decide (t = 0)) as [->|Ht0]; [by apply Hmono, Hrow|].
  destruct (windows_cover t) as (t0 & Hin & Hw); [lia|].
  eapply Hdone; [done..|]. apply elem_of_view_indices.
  unfold n_views in Hv. lia.
Qed.

(** *** Initialisation *)

Lemma init_grid_spec E (images_t0 images_v0 : list Image) w :
  E ∨ (length images_t0 = n_views_sv3d ∧ length images_v0 = n_frames) →
  wp E (init_grid images_t0 images_v0) w
     (λ g w', w' = w ∧ has_shape n_frames n_views g
        ∧ (∀ t, t < n_frames →
                ∃ x, images_v0 !! t = Some x ∧ slot g t 0 = Some (Some x))
        ∧ (∀ v, v < n_views → filled g 0 v)
        ∧ (∀ t v x, slot g t v = Some (Some x) → t = 0 ∨ v = 0)).
Proof.
  intros Hok.
  do 20 (destruct images_t0 as [|? images_t0];
         [eapply wp_raised;
          [reflexivity|destruct Hok as [?|[? ?]]; [done|discriminate]]|]).
  do 21 (destruct images_v0 as [|? images_v0];
         [eapply wp_raised;
          [reflexivity|destruct Hok as [?|[? ?]]; [done|discriminate]]|]).
  eapply wp_returned; [reflexivity|]. split; [done|].
  split; [|split; [|split]].
  - apply has_shape_of_lengths; [reflexivity|]. repeat constructor.
  - intros t Ht.
    do 21 (destruct t as [|t]; [eexists; split; reflexivity|]).
    unfold n_frames in Ht. lia.
  - intros v Hv.
    do 9 (destruct v as [|v]; [eexists; reflexivity|]).
    unfold n_views, V in Hv. lia.
  - intros t v x Hs. destruct t as [|t]; [by left|].
    destruct v as [|v]; [by right|]. exfalso.
    do 20 (destruct t as [|t];
           [do 8 (destruct v as [|v]; [discriminate Hs|]);
            by destruct v|]).
    by destruct t.
Qed.

(** *** The run up to the end of the dense pass *)

Lemma length_roll {A} shift (l : list A) : length (roll shift l) = length l.
Proof.
  unfold roll. rewrite length_app, length_drop, length_take. lia.
Qed.

Lemma filled_row g t row :
  has_shape n_frames n_views g → (∀ v, v < n_views → filled g t v) →
  t < n_frames → g !! t = Some row → Forall is_Some row.
Proof.
  intros Hshape Hfilled Ht Hrow. apply Forall_lookup. intros v x Hx.
  destruct (has_shape_row _ _ g t Hshape) as (row' & Hrow' & Hlen);
    [unfold n_views, V; lia|done|].
  simplify_eq. apply lookup_lt_Some in Hx as Hv. rewrite Hlen in Hv.
  destruct (Hfilled v Hv) as [y Hy].
  rewrite (slot_lookup _ _ _ _ Hrow), Hx in Hy. naive_solver.
Qed.

Lemma save_video_ok file frames w :
  Forall is_Some frames →
  wp False (save_video file frames) w (λ _ _, True).
Proof.
  intros Hframes. unfold save_video. apply wp_bind, wp_cat; [|by right].
  intros ys _. by apply wp_bind, wp_log, wp_write_file.
Qed.

Lemma sample_grid_ok (a : Args Float) w :
  well_sized O → valid_angles a →
  wp False (sample_grid a) w
     (λ r _, has_shape n_frames n_views r.2 ∧ fully_filled r.2).
Proof.
  intros Hsized Hangles. unfold sample_grid.
  apply wp_bind, wp_torch_manual_seed.
  apply wp_bind. eapply wp_mono; [by apply camera_viewpoints_ok|].
  cbv beta. intros [polars_rad azimuths_rad] w1 (-> & Hp & Ha).
  simpl in Hp, Ha. cbv beta iota.
  pose proof (read_video_size Hsized a n_frames Dims.W Dims.H) as Hv0.
  apply wp_bind, wp_index.
  destruct (lookup_lt_is_Some_2 (read_video a n_frames Dims.W Dims.H) 0)
    as [first ->]; [rewrite Hv0; unfold n_frames; lia|].
  apply wp_bind. unfold call_sample_sv3d.
  apply wp_bind, wp_log, wp_with_rng.
  match goal with
  | |- wp _ _ ?w0 _ => generalize w0
  end.
  match goal with
  | |- context [sample_sv3d ?a ?x ?n ?ps ?azs ?r] =>
      pose proof (sample_sv3d_size Hsized a x n ps azs r) as Ht0;
      generalize dependent (sample_sv3d a x n ps azs r).1
  end.
  intros images_t0 Ht0 w2.
  apply wp_bind. eapply wp_mono.
  { apply (init_grid_spec False). right. by rewrite length_roll. }
  cbv beta. intros g0 w3 (-> & Hshape0 & Hcol0 & Hrow0 & _).
  assert (∀ t, t < n_frames → filled g0 t 0) as Hcol.
  { intros t Ht. destruct (Hcol0 t Ht) as (x & _ & Hx). by exists x. }
  apply wp_bind, wp_glob_mp4, wp_bind, wp_index.
  destruct (has_shape_row _ _ g0 0 Hshape0) as (row0 & Hr0 & _);
    [unfold n_views, V; lia|unfold n_frames; lia|].
  rewrite Hr0.
  apply wp_bind. eapply wp_mono.
  { apply save_video_ok. eapply filled_row; [done|done| |done].
    unfold n_frames. lia. }
  cbv beta. intros _ w3 _.
  apply wp_bind. eapply wp_mono.
  { apply (read_filled g0 (λ t, (t, 0))). intros t Ht%elem_of_seq.
    simpl. apply Hcol. lia. }
  cbv beta. intros col0 w4 (-> & Hcol0' & _).
  apply wp_bind. eapply wp_mono; [by apply save_video_ok|].
  cbv beta. intros _ w4 _.
  apply wp_bind. eapply wp_mono; [by apply anchor_pass_ok|].
  cbv beta. intros g1 w5 [Hext Hanchor].
  apply wp_bind. eapply wp_mono.
  { apply dense_pass_ok; try done.
    - by eapply extends_shape.
    - intros t Ht. by eapply extends_filled, Hcol.
    - intros v Hv. by eapply extends_filled, Hrow0. }
  cbv beta. intros g2 w6 [Hshape2 Hfull]. by apply wp_ret.
Qed.

End Total.

(** ** A run on the stand-in *)

Lemma stub_well_sized : well_sized Stub.oracle.
Proof.
  split; intros; simpl.
  - by rewrite length_fmap, length_seq.
  - by rewrite length_fmap, length_seq.
  - by rewrite length_fmap, length_seq.
  - by rewrite length_fmap.
Qed.

(** ** What every completed run satisfies *)

Section Partial.
Context {Float Image Latent Model RNG : Type}.
Context `{O : !Oracle Float Image Latent Model RNG}.
Local Abbreviation M := (M Float Image Latent RNG).
Local Abbreviation World := (World Float Image Latent RNG).
Local Abbreviation Grid := (list (list (option Image))).
Implicit Types (w : World) (g : Grid) (lm : list (list Latent)).

(** Under partial correctness the first action of a sequence may be
    skipped when nothing is needed from it. *)
Lemma wp_bind_any {A B} (m : M A) (k : A → M B) w (Q : B → World → Prop) :
  (∀ a w', wp True (k a) w' Q) → wp True (m ≫= k) w Q.
Proof.
  intros Hk. apply wp_bind. unfold wp at 1.
  destruct (m w) as [w' [e|a]]; [done|apply Hk].
Qed.

(** *** The traversal order *)

Lemma dense_step_frames vd model sd polars_rad azimuths_rad g step
    frame_indices lm w :
  wp True (dense_step vd model sd polars_rad azimuths_rad g step
                      (frame_indices, lm)) w
     (λ st _, st.1 = reverse frame_indices).
Proof.
  unfold dense_step. cbv beta iota zeta.
  do 6 (apply wp_bind_any; intros ? ?). by apply wp_ret.
Qed.

Lemma dense_steps_frames vd model sd polars_rad azimuths_rad g steps
    frame_indices lm w :
  wp True (dense_steps vd model sd polars_rad azimuths_rad g steps
                       (frame_indices, lm)) w
     (λ st _, st.1 = Nat.iter steps reverse frame_indices).
Proof.
  unfold dense_steps. eapply wp_mono.
  { apply (wp_for_each True _
      (λ pre st _, st.1 = Nat.iter (length pre) reverse frame_indices)).
    { done. }
    intros pre step [fi lm1] w1 _ Hfi. simpl in Hfi. subst fi.
    eapply wp_mono; [apply dense_step_frames|].
    cbv beta. intros st w2 ->. rewrite length_app. simpl.
    by rewrite Nat.add_1_r. }
  cbv beta. intros st w' ->. by rewrite length_seq.
Qed.

Lemma iter_reverse_even k (l : list nat) :
  Nat.iter k reverse l = if Nat.even k then l else reverse l.
Proof.
  induction k as [|k IH]; [done|].
  rewrite Nat.even_succ, <- Nat.negb_even. simpl. rewrite IH.
  destruct (Nat.even k); simpl; [done|apply reverse_involutive].
Qed.

Lemma elem_of_iter_reverse k (l : list nat) t :
  t ∈ Nat.iter k reverse l ↔ t ∈ l.
Proof.
  rewrite iter_reverse_even. destruct (Nat.even k); [done|].
  apply elem_of_reverse.
Qed.

(** *** The passes *)

Lemma anchor_pass_extends vd model sd polars_rad azimuths_rad g w :
  wp True (anchor_pass vd model sd polars_rad azimuths_rad g) w
     (λ g' _, extends g g').
Proof.
  unfold anchor_pass. do 3 (apply wp_bind_any; intros ? ?).
  eapply wp_mono; [apply anchor_commit_spec; by left|].
  cbv beta. by intros g' wf (_ & Hext & _).
Qed.

Lemma dense_window_decoded vd model sd steps polars_rad azimuths_rad
    t0 g w :
  wp True (dense_window vd model sd steps polars_rad azimuths_rad t0 g) w
     (λ g' _, ∃ lm,
        decoded_into model lm
          (λ t v, t ∈ window t0 ∧ t ≠ 0 ∧ v ∈ view_indices) g g').
Proof.
  unfold dense_window. apply wp_bind_any. intros lm w1.
  apply wp_bind. eapply wp_mono; [apply dense_steps_frames|].
  cbv beta. intros [fi lm'] w2 Hfi. simpl in Hfi. subst fi.
  eapply wp_mono; [apply decode_commit_spec; by left|].
  cbv beta. intros g' w3 [_ Hdec]. exists lm'.
  eapply decoded_into_iff; [|done]. intros t v. cbv beta.
  by rewrite elem_of_iter_reverse.
Qed.

(** The dense pass leaves frame 0 and view 0 alone. *)
Lemma dense_pass_frame vd model sd steps polars_rad azimuths_rad g w :
  wp True (dense_pass vd model sd steps polars_rad azimuths_rad g) w
     (λ g' _, ∀ t v, t = 0 ∨ v = 0 → slot g' t v = slot g t v).
Proof.
  unfold dense_pass.
  apply (wp_for_each_inv True _
           (λ g' _, ∀ t v, t = 0 ∨ v = 0 → slot g' t v = slot g t v));
    [done|].
  intros t0 g1 w1 _ Hframe.
  eapply wp_mono; [apply dense_window_decoded|].
  cbv beta. intros g2 w2 [lm Hdec] t v Htv.
  destruct (Hdec t v) as (_ & _ & Hout). rewrite Hout; [by apply Hframe|].
  intros (_ & Ht & Hv%elem_of_view_indices). lia.
Qed.

End Partial.

(** ** Actions that write no video *)

Section Quiet.
Context {Float Image Latent Model RNG : Type}.
Context `{O : !Oracle Float Image Latent Model RNG}.
Local Abbreviation M := (M Float Image Latent RNG).
Local Abbreviation World := (World Float Image Latent RNG).
Local Abbreviation Grid := (list (list (option Image))).
Implicit Types (w : World) (g : Grid) (lm : list (list Latent)).

Lemma same_io_refl w : same_io w w.
Proof. by split. Qed.

Lemma same_io_trans w1 w2 w3 : same_io w1 w2 → same_io w2 w3 → same_io w1 w3.
Proof. intros [? ?] [? ?]. split; congruence. Qed.

Lemma quiet_ret {A} (x : A) : quiet (ret x : M A).
Proof. intros w. apply same_io_refl. Qed.

Lemma quiet_raise {A} e : quiet (raise e : M A).
Proof. intros w. apply same_io_refl. Qed.

Lemma quiet_bind {A B} (m : M A) (k : A → M B) :
  quiet m → (∀ x, quiet (k x)) → quiet (m ≫= k).
Proof.
  intros Hm Hk w. unfold mbind, M_bind, bind. specialize (Hm w).
  destruct (m w) as [w1 [e|x]]; [done|].
  eapply same_io_trans; [exact Hm|apply Hk].
Qed.

Lemma quiet_for_each {A S} (l : list A) (body : A → S → M S) s :
  (∀ x s, quiet (body x s)) → quiet (for_each l body s).
Proof.
  intros Hbody. revert s. induction l as [|x l IH]; intros s; simpl.
  - apply quiet_ret.
  - apply quiet_bind; [apply Hbody|apply IH].
Qed.

Lemma quiet_for_list {A B} (f : A → M B) (l : list A) :
  (∀ x, quiet (f x)) → quiet (for_list f l).
Proof.
  intros Hf. induction l as [|x l IH]; simpl.
  - apply quiet_ret.
  - apply quiet_bind; [apply Hf|]. intros y.
    apply quiet_bind; [apply IH|]. intros ys. apply quiet_ret.
Qed.

Lemma quiet_assert b msg : quiet (assert b msg : M unit).
Proof. destruct b; [apply quiet_ret|apply quiet_raise]. Qed.

Lemma quiet_index {A} (l : list A) i : quiet (index l i : M A).
Proof.
  unfold index. destruct (l !! i); [apply quiet_ret|apply quiet_raise].
Qed.

Lemma quiet_index_last {A} (l : list A) : quiet (index_last l : M A).
Proof.
  unfold index_last. destruct (l !! _); [apply quiet_ret|apply quiet_raise].
Qed.

Lemma quiet_not_none {A} (o : option A) : quiet (not_none o : M A).
Proof. destruct o; [apply quiet_ret|apply quiet_raise]. Qed.

Lemma quiet_view {A} rows cols (l : list A) :
  quiet (view rows cols l : M (list (list A))).
Proof. unfold view. case_decide; [apply quiet_ret|apply quiet_raise]. Qed.

Lemma quiet_get2 {A} (m : list (list A)) i j : quiet (get2 m i j : M A).
Proof.
  unfold get2. apply quiet_bind; [apply quiet_index|].
  intros row. apply quiet_index.
Qed.

Lemma quiet_set2 {A} (m : list (list A)) i j x :
  quiet (set2 m i j x : M (list (list A))).
Proof.
  unfold set2. apply quiet_bind; [apply quiet_index|]. intros row.
  case_decide; [apply quiet_ret|apply quiet_raise].
Qed.

Lemma quiet_cat xs : quiet (cat xs : M (list Image)).
Proof. apply quiet_for_list. intros x. apply quiet_not_none. Qed.

Lemma quiet_with_rng {A} (f : RNG → A * RNG) : quiet (with_rng f : M A).
Proof. intros w. unfold with_rng. by destruct (f (rng w)). Qed.

Lemma quiet_torch_manual_seed sd : quiet (torch_manual_seed sd : M unit).
Proof. by intros w. Qed.

Lemma quiet_glob_mp4 : quiet (glob_mp4 : M nat).
Proof. by intros w. Qed.

Lemma quiet_log_diffusion (c : Call Float Image Latent) :
  is_diffusion c = true → quiet (log c : M unit).
Proof.
  intros Hc w. split; [done|]. simpl. unfold saved_files.
  rewrite omap_app. simpl. destruct c; [..|done]; by rewrite app_nil_r.
Qed.

(** Composite actions are handled by following their structure. *)
Ltac quiet_step :=
  lazymatch goal with
  | |- quiet (_ ≫= _) => apply quiet_bind; [|intros ?]
  | |- quiet (ret _) => apply quiet_ret
  | |- quiet (raise _) => apply quiet_raise
  | |- quiet (for_each _ _ _) => apply quiet_for_each; intros ? ?
  | |- quiet (for_list _ _) => apply quiet_for_list; intros ?
  | |- quiet (assert _ _) => apply quiet_assert
  | |- quiet (index _ _) => apply quiet_index
  | |- quiet (index_last _) => apply quiet_index_last
  | |- quiet (not_none _) => apply quiet_not_none
  | |- quiet (view _ _ _) => apply quiet_view
  | |- quiet (get2 _ _ _) => apply quiet_get2
  | |- quiet (set2 _ _ _ _) => apply quiet_set2
  | |- quiet (cat _) => apply quiet_cat
  | |- quiet (with_rng _) => apply quiet_with_rng
  | |- quiet (torch_manual_seed _) => apply quiet_torch_manual_seed
  | |- quiet glob_mp4 => apply quiet_glob_mp4
  | |- quiet (log _) => by apply quiet_log_diffusion
  | |- quiet (match ?x with _ => _ end) => destruct x
  | |- quiet ((match ?x with _ => _ end) _) => destruct x
  | |- quiet (if ?x then _ else _) => destruct x
  | |- quiet (let '(_, _) := ?x in _) => destruct x
  end.
Ltac quiet := repeat (cbv beta; quiet_step).








(** *** The videos of a run *)






End Quiet.

(** ** File names *)

Lemma append_inj_r (p s1 s2 : string) : p +:+ s1 = p +:+ s2 → s1 = s2.
Proof.
  induction p as [|c p IH]; simpl; [done|]. intros Heq. apply IH.
  by injection Heq.
Qed.


(** ** Two runs of the same schedule *)

Section Deterministic.
Context {Float Image Latent Model RNG : Type}.
Context `{O : !Oracle Float Image Latent Model RNG}.
Local Abbreviation M := (M Float Image Latent RNG).
Local Abbreviation World := (World Float Image Latent RNG).
Local Abbreviation Grid := (list (list (option Image))).
Implicit Types (w : World) (g : Grid) (lm : list (list Latent)).

(** [m] behaves the same from any two worlds that are alike. *)
Local Abbreviation det m := (related alike eq m m).

Lemma related_ret {A B} (R : A → B → Prop) x1 x2 :
  R x1 x2 → related alike R (ret x1 : M A) (ret x2 : M B).
Proof. by intros HR w1 w2 Hw. Qed.

Lemma related_raise {A B} (R : A → B → Prop) e :
  related alike R (raise e : M A) (raise e : M B).
Proof. by intros w1 w2 Hw. Qed.

Lemma related_bind {A1 A2 B1 B2} P (R : A1 → A2 → Prop)
    (R' : B1 → B2 → Prop) (m1 : M A1) (m2 : M A2) k1 k2 :
  related P R m1 m2 →
  (∀ x1 x2, R x1 x2 → related alike R' (k1 x1) (k2 x2)) →
  related P R' (m1 ≫= k1) (m2 ≫= k2).
Proof.
  intros Hm Hk w1 w2 Hw. unfold mbind, M_bind, bind.
  specialize (Hm w1 w2 Hw).
  destruct (m1 w1) as [w1' [e1|x1]], (m2 w2) as [w2' [e2|x2]]; try done.
  destruct Hm as [Hw' HR]. by apply Hk.
Qed.

Lemma det_bind {A B1 B2} P (R' : B1 → B2 → Prop) (m : M A) k1 k2 :
  related P eq m m →
  (∀ x, related alike R' (k1 x) (k2 x)) →
  related P R' (m ≫= k1) (m ≫= k2).
Proof.
  intros Hm Hk. eapply related_bind; [exact Hm|]. intros x1 x2 <-. apply Hk.
Qed.

Lemma det_for_each {A S} (l : list A) (body1 body2 : A → S → M S) s :
  (∀ x s, related alike eq (body1 x s) (body2 x s)) →
  related alike eq (for_each l body1 s) (for_each l body2 s).
Proof.
  intros Hbody. revert s. induction l as [|x l IH]; intros s; simpl.
  - by apply related_ret.
  - eapply related_bind; [apply Hbody|]. intros s1 s2 <-. apply IH.
Qed.

Lemma det_for_list {A B} (f : A → M B) (l : list A) :
  (∀ x, det (f x)) → det (for_list f l).
Proof.
  intros Hf. induction l as [|x l IH]; simpl.
  - by apply related_ret.
  - apply det_bind; [apply Hf|]. intros y.
    apply det_bind; [apply IH|]. intros ys. by apply related_ret.
Qed.

Lemma det_assert b msg : det (assert b msg : M unit).
Proof. destruct b; [by apply related_ret|apply related_raise]. Qed.

Lemma det_index {A} (l : list A) i : det (index l i : M A).
Proof.
  unfold index. destruct (l !! i); [by apply related_ret|apply related_raise].
Qed.

Lemma det_index_last {A} (l : list A) : det (index_last l : M A).
Proof.
  unfold index_last.
  destruct (l !! _); [by apply related_ret|apply related_raise].
Qed.

Lemma det_not_none {A} (o : option A) : det (not_none o : M A).
Proof. destruct o; [by apply related_ret|apply related_raise]. Qed.

Lemma det_view {A} rows cols (l : list A) :
  det (view rows cols l : M (list (list A))).
Proof.
  unfold view. case_decide; [by apply related_ret|apply related_raise].
Qed.

Lemma det_get2 {A} (m : list (list A)) i j : det (get2 m i j : M A).
Proof.
  unfold get2. apply det_bind; [apply det_index|].
  intros row. apply det_index.
Qed.

Lemma det_set2 {A} (m : list (list A)) i j x :
  det (set2 m i j x : M (list (list A))).
Proof.
  unfold set2. apply det_bind; [apply det_index|]. intros row.
  case_decide; [by apply related_ret|apply related_raise].
Qed.

Lemma det_cat xs : det (cat xs : M (list Image)).
Proof. apply det_for_list. intros x. apply det_not_none. Qed.

Lemma det_with_rng {A} (f : RNG → A * RNG) : det (with_rng f : M A).
Proof.
  intros w1 w2 [Hrng Hcalls]. unfold with_rng. rewrite Hrng.
  by destruct (f (rng w2)).
Qed.

Lemma related_log (c1 c2 : Call Float Image Latent) :
  erase c1 = erase c2 → related alike eq (log c1 : M unit) (log c2).
Proof.
  intros Hc w1 w2 [Hrng Hcalls]. simpl. split; [|done]. split; [done|].
  simpl. by rewrite !fmap_app, Hcalls, !list_fmap_singleton, Hc.
Qed.

Lemma related_write_file file1 file2 :
  related alike eq (write_file file1 : M unit) (write_file file2).
Proof. by intros w1 w2 [Hrng Hcalls]. Qed.

Lemma related_glob_mp4 :
  related alike (λ _ _, True) (glob_mp4 : M nat) glob_mp4.
Proof. by intros w1 w2 Hw. Qed.

(** Seeding the generator makes worlds alike whatever their generator
    states were. *)
Lemma related_torch_manual_seed sd :
  related (λ w1 w2, erase <$> calls w1 = erase <$> calls w2) eq
          (torch_manual_seed sd : M unit) (torch_manual_seed sd).
Proof. by intros w1 w2 Hcalls. Qed.

Lemma related_save_video file1 file2 frames :
  related alike eq (save_video file1 frames : M unit)
          (save_video file2 frames).
Proof.
  unfold save_video. apply det_bind; [apply det_cat|]. intros ys.
  eapply related_bind; [by apply (related_log (SaveVideo file1 ys)
                                              (SaveVideo file2 ys))|].
  intros _ _ _. apply related_write_file.
Qed.

Ltac det_step :=
  lazymatch goal with
  | |- related _ _ (_ ≫= _) (_ ≫= _) => apply det_bind; [|intros ?]
  | |- related _ _ (ret _) (ret _) => by apply related_ret
  | |- related _ _ (raise _) (raise _) => apply related_raise
  | |- related _ _ (for_each _ _ _) (for_each _ _ _) =>
      apply det_for_each; intros ? ?
  | |- related _ _ (for_list _ _) (for_list _ _) =>
      apply det_for_list; intros ?
  | |- related _ _ (assert _ _) _ => apply det_assert
  | |- related _ _ (index _ _) _ => apply det_index
  | |- related _ _ (index_last _) _ => apply det_index_last
  | |- related _ _ (not_none _) _ => apply det_not_none
  | |- related _ _ (view _ _ _) _ => apply det_view
  | |- related _ _ (get2 _ _ _) _ => apply det_get2
  | |- related _ _ (set2 _ _ _ _) _ => apply det_set2
  | |- related _ _ (cat _) _ => apply det_cat
  | |- related _ _ (with_rng _) _ => apply det_with_rng
  | |- related _ _ (log _) (log _) => by apply related_log
  | |- related _ _ (save_video _ _) (save_video _ _) =>
      apply related_save_video
  | |- related _ _ (match ?x with _ => _ end) _ => destruct x
  | |- related _ _ ((match ?x with _ => _ end) _) _ => destruct x
  end.
Ltac det := repeat (cbv beta; det_step).

Lemma det_camera_viewpoints a : det (camera_viewpoints a).
Proof. unfold camera_viewpoints. det. Qed.

Lemma det_call_sample_sv3d a image polars azims :
  det (call_sample_sv3d a image polars azims).
Proof. unfold call_sample_sv3d. det. Qed.

Lemma det_init_grid images_t0 images_v0 :
  det (init_grid images_t0 images_v0).
Proof. unfold init_grid. det. Qed.

Lemma det_conditioning polars_rad azimuths_rad g t0 frame_indices :
  det (conditioning polars_rad azimuths_rad g t0 frame_indices).
Proof. unfold conditioning, view_angles. det. Qed.

Lemma det_anchor_pass vd model sd polars_rad azimuths_rad g :
  det (anchor_pass vd model sd polars_rad azimuths_rad g).
Proof.
  unfold anchor_pass, call_run_img2vid, anchor_commit.
  apply det_bind; [apply det_conditioning|intros c]. det.
Qed.

Lemma det_dense_step vd model sd polars_rad azimuths_rad g step st :
  det (dense_step vd model sd polars_rad azimuths_rad g step st).
Proof.
  unfold dense_step, call_run_img2vid_per_step, gather, scatter.
  destruct st as [fi lm].
  apply det_bind; [apply det_index|intros t0].
  apply det_bind; [apply det_conditioning|intros c]. det.
Qed.

Lemma det_dense_pass vd model sd steps polars_rad azimuths_rad g :
  det (dense_pass vd model sd steps polars_rad azimuths_rad g).
Proof.
  unfold dense_pass. apply det_for_each. intros t0 g1.
  unfold dense_window, torch_randn, dense_steps, decode_commit.
  apply det_bind; [det|intros lm].
  apply det_bind.
  { apply det_for_each. intros step st. apply det_dense_step. }
  intros [fi lm']. det.
Qed.

(** The run up to the end of the dense pass: the run numbers may differ,
    the image matrices do not. *)
Lemma related_sample_grid a :
  related (λ w1 w2, erase <$> calls w1 = erase <$> calls w2)
          (λ r1 r2, r1.2 = r2.2) (sample_grid a) (sample_grid a).
Proof.
  unfold sample_grid.
  apply det_bind; [apply related_torch_manual_seed|intros _].
  apply det_bind; [apply det_camera_viewpoints|].
  intros [polars_rad azimuths_rad].
  apply det_bind; [apply det_index|intros first].
  apply det_bind; [apply det_call_sample_sv3d|intros images_t0].
  apply det_bind; [apply det_init_grid|intros g0].
  eapply related_bind; [apply related_glob_mp4|]. intros n1 n2 _.
  apply det_bind; [apply det_index|intros row0].
  eapply related_bind; [apply related_save_video|]. intros _ _ _.
  apply det_bind; [apply det_for_list; intros t; apply det_get2|].
  intros col0.
  eapply related_bind; [apply related_save_video|]. intros _ _ _.
  apply det_bind; [apply det_anchor_pass|intros g1].
  apply det_bind; [apply det_dense_pass|intros g2].
  by apply related_ret.
Qed.

Lemma related_save_outputs base_count1 base_count2 g :
  related alike eq (save_outputs base_count1 g : M unit)
          (save_outputs base_count2 g).
Proof.
  unfold save_outputs. eapply related_bind.
  { apply (det_for_each view_indices). intros v [].
    apply det_bind; [apply det_for_list; intros t; apply det_get2|].
    intros frames. apply related_save_video. }
  intros _ _ _.
  apply det_bind; [apply det_for_list; intros t; apply det_get2|].
  intros frames. apply related_save_video.
Qed.

Lemma related_sample a :
  related (λ w1 w2, erase <$> calls w1 = erase <$> calls w2) eq
          (sample a) (sample a).
Proof.
  unfold sample. eapply related_bind; [apply related_sample_grid|].
  intros [b1 g1] [b2 g2] Hg. simpl in Hg. subst g2.
  apply related_save_outputs.
Qed.

Lemma filter_diffusion_erase (cs : list (Call Float Image Latent)) :
  filter (λ c, is_diffusion c = true) (erase <$> cs)
  = filter (λ c, is_diffusion c = true) cs.
Proof.
  induction cs as [|c cs IH]; [done|]. rewrite fmap_cons.
  destruct c; simpl; rewrite ?filter_cons_True, ?filter_cons_False by done;
    by rewrite IH.
Qed.

Lemma saved_frames_erase (cs : list (Call Float Image Latent)) :
  saved_frames (erase <$> cs) = saved_frames cs.
Proof.
  induction cs as [|c cs IH]; [done|]. rewrite fmap_cons.
  destruct c; simpl; by rewrite IH.
Qed.

End Deterministic.

(** ** Angle lists that are not accepted *)

(** Whatever is wrong with the angle arguments, the run raises before it
    has issued any call. *)
Lemma invalid_angles_issue_no_call {Float Image Latent Model RNG}
    `{O : !Oracle Float Image Latent Model RNG}
    (a : Args Float) (w : World Float Image Latent RNG) :
  ¬ valid_angles a →
  ∃ w' e, sample a w = (w', inl e) ∧ calls w' = calls w.
Proof.
  intros Hinvalid.
  assert (∃ e, ∀ w1 : World Float Image Latent RNG,
            camera_viewpoints a w1 = (w1, inl e)) as [e Hcam].
  { unfold camera_viewpoints, valid_angles in *.
    destruct (elevations_deg a) as [x|l|].
    - destruct (azimuths_deg a) as [l'|]; [|by destruct Hinvalid].
      exists (AssertionError (azimuths_msg (length l'))). intros w1.
      unfold mbind, M_bind, bind, ret.
      rewrite bool_decide_true by (by rewrite length_replicate).
      unfold assert at 1. cbv beta iota. simpl default.
      rewrite bool_decide_false by naive_solver. reflexivity.
    - destruct (decide (length l = n_views_sv3d)) as [Hl|Hl].
      + destruct (azimuths_deg a) as [l'|]; [|by destruct Hinvalid].
        exists (AssertionError (azimuths_msg (length l'))). intros w1.
        unfold mbind, M_bind, bind, ret.
        rewrite bool_decide_true by done.
        unfold assert at 1. cbv beta iota. simpl default.
        rewrite bool_decide_false by naive_solver. reflexivity.
      + exists (AssertionError (elevations_msg (length l))). intros w1.
        unfold mbind, M_bind, bind, ret.
        rewrite bool_decide_false by done. reflexivity.
    - exists TypeError. intros w1. reflexivity. }
  exists (mkWorld (manual_seed (seed a)) (folder w) (calls w)), e.
  split; [|done].
  unfold sample, sample_grid, mbind, M_bind, bind, torch_manual_seed.
  by rewrite Hcam.
Qed.

(** * The claims *)

(** C6: with [n_frames = 21] and [T = 5] the anchor pass visits frames
    4, 8, 12, 16, 20 (stride [T - 1 = 4]) and the dense pass starts its
    windows at frames 0, 4, 8, 12, 16. *)
Theorem anchor_and_window_indices :
  T - 1 = 4 ∧
  anchor_frame_indices = [4; 8; 12; 16; 20] ∧
  window_starts = [0; 4; 8; 12; 16].
Proof. repeat split; reflexivity. Qed.

(** C5, as stated, fails: at frame 6 the code shows view 3, while
    [floor(6 / (21/9)) mod 9] is 2. *)
Lemma diag_view_differs_from_spec :
  diag_view 6 = 3 ∧ diag_view_spec 6 = 2%Z ∧
  ¬ (∀ t, t < n_frames → Z.of_nat (diag_view t) = diag_view_spec t).
Proof.
  split; [reflexivity|]. split; [reflexivity|].
  intros Hall. specialize (Hall 6). vm_compute in Hall.
  assert (3%Z = 2%Z) as Hbad by (apply Hall; lia). discriminate Hbad.
Qed.

(** C5, amended: the inner quotient is the integer quotient [21 // 9 = 2];
    the view shown at frame [t] is [(t // 2) mod 9], which runs through
    0,0,1,1,...,8,8 and wraps to 0,0,1 for the last three frames. *)
Theorem diag_view_integer_quotient :
  (∀ t, diag_view t = (t `div` (21 `div` 9)) `mod` 9) ∧
  (∀ t, diag_view t = (t `div` 2) `mod` 9) ∧
  diag_view <$> seq 0 n_frames
  = [0; 0; 1; 1; 2; 2; 3; 3; 4; 4; 5; 5; 6; 6; 7; 7; 8; 8; 0; 0; 1].
Proof. repeat split; reflexivity. Qed.

(** C1: for every valid configuration (collaborators that return batches
    of the documented sizes, angle lists of the accepted lengths) the run
    reaches the end of the dense pass, and then every slot [(t, v)] with
    [t < n_frames = 21] and [v < n_views = 9] of [img_matrix] holds an
    image. *)
Theorem grid_full_after_dense_pass {Float Image Latent Model RNG}
    `{O : !Oracle Float Image Latent Model RNG}
    (a : Args Float) (w : World Float Image Latent RNG) :
  well_sized O → valid_angles a →
  ∃ w' base_count g,
    sample_grid a w = (w', inr (base_count, g)) ∧
    ∀ t v, t < n_frames → v < n_views → ∃ x, slot g t v = Some (Some x).
Proof.
  intros Hsized Hangles.
  destruct (proj1 (wp_total _ _ _) (sample_grid_ok a w Hsized Hangles))
    as ([base_count g] & w' & Hrun & _ & Hfull).
  exists w', base_count, g. split; [done|]. exact Hfull.
Qed.

Lemma grid_full_after_dense_pass_witness :
  well_sized Stub.oracle ∧
  valid_angles (Stub.args 2 (ElevScalar 10%Z) None) ∧
  ∃ w' base_count g,
    sample_grid (Stub.args 2 (ElevScalar 10%Z) None) (Stub.world 7 ∅)
    = (w', inr (base_count, g)) ∧
    ∀ t v, t < n_frames → v < n_views → ∃ x, slot g t v = Some (Some x).
Proof.
  split; [exact stub_well_sized|]. split; [by vm_compute|].
  apply grid_full_after_dense_pass; [exact stub_well_sized|by vm_compute].
Defined.

(** C3, as stated, fails on the parity: the order is reversed at the start
    of every iteration, iteration 0 included, so the even-numbered
    iteration 0 of the window starting at frame 0 already runs through the
    frames in descending order (its motion conditioning is frames
    4, 3, 2, 1, 0 of the input video, 104 .. 100 on the stand-in). *)
Lemma first_iteration_descends :
  window 0 = [0; 1; 2; 3; 4] ∧
  (Stub.after_steps 1).2
  = inr ([4; 3; 2; 1; 0], (Stub.value ([], []) (Stub.after_steps 1)).2) ∧
  (λ c, match c with
        | RunImg2VidPerStep _ _ _ cond_motion _ step _ => (step, cond_motion)
        | _ => (0, [])
        end) <$> calls (Stub.after_steps 1).1
  = [(0, [104; 103; 102; 101; 100]%Z)].
Proof. split; [reflexivity|]. split; by vm_compute. Qed.

(** C3, amended: within a dense-pass window the frame order used on
    iteration [k] is the reverse of the order the loop held before it (the
    order of iteration [k - 1], or the ascending window for [k = 0]);
    even-numbered iterations traverse the window in descending order,
    odd-numbered ones in ascending order.  [dense_steps] with [S k] steps
    is the loop up to and including iteration [k]; the order it returns is
    the one iteration [k] used. *)
Theorem traversal_order_alternates {Float Image Latent Model RNG}
    `{O : !Oracle Float Image Latent Model RNG}
    vd (model : Model) sd polars_rad azimuths_rad
    (g : list (list (option Image))) (lm lm' : list (list Latent))
    t0 k frame_indices (w w' : World Float Image Latent RNG) :
  dense_steps vd model sd polars_rad azimuths_rad g (S k) (window t0, lm) w
  = (w', inr (frame_indices, lm')) →
  frame_indices
  = (if Nat.even k then [t0 + 4; t0 + 3; t0 + 2; t0 + 1; t0]
     else [t0; t0 + 1; t0 + 2; t0 + 3; t0 + 4]) ∧
  ∃ w1 previous lm1,
    dense_steps vd model sd polars_rad azimuths_rad g k (window t0, lm) w
    = (w1, inr (previous, lm1)) ∧
    frame_indices = reverse previous.
Proof.
  intros Hrun. split.
  - pose proof (proj1 (wp_partial _ _ _)
                  (dense_steps_frames vd model sd polars_rad azimuths_rad
                                      g (S k) (window t0) lm w)
                  _ _ Hrun) as Hfi.
    simpl in Hfi. rewrite Hfi, iter_reverse_even, window_eq.
    by destruct (Nat.even k).
  - unfold dense_steps in *. rewrite seq_S, for_each_app in Hrun.
    unfold mbind, M_bind, bind in Hrun.
    destruct (for_each (seq 0 k) _ _ w) as [w1 [e|[previous lm1]]];
      [discriminate Hrun|].
    exists w1, previous, lm1. split; [done|].
    cbn [for_each] in Hrun. unfold mbind, M_bind, bind in Hrun.
    pose proof (dense_step_frames vd model sd polars_rad azimuths_rad g
                                  k previous lm1 w1) as Hstep.
    unfold wp in Hstep.
    destruct (dense_step _ _ _ _ _ _ _ _ w1) as [w2 [e|st]];
      [discriminate Hrun|].
    unfold ret in Hrun. by simplify_eq.
Qed.

Lemma traversal_order_alternates_witness :
  Stub.after_steps 2
  = ((Stub.after_steps 2).1,
     inr ([0; 1; 2; 3; 4], (Stub.value ([], []) (Stub.after_steps 2)).2)) ∧
  [0; 1; 2; 3; 4]
  = (if Nat.even 1 then [0 + 4; 0 + 3; 0 + 2; 0 + 1; 0]
     else [0; 0 + 1; 0 + 2; 0 + 3; 0 + 4]) ∧
  ∃ w1 previous lm1,
    Stub.after_steps 1 = (w1, inr (previous, lm1)) ∧
    [0; 1; 2; 3; 4] = reverse previous.
Proof.
  split; [by vm_compute|].
  apply (traversal_order_alternates
           (version_dict Stub.a) tt 23%Z Stub.angles.1 Stub.angles.2 Stub.g1
           Stub.lm0 (Stub.value ([], []) (Stub.after_steps 2)).2
           0 1 [0; 1; 2; 3; 4] Stub.w0 (Stub.after_steps 2).1).
  by vm_compute.
Defined.

(** C2, as stated, fails: the decode loop has no test for a slot that is
    already set.  On the stand-in, slot (frame 4, view 1) holds the
    anchor-pass image 3999 when the window starting at frame 0 begins, and
    holds the decoded image 66121 when that window ends. *)
Lemma dense_decode_overwrites_anchor_slot :
  slot Stub.g1 4 1 = Some (Some 3999%Z) ∧
  Stub.after_window0.2 = inr (Stub.value [] Stub.after_window0) ∧
  slot (Stub.value [] Stub.after_window0) 4 1 = Some (Some 66121%Z).
Proof. split; [by vm_compute|]. split; by vm_compute. Qed.

(** C2, amended: after the final iteration of a dense-pass window the
    decode-and-commit step writes the decoded, rescaled latent into every
    slot [(t, v)] of the window with [t ≠ 0] and [1 ≤ v ≤ 8], whether or
    not that slot is already set (slots filled by the anchor pass or by the
    previous window are overwritten); every other slot, in particular all
    of frame 0 and all of view 0, is left as it was. *)
Theorem dense_decode_commits_window {Float Image Latent Model RNG}
    `{O : !Oracle Float Image Latent Model RNG}
    vd (model : Model) sd steps polars_rad azimuths_rad t0
    (g g' : list (list (option Image)))
    (w w' : World Float Image Latent RNG) :
  dense_window vd model sd steps polars_rad azimuths_rad t0 g w
  = (w', inr g') →
  ∃ latent_matrix : list (list Latent), ∀ t v,
    (t0 ≤ t ≤ t0 + 4 ∧ t ≠ 0 ∧ 1 ≤ v ≤ 8 →
     ∃ z, slot latent_matrix t v = Some z ∧
          slot g' t v = Some (Some (rescale (decode_latents model z T)))) ∧
    (¬ (t0 ≤ t ≤ t0 + 4 ∧ t ≠ 0 ∧ 1 ≤ v ≤ 8) →
     slot g' t v = slot g t v).
Proof.
  intros Hrun.
  destruct (proj1 (wp_partial _ _ _)
              (dense_window_decoded vd model sd steps polars_rad
                                    azimuths_rad t0 g w) _ _ Hrun)
    as [lm Hdec].
  exists lm. intros t v. destruct (Hdec t v) as (_ & Hin & Hout). split.
  - intros (Ht & Hne & Hv). apply Hin. split; [by apply elem_of_window|].
    split; [done|]. by apply elem_of_view_indices.
  - intros Hnot. apply Hout. intros (Ht & Hne & Hv). apply Hnot.
    split; [by apply elem_of_window|]. split; [done|].
    by apply elem_of_view_indices.
Qed.

Lemma dense_decode_commits_window_witness :
  Stub.after_window0
  = (Stub.after_window0.1, inr (Stub.value [] Stub.after_window0)) ∧
  ∃ latent_matrix : list (list Z), ∀ t v,
    (0 ≤ t ≤ 0 + 4 ∧ t ≠ 0 ∧ 1 ≤ v ≤ 8 →
     ∃ z, slot latent_matrix t v = Some z ∧
          slot (Stub.value [] Stub.after_window0) t v
          = Some (Some (rescale (decode_latents tt z T)))) ∧
    (¬ (0 ≤ t ≤ 0 + 4 ∧ t ≠ 0 ∧ 1 ≤ v ≤ 8) →
     slot (Stub.value [] Stub.after_window0) t v = slot Stub.g1 t v).
Proof.
  split; [by vm_compute|].
  apply (dense_decode_commits_window
           (version_dict Stub.a) tt 23%Z 2 Stub.angles.1 Stub.angles.2 0
           Stub.g1 (Stub.value [] Stub.after_window0)
           Stub.after_anchor.1 Stub.after_window0.1).
  by vm_compute.
Defined.

(** C4: no slot set by initialisation is overwritten later.  For every
    frame [t], slot [(t, 0)] holds input frame [t] after initialisation,
    after the anchor pass and after the dense pass; and every slot that
    holds an image after initialisation (all of them lie in frame 0 or view
    0) holds the same image after the anchor pass and after the dense
    pass. *)
Theorem initial_slots_never_overwritten {Float Image Latent Model RNG}
    `{O : !Oracle Float Image Latent Model RNG}
    (images_t0 images_v0 : list Image)
    vd (model : Model) sd steps polars_rad azimuths_rad
    (g0 g1 g2 : list (list (option Image)))
    (w0 w0' w1 w1' w2 w2' : World Float Image Latent RNG) :
  init_grid images_t0 images_v0 w0 = (w0', inr g0) →
  anchor_pass vd model sd polars_rad azimuths_rad g0 w1 = (w1', inr g1) →
  dense_pass vd model sd steps polars_rad azimuths_rad g1 w2
  = (w2', inr g2) →
  (∀ t, t < n_frames →
        ∃ x, images_v0 !! t = Some x ∧
             slot g0 t 0 = Some (Some x) ∧
             slot g1 t 0 = Some (Some x) ∧
             slot g2 t 0 = Some (Some x)) ∧
  (∀ t v x, slot g0 t v = Some (Some x) →
            (t = 0 ∨ v = 0) ∧
            slot g1 t v = Some (Some x) ∧
            slot g2 t v = Some (Some x)).
Proof.
  intros Hinit Hanchor Hdense.
  destruct (proj1 (wp_partial _ _ _)
              (init_grid_spec True images_t0 images_v0 w0 (or_introl I))
              _ _ Hinit) as (_ & _ & Hcol & _ & Hedge).
  destruct (proj1 (wp_partial _ _ _)
              (anchor_pass_extends vd model sd polars_rad azimuths_rad g0 w1)
              _ _ Hanchor) as [_ Hkeep].
  pose proof (proj1 (wp_partial _ _ _)
                (dense_pass_frame vd model sd steps polars_rad azimuths_rad
                                  g1 w2) _ _ Hdense) as Hframe.
  cbv beta in Hframe. split.
  - intros t Ht. destruct (Hcol t Ht) as (x & Hx & Hs). exists x.
    split; [done|]. split; [done|]. split; [by apply Hkeep|].
    rewrite Hframe by (by right). by apply Hkeep.
  - intros t v x Hs. pose proof (Hedge t v x Hs) as Htv.
    split; [done|]. split; [by apply Hkeep|].
    rewrite Hframe by done. by apply Hkeep.
Qed.

Lemma initial_slots_never_overwritten_witness :
  init_grid Stub.images_t0 Stub.images_v0 Stub.w0 = (Stub.w0, inr Stub.g0) ∧
  Stub.after_anchor = (Stub.after_anchor.1, inr Stub.g1) ∧
  Stub.after_dense = (Stub.after_dense.1, inr Stub.g2) ∧
  (∀ t, t < n_frames →
        ∃ x, Stub.images_v0 !! t = Some x ∧
             slot Stub.g0 t 0 = Some (Some x) ∧
             slot Stub.g1 t 0 = Some (Some x) ∧
             slot Stub.g2 t 0 = Some (Some x)) ∧
  (∀ t v x, slot Stub.g0 t v = Some (Some x) →
            (t = 0 ∨ v = 0) ∧
            slot Stub.g1 t v = Some (Some x) ∧
            slot Stub.g2 t v = Some (Some x)).
Proof.
  split; [by vm_compute|]. split; [by vm_compute|].
  split; [by vm_compute|].
  apply (initial_slots_never_overwritten
           Stub.images_t0 Stub.images_v0 (version_dict Stub.a) tt 23%Z 2
           Stub.angles.1 Stub.angles.2 Stub.g0 Stub.g1 Stub.g2
           Stub.w0 Stub.w0 Stub.w0 Stub.after_anchor.1
           Stub.after_anchor.1 Stub.after_dense.1); by vm_compute.
Defined.

(** C7: if [elevations_deg] is a list, or [azimuths_deg] is given, with a
    length other than 21, [sample] raises the assertion error of lines
    103-110 with its message, and the log of calls is what it was before
    the run: no [sample_sv3d], [run_img2vid] or [run_img2vid_per_step] call
    is issued.  (For the azimuths the elevations must have passed their own
    check: one value or a list of 21.) *)
Theorem malformed_angles_rejected_before_diffusion
    {Float Image Latent Model RNG}
    `{O : !Oracle Float Image Latent Model RNG}
    (a : Args Float) (w : World Float Image Latent RNG) :
  (∃ l, elevations_deg a = ElevList l ∧ length l ≠ n_views_sv3d) ∨
  (elevations_deg a ≠ ElevNone ∧
   ∃ l, azimuths_deg a = Some l ∧ length l ≠ n_views_sv3d) →
  ∃ w' msg,
    sample a w = (w', inl (AssertionError msg)) ∧
    calls w' = calls w ∧
    filter (λ c, is_diffusion c = true) (calls w')
    = filter (λ c, is_diffusion c = true) (calls w) ∧
    ∃ given, given ≠ n_views_sv3d ∧
             (msg = elevations_msg given ∨ msg = azimuths_msg given).
Proof.
  intros Hbad.
  exists (mkWorld (manual_seed (seed a)) (folder w) (calls w)).
  assert (∃ given, given ≠ n_views_sv3d ∧ ∃ msg,
            (msg = elevations_msg given ∨ msg = azimuths_msg given) ∧
            ∀ w1, camera_viewpoints a w1 = (w1, inl (AssertionError msg)))
    as (given & Hgiven & msg & Hmsg & Hcam).
  { unfold camera_viewpoints.
    destruct Hbad as [(l & Hl & Hlen)|(Hnone & l & Hl & Hlen)].
    - exists (length l). split; [done|]. eexists. split; [by left|].
      intros w1. rewrite Hl. unfold mbind, M_bind, bind, ret.
      rewrite bool_decide_false by done. reflexivity.
    - rewrite Hl. destruct (elevations_deg a) as [e|l'|]; [| |done].
      + exists (length l). split; [done|]. eexists. split; [by right|].
        intros w1. unfold mbind, M_bind, bind, ret.
        rewrite bool_decide_true by (by rewrite length_replicate).
        unfold assert at 1. cbv beta iota. simpl default.
        rewrite bool_decide_false by done. reflexivity.
      + destruct (decide (length l' = n_views_sv3d)) as [Hel|Hel].
        * exists (length l). split; [done|]. eexists. split; [by right|].
          intros w1. unfold mbind, M_bind, bind, ret.
          rewrite bool_decide_true by done.
          unfold assert at 1. cbv beta iota. simpl default.
          rewrite bool_decide_false by done. reflexivity.
        * exists (length l'). split; [done|]. eexists. split; [by left|].
          intros w1. unfold mbind, M_bind, bind, ret.
          rewrite bool_decide_false by done. reflexivity. }
  exists msg. split; [|split; [done|split; [done|by exists given]]].
  unfold sample, sample_grid, mbind, M_bind, bind, torch_manual_seed.
  by rewrite Hcam.
Qed.

Lemma malformed_angles_rejected_before_diffusion_witness :
  ((∃ l, elevations_deg (Stub.args 2 (ElevList [10; 20]%Z) None)
         = ElevList l ∧ length l ≠ n_views_sv3d) ∨
   (elevations_deg (Stub.args 2 (ElevList [10; 20]%Z) None) ≠ ElevNone ∧
    ∃ l, azimuths_deg (Stub.args 2 (ElevList [10; 20]%Z) None) = Some l
         ∧ length l ≠ n_views_sv3d)) ∧
  ∃ w' msg,
    sample (Stub.args 2 (ElevList [10; 20]%Z) None) Stub.w0
    = (w', inl (AssertionError msg)) ∧
    calls w' = calls Stub.w0 ∧
    filter (λ c, is_diffusion c = true) (calls w')
    = filter (λ c, is_diffusion c = true) (calls Stub.w0) ∧
    ∃ given, given ≠ n_views_sv3d ∧
             (msg = elevations_msg given ∨ msg = azimuths_msg given).
Proof.
  assert (∃ l, elevations_deg (Stub.args 2 (ElevList [10; 20]%Z) None)
               = ElevList l ∧ length l ≠ n_views_sv3d) as Hbad.
  { exists [10; 20]%Z. split; [reflexivity|]. simpl. unfold n_views_sv3d.
    lia. }
  split; [by left|].
  apply malformed_angles_rejected_before_diffusion. by left.
Defined.



(** C9: two runs with the same arguments (seed, input, configuration), over
    collaborators that are functions of their arguments and of the
    generator state, do the same whatever state the generator was in and
    whatever the output folder held when each began: they end alike
    (both return, or both raise the same error), leave the generator in
    the same state, issue the same diffusion calls with the same
    conditioning inputs in the same order, fill the image matrix with the
    same images, and write videos with the same frames in the same order.
    Into folders with the same content the two runs coincide entirely,
    file names included. *)
Theorem same_seed_same_schedule {Float Image Latent Model RNG}
    `{O : !Oracle Float Image Latent Model RNG}
    (a : Args Float) (rng1 rng2 : RNG) (dir1 dir2 : gset string)
    (cs : list (Call Float Image Latent)) :
  (sample a (mkWorld rng1 dir1 cs)).2 = (sample a (mkWorld rng2 dir2 cs)).2 ∧
  rng (sample a (mkWorld rng1 dir1 cs)).1
  = rng (sample a (mkWorld rng2 dir2 cs)).1 ∧
  filter (λ c, is_diffusion c = true)
         (calls (sample a (mkWorld rng1 dir1 cs)).1)
  = filter (λ c, is_diffusion c = true)
           (calls (sample a (mkWorld rng2 dir2 cs)).1) ∧
  saved_frames (calls (sample a (mkWorld rng1 dir1 cs)).1)
  = saved_frames (calls (sample a (mkWorld rng2 dir2 cs)).1) ∧
  outcome_grid (sample_grid a (mkWorld rng1 dir1 cs))
  = outcome_grid (sample_grid a (mkWorld rng2 dir2 cs)) ∧
  sample a (mkWorld rng1 dir1 cs) = sample a (mkWorld rng2 dir1 cs).
Proof.
  pose proof (related_sample a (mkWorld rng1 dir1 cs)
                             (mkWorld rng2 dir2 cs) eq_refl) as Hrun.
  pose proof (related_sample_grid a (mkWorld rng1 dir1 cs)
                                  (mkWorld rng2 dir2 cs) eq_refl) as Hgrid.
  assert (alike (sample a (mkWorld rng1 dir1 cs)).1
                (sample a (mkWorld rng2 dir2 cs)).1
          ∧ (sample a (mkWorld rng1 dir1 cs)).2
            = (sample a (mkWorld rng2 dir2 cs)).2) as [[Hrng Hcalls] Hres].
  { destruct (sample a (mkWorld rng1 dir1 cs)) as [w1 [e1|x1]],
             (sample a (mkWorld rng2 dir2 cs)) as [w2 [e2|x2]];
      try done; destruct Hrun as [Hw Heq]; by subst. }
  split; [exact Hres|]. split; [exact Hrng|]. split; [|split; [|split]].
  - by rewrite <- filter_diffusion_erase, Hcalls, filter_diffusion_erase.
  - by rewrite <- saved_frames_erase, Hcalls, saved_frames_erase.
  - unfold outcome_grid.
    destruct (sample_grid a (mkWorld rng1 dir1 cs)) as [w1 [e1|[b1 g1]]],
             (sample_grid a (mkWorld rng2 dir2 cs)) as [w2 [e2|[b2 g2]]];
      try done; destruct Hgrid as [Hw Heq]; simpl in *; by subst.
  - reflexivity.
Qed.

(** * Further properties of the schedule *)

Section Provenance.
Context {Float Image Latent Model RNG : Type}.
Context `{O : !Oracle Float Image Latent Model RNG}.
Local Abbreviation M := (M Float Image Latent RNG).
Local Abbreviation World := (World Float Image Latent RNG).
Local Abbreviation Grid := (list (list (option Image))).
Implicit Types (w : World) (g : Grid) (lm : list (list Latent)).

(** Slot [(t, v)] holds a decoded latent. *)
Local Abbreviation decoded model g t v :=
  (∃ z : Latent,
     slot g t v = Some (Some (rescale (decode_latents model z T)))).

Lemma dense_pass_decoded vd model sd steps polars_rad azimuths_rad g w :
  wp True (dense_pass vd model sd steps polars_rad azimuths_rad g) w
     (λ g' _, ∀ t0 t v, t0 ∈ window_starts → t ∈ window t0 → t ≠ 0 →
                        v ∈ view_indices → decoded model g' t v).
Proof.
  unfold dense_pass. eapply wp_mono.
  { apply (wp_for_each True _
      (λ pre g' _, ∀ t0 t v, t0 ∈ pre → t ∈ window t0 → t ≠ 0 →
                             v ∈ view_indices → decoded model g' t v)).
    { intros t0 t v Hin. by apply elem_of_nil in Hin. }
    intros pre t0 g1 w1 _ Hdone.
    eapply wp_mono; [apply dense_window_decoded|].
    cbv beta. intros g2 w2 [lm Hdec] t0' t v Hin Ht Hne Hv.
    destruct (Hdec t v) as (_ & Hwritten & Hkept).
    destruct (decide (t ∈ window t0 ∧ t ≠ 0 ∧ v ∈ view_indices))
      as [Hnow|Hnot].
    - destruct (Hwritten Hnow) as (z & _ & Hz). by exists z.
    - rewrite (Hkept Hnot).
      apply elem_of_app in Hin as [Hin|Hin]; [by eapply Hdone|].
      apply list_elem_of_singleton in Hin as ->. by destruct Hnot. }
  cbv beta. intros g' w' Hall. exact Hall.
Qed.

End Provenance.

(** X1: in the image matrix a completed dense pass returns, every slot of
    the frames 1..20 and the views 1..8 holds a decoded, rescaled latent.
    The images the anchor pass wrote into frames 4, 8, 12, 16 and 20 serve
    as conditioning only: none of them is left in the matrix the output
    videos are cut from. *)
Theorem dense_pass_replaces_anchor_images {Float Image Latent Model RNG}
    `{O : !Oracle Float Image Latent Model RNG}
    vd (model : Model) sd steps polars_rad azimuths_rad
    (g g' : list (list (option Image)))
    (w w' : World Float Image Latent RNG) :
  dense_pass vd model sd steps polars_rad azimuths_rad g w = (w', inr g') →
  ∀ t v, 1 ≤ t < n_frames → 1 ≤ v ≤ V →
    ∃ z, slot g' t v = Some (Some (rescale (decode_latents model z T))).
Proof.
  intros Hrun t v Ht Hv.
  pose proof (proj1 (wp_partial _ _ _)
                (dense_pass_decoded vd model sd steps polars_rad
                                    azimuths_rad g w) _ _ Hrun) as Hall.
  destruct (windows_cover t Ht) as (t0 & Ht0 & Hw).
  apply (Hall t0 t v); [done|done|lia|by apply elem_of_view_indices].
Qed.

Lemma dense_pass_replaces_anchor_images_witness :
  Stub.after_dense = (Stub.after_dense.1, inr Stub.g2) ∧
  ∀ t v, 1 ≤ t < n_frames → 1 ≤ v ≤ V →
    ∃ z, slot Stub.g2 t v = Some (Some (rescale (decode_latents tt z T))).
Proof.
  split; [by vm_compute|].
  apply (dense_pass_replaces_anchor_images
           (version_dict Stub.a) tt 23%Z 2 Stub.angles.1 Stub.angles.2
           Stub.g1 Stub.g2 Stub.after_anchor.1 Stub.after_dense.1).
  by vm_compute.
Defined.

(** ** The image matrix at the start *)

Section Init.
Context {Float Image Latent Model RNG : Type}.
Context `{O : !Oracle Float Image Latent Model RNG}.
Local Abbreviation World := (World Float Image Latent RNG).

Lemma list_of_length_21 {A} (l : list A) :
  length l = 21 →
  ∃ x0 x1 x2 x3 x4 x5 x6 x7 x8 x9 x10 x11 x12 x13 x14 x15 x16 x17 x18 x19 x20,
    l = [x0; x1; x2; x3; x4; x5; x6; x7; x8; x9; x10; x11; x12; x13; x14;
         x15; x16; x17; x18; x19; x20].
Proof.
  intros Hlen.
  do 21 (destruct l as [|? l]; [discriminate Hlen|]).
  destruct l; [|discriminate Hlen]. by repeat eexists.
Qed.

Lemma init_grid_views (images_sv3d images_v0 : list Image) (w w' : World) g :
  length images_sv3d = n_views_sv3d →
  init_grid (roll 1 images_sv3d) images_v0 w = (w', inr g) →
  slot g 0 0 = Some (images_v0 !! 0) ∧
  (∀ i v, 1 ≤ i → subsampled_views !! i = Some v →
          slot g 0 i = Some (unsqueeze <$> images_sv3d !! (v - 1))) ∧
  (∀ t v, 1 ≤ t < n_frames → 1 ≤ v < n_views → slot g t v = Some None).
Proof.
  intros Hlen Hrun.
  destruct (list_of_length_21 _ Hlen)
    as (x0&x1&x2&x3&x4&x5&x6&x7&x8&x9&x10&x11&x12&x13&x14&x15&x16&x17&x18
        &x19&x20&->).
  do 21 (destruct images_v0 as [|? images_v0];
         [exfalso; revert Hrun; by vm_compute|]).
  vm_compute in Hrun. injection Hrun as <- <-.
  split; [reflexivity|]. split.
  - intros col cam Hcol Hcam. destruct col as [|col]; [lia|].
    do 8 (destruct col as [|col]; [injection Hcam as <-; reflexivity|]).
    discriminate Hcam.
  - intros fr vw Hfr Hvw. destruct fr as [|fr]; [lia|].
    destruct vw as [|vw]; [lia|].
    do 20 (destruct fr as [|fr];
           [do 8 (destruct vw as [|vw]; [reflexivity|]);
            unfold n_views, V in Hvw; lia|]).
    unfold n_frames in Hfr. lia.
Qed.

(** X2: the SV3D batch is rolled by one before the image matrix is
    initialised, so column [i] of frame 0 (for [i] from 1 to 8) receives
    the SV3D output of index [subsampled_views[i] - 1], unsqueezed; slot
    (0, 0) receives the first input frame, not an SV3D output; and every
    slot outside frame 0 and view 0 starts empty. *)
Theorem init_grid_places_rolled_views (images_sv3d images_v0 : list Image)
    (w w' : World) g :
  length images_sv3d = n_views_sv3d →
  init_grid (roll 1 images_sv3d) images_v0 w = (w', inr g) →
  slot g 0 0 = Some (images_v0 !! 0) ∧
  (∀ i v, 1 ≤ i → subsampled_views !! i = Some v →
          slot g 0 i = Some (unsqueeze <$> images_sv3d !! (v - 1))) ∧
  (∀ t v, 1 ≤ t < n_frames → 1 ≤ v < n_views → slot g t v = Some None).
Proof. apply init_grid_views. Qed.

Lemma init_grid_short_video (images_sv3d images_v0 : list Image) (w : World) :
  length images_sv3d = n_views_sv3d →
  length images_v0 < n_frames →
  init_grid (roll 1 images_sv3d) images_v0 w = (w, inl IndexError).
Proof.
  intros Hlen Hshort.
  destruct (list_of_length_21 _ Hlen)
    as (x0&x1&x2&x3&x4&x5&x6&x7&x8&x9&x10&x11&x12&x13&x14&x15&x16&x17&x18
        &x19&x20&->).
  do 21 (destruct images_v0 as [|? images_v0]; [by vm_compute|]).
  simpl in Hshort. unfold n_frames in Hshort. lia.
Qed.

(** X3: when the reader returns fewer than [n_frames] frames (and the
    angles are valid) the run stops with an [IndexError] while the image
    matrix is filled, that is only after SV3D has been called on the first
    frame; no video is written and SV4D is never called.  With no frame at
    all it stops before any call. *)
Theorem short_video_fails_after_sv3d (a : Args Float) (w : World) :
  valid_angles a →
  (∀ x ps azs r,
     length (sample_sv3d a x n_views_sv3d ps azs r).1 = n_views_sv3d) →
  length (read_video a n_frames Dims.W Dims.H) < n_frames →
  ∃ w' polars azims,
    sample a w = (w', inl IndexError) ∧
    calls w'
    = calls w ++ match read_video a n_frames Dims.W Dims.H !! 0 with
                 | Some first => [SampleSv3d first polars azims]
                 | None => []
                 end.
Proof.
  intros Hangles Hsv3d Hshort.
  destruct (proj1 (wp_total _ _ _)
              (camera_viewpoints_ok a
                 (mkWorld (manual_seed (seed a)) (folder w) (calls w))
                 Hangles))
    as ([polars azims] & w1 & Hcam & -> & _).
  unfold sample, sample_grid, mbind, M_bind, bind, torch_manual_seed.
  rewrite Hcam. cbv beta iota.
  unfold index at 1.
  destruct (read_video a n_frames Dims.W Dims.H !! 0) as [first|] eqn:Hfirst.
  - unfold ret at 1. cbv beta iota.
    unfold call_sample_sv3d, mbind, M_bind, bind, log, with_rng.
    cbn [rng folder calls].
    specialize (Hsv3d first polars azims (manual_seed (seed a))).
    destruct (sample_sv3d a first n_views_sv3d polars azims
                          (manual_seed (seed a))) as [images r'].
    simpl in Hsv3d. rewrite (init_grid_short_video images _ _ Hsv3d Hshort).
    eexists _, polars, azims. split; reflexivity.
  - eexists _, polars, azims. split; [reflexivity|].
    simpl. by rewrite app_nil_r.
Qed.

End Init.

Lemma init_grid_places_rolled_views_witness :
  length (sample_sv3d Stub.a 100%Z n_views_sv3d Stub.angles.1
            Stub.angles.2 23%Z).1 = n_views_sv3d
  ∧ init_grid Stub.images_t0 Stub.images_v0 Stub.w0 = (Stub.w0, inr Stub.g0)
  ∧ slot Stub.g0 0 0 = Some (Stub.images_v0 !! 0)
  ∧ (∀ i v, 1 ≤ i → subsampled_views !! i = Some v →
       slot Stub.g0 0 i
       = Some (unsqueeze
                 <$> (sample_sv3d Stub.a 100%Z n_views_sv3d Stub.angles.1
                        Stub.angles.2 23%Z).1 !! (v - 1)))
  ∧ (∀ t v, 1 ≤ t < n_frames → 1 ≤ v < n_views →
       slot Stub.g0 t v = Some None).
Proof.
  split; [by vm_compute|]. split; [by vm_compute|].
  apply (init_grid_places_rolled_views
           (sample_sv3d Stub.a 100%Z n_views_sv3d Stub.angles.1
              Stub.angles.2 23%Z).1 Stub.images_v0 Stub.w0 Stub.w0 Stub.g0);
    by vm_compute.
Defined.


Lemma short_video_fails_after_sv3d_witness :
  valid_angles Stub.a
  ∧ (∀ x ps azs r,
       length ((Clip.oracle 3).(sample_sv3d) Stub.a x n_views_sv3d ps azs r).1
       = n_views_sv3d)
  ∧ length ((Clip.oracle 3).(read_video) Stub.a n_frames Dims.W Dims.H)
    < n_frames
  ∧ ∃ w' polars azims,
      @sample Z Z Z unit Z (Clip.oracle 3) Stub.a Stub.w0 = (w', inl IndexError)
      ∧ calls w' = calls Stub.w0 ++ [SampleSv3d 100%Z polars azims].
Proof.
  split; [by vm_compute|]. split; [intros; by vm_compute|].
  split; [vm_compute; lia|].
  apply (short_video_fails_after_sv3d (O:=Clip.oracle 3) Stub.a Stub.w0).
  - by vm_compute.
  - intros. by vm_compute.
  - vm_compute. lia.
Defined.

(** ** Where the batches go *)

Lemma snd_enumerate {A} (l : list A) : (enumerate l).*2 = l.
Proof. unfold enumerate. apply snd_zip. by rewrite length_seq. Qed.

Lemma enumerate_prefix_fresh {A} (l : list A) pre i x post :
  NoDup l → enumerate l = pre ++ (i, x) :: post →
  ∀ i', (i', x) ∉ pre.
Proof.
  intros Hnodup Hsplit i' Hin.
  rewrite <- (snd_enumerate l), Hsplit, fmap_app, fmap_cons in Hnodup.
  apply NoDup_app in Hnodup as (_ & Hfresh & _).
  apply (Hfresh x); [|set_solver].
  apply list_elem_of_fmap. by exists (i', x).
Qed.

Lemma view_indices_NoDup : NoDup view_indices.
Proof. apply (bool_decide_unpack _). by vm_compute. Qed.

Section Placement.
Context {Float Image Latent Model RNG : Type}.
Context `{O : !Oracle Float Image Latent Model RNG}.
Local Abbreviation M := (M Float Image Latent RNG).
Local Abbreviation World := (World Float Image Latent RNG).
Implicit Types (w : World).

(** The loops of lines 174-177 and 210-212: one cell per enumerated frame
    and view. *)
Lemma wp_cells {A} (cell : nat → nat → nat → nat → list (list A)
                           → M (list (list A)))
    (Fr : nat → nat → option A → option A → Prop)
    (frame_indices : list nat) (s0 : list (list A)) w :
  NoDup frame_indices →
  (∀ i t j v s w,
     wp True (cell i t j v s) w
        (λ s' w', w' = w ∧ Fr i j (slot s t v) (slot s' t v)
                  ∧ ∀ t' v', ¬ (t' = t ∧ v' = v) →
                             slot s' t' v' = slot s t' v')) →
  wp True
     (for_each (enumerate frame_indices)
        (λ '(i, t) s,
           for_each (enumerate view_indices)
             (λ '(j, v) s, cell i t j v s) s) s0) w
     (λ s' w', w' = w
        ∧ (∀ i t j v, frame_indices !! i = Some t →
                      view_indices !! j = Some v →
                      Fr i j (slot s0 t v) (slot s' t v))
        ∧ (∀ t v, ¬ (t ∈ frame_indices ∧ v ∈ view_indices) →
                  slot s' t v = slot s0 t v)).
Proof.
  intros Hnodup Hcell. eapply wp_mono.
  { apply (wp_for_each True _
      (λ pre s w', w' = w
         ∧ (∀ i t j v, (i, t) ∈ pre → view_indices !! j = Some v →
                       Fr i j (slot s0 t v) (slot s t v))
         ∧ (∀ t v, ¬ ((∃ i, (i, t) ∈ pre) ∧ v ∈ view_indices) →
                   slot s t v = slot s0 t v))).
    { split; [done|]. split; [|done]. intros i t j v Hin.
      by apply elem_of_nil in Hin. }
    intros pre [i t] s1 w1 [post Hsplit] (-> & Hdone & Hrest).
    pose proof (enumerate_prefix_fresh _ _ _ _ _ Hnodup Hsplit) as Hfresh.
    eapply wp_mono.
    { apply (wp_for_each True _
        (λ pre' s w', w' = w
           ∧ (∀ j v, (j, v) ∈ pre' → Fr i j (slot s1 t v) (slot s t v))
           ∧ (∀ t' v', ¬ (t' = t ∧ ∃ j, (j, v') ∈ pre') →
                       slot s t' v' = slot s1 t' v'))).
      { split; [done|]. split; [|done]. intros j v Hin.
        by apply elem_of_nil in Hin. }
      intros pre' [j v] s2 w2 [post' Hsplit'] (-> & Hdone' & Hrest').
      pose proof (enumerate_prefix_fresh _ _ _ _ _ view_indices_NoDup
                    Hsplit') as Hfresh'.
      eapply wp_mono; [apply Hcell|].
      cbv beta. intros s3 w3 (-> & Hnew & Hother). split; [done|]. split.
      - intros j' v' [Hin|Hin]%elem_of_app.
        + rewrite Hother; [by apply Hdone'|].
          intros [_ ->]. by apply (Hfresh' j').
        + apply list_elem_of_singleton in Hin. simplify_eq.
          rewrite <- (Hrest' t v); [done|].
          intros [_ [j' Hj']]. by apply (Hfresh' j').
      - intros t' v' Hnot. rewrite Hother; [apply Hrest'|].
        + intros [-> [j' Hj']]. apply Hnot. split; [done|].
          exists j'. set_solver.
        + intros [-> ->]. apply Hnot. split; [done|]. exists j. set_solver. }
    cbv beta. intros s2 w2 (-> & Hdone2 & Hrest2). split; [done|]. split.
    - intros i' t' j' v' [Hin|Hin]%elem_of_app Hv'.
      + rewrite Hrest2; [by eapply Hdone|].
        intros [-> _]. by apply (Hfresh i').
      + apply list_elem_of_singleton in Hin. simplify_eq.
        rewrite <- (Hrest t v').
        * apply Hdone2. by apply elem_of_enumerate.
        * intros [[i' Hi'] _]. by apply (Hfresh i').
    - intros t' v' Hnot. rewrite Hrest2.
      + apply Hrest. intros [[i' Hi'] Hv']. apply Hnot. split; [|done].
        exists i'. set_solver.
      + intros [-> [j' Hj']]. apply Hnot. split; [exists i; set_solver|].
        apply elem_of_enumerate in Hj'. by eapply list_elem_of_lookup_2. }
  cbv beta. intros s' w' (-> & Hdone & Hrest). split; [done|]. split.
  - intros i t j v Hi Hj. eapply Hdone; [|done]. by apply elem_of_enumerate.
  - intros t v Hnot. apply Hrest. intros [[i Hi] Hv]. apply Hnot.
    split; [|done]. apply elem_of_enumerate in Hi.
    by eapply list_elem_of_lookup_2.
Qed.


Lemma scatter_spec frame_indices (samples lm : list (list Latent)) w :
  NoDup frame_indices →
  wp True (scatter frame_indices samples lm) w
     (λ lm' w', w' = w
        ∧ (∀ i t j v, frame_indices !! i = Some t →
                      view_indices !! j = Some v →
                      ∃ x, slot samples i j = Some x ∧ slot lm' t v = Some x)
        ∧ (∀ t v, ¬ (t ∈ frame_indices ∧ v ∈ view_indices) →
                  slot lm' t v = slot lm t v)).
Proof.
  intros Hnodup. unfold scatter.
  apply (wp_cells (λ i t j v s, x ← get2 samples i j; set2 s t v x)
                  (λ i j _ new, ∃ x, slot samples i j = Some x
                                     ∧ new = Some x));
    [done|].
  intros i t j v s w1. apply wp_bind, wp_get2.
  destruct (slot samples i j) as [x|]; [|done].
  apply wp_set2. destruct (slot s t v) as [old|]; [|done].
  intros s' Hupd. split; [done|]. split.
  - exists x. split; [done|]. rewrite Hupd. by rewrite decide_True.
  - intros t' v' Hne. rewrite Hupd. by rewrite decide_False.
Qed.

Lemma anchor_commit_places frame_indices (samples : list (list Image))
    (g : list (list (option Image))) w :
  NoDup frame_indices →
  wp True (anchor_commit frame_indices samples g) w
     (λ g' w', w' = w
        ∧ (∀ i t j v, frame_indices !! i = Some t →
                      view_indices !! j = Some v →
                      slot g t v = Some None →
                      ∃ x, slot samples i j = Some x
                           ∧ slot g' t v = Some (Some (rescale x)))
        ∧ (∀ t v, slot g t v ≠ Some None
                  ∨ ¬ (t ∈ frame_indices ∧ v ∈ view_indices) →
                  slot g' t v = slot g t v)).
Proof.
  intros Hnodup. unfold anchor_commit. eapply wp_mono.
  { apply (wp_cells
             (λ i t j v s,
                cur ← get2 s t v;
                match cur with
                | None => x ← get2 samples i j; set2 s t v (Some (rescale x))
                | Some _ => ret s
                end)
             (λ i j old new,
                (old = Some None →
                 ∃ x, slot samples i j = Some x
                      ∧ new = Some (Some (rescale x)))
                ∧ (old ≠ Some None → new = old)));
      [done|].
    intros i t j v s w1. apply wp_bind, wp_get2.
    destruct (slot s t v) as [[y|]|] eqn:Hcur; [| |done].
    - apply wp_ret. rewrite Hcur. by repeat split.
    - apply wp_bind, wp_get2. destruct (slot samples i j) as [x|]; [|done].
      apply wp_set2. rewrite Hcur. intros s' Hupd. split; [done|]. split.
      + split; [|done]. intros _. exists x. split; [done|].
        rewrite Hupd. by rewrite decide_True.
      + intros t' v' Hne. rewrite Hupd. by rewrite decide_False. }
  cbv beta. intros g' w' (-> & Hdone & Hrest). split; [done|]. split.
  - intros i t j v Hi Hj Hnone.
    by apply (proj1 (Hdone i t j v Hi Hj)).
  - intros t v [Hset|Hout]; [|by apply Hrest].
    destruct (decide (t ∈ frame_indices ∧ v ∈ view_indices))
      as [[Ht Hv]|Hout]; [|by apply Hrest].
    apply list_elem_of_lookup in Ht as [i Hi].
    apply list_elem_of_lookup in Hv as [j Hj].
    by apply (proj2 (Hdone i t j v Hi Hj)).
Qed.


(** Reading back: [gather] returns the rows the buffer holds at the given
    frames, view by view. *)
Lemma gather_reads (lm rows : list (list Latent)) frame_indices w :
  length rows = length frame_indices →
  Forall (λ row, length row = V) rows →
  (∀ i t j v, frame_indices !! i = Some t → view_indices !! j = Some v →
              j < V → slot lm t v = slot rows i j) →
  gather lm frame_indices w = (w, inr (mjoin rows)).
Proof.
  intros Hlen Hrows Hslots.
  assert (∀ i t j v, frame_indices !! i = Some t →
                     view_indices !! j = Some v →
                     ∃ row r x, lm !! t = Some row ∧ rows !! i = Some r
                                ∧ row !! v = Some x ∧ r !! j = Some x)
    as Hcell.
  { intros i t j v Hi Hj.
    assert (j < V) as HjV.
    { apply lookup_lt_Some in Hj. by rewrite view_indices_eq in Hj. }
    destruct (lookup_lt_is_Some_2 rows i) as [r Hr].
    { rewrite Hlen. by eapply lookup_lt_Some. }
    destruct (lookup_lt_is_Some_2 r j) as [x Hx].
    { by rewrite (Forall_lookup_1 _ _ _ _ Hrows Hr). }
    specialize (Hslots i t j v Hi Hj HjV). unfold slot in Hslots.
    rewrite Hr in Hslots. simpl in Hslots. rewrite Hx in Hslots.
    destruct (lm !! t) as [row|]; [|done]. simpl in Hslots.
    by exists row, r, x. }
  cut (wp False (gather lm frame_indices) w
          (λ l w', w' = w ∧ l = mjoin rows)).
  { intros Hwp. apply wp_total in Hwp as (l & w' & Hrun & -> & ->). done. }
  unfold gather. apply wp_bind. eapply wp_mono.
  { apply (wp_for_list False _ (λ w', w' = w)
             (λ t row, lm !! t = Some row)); [done|].
    intros t w' [i Hi]%list_elem_of_lookup ->. apply wp_index.
    destruct (Hcell i t 0 1 Hi eq_refl) as (row & _ & _ & -> & _). done. }
  cbv beta. intros rows1 w' [-> Hrows1]. apply wp_bind. eapply wp_mono.
  { apply (wp_for_list False _ (λ w', w' = w)
             (λ row out, Forall2 (λ v x, row !! v = Some x)
                                 view_indices out)); [done|].
    intros row w' [i Hrow]%list_elem_of_lookup ->.
    destruct (Forall2_lookup_r _ _ _ _ _ Hrows1 Hrow) as (t & Hi & Hlm).
    eapply wp_mono.
    { apply (wp_for_list False _ (λ w', w' = w)
               (λ v x, row !! v = Some x)); [done|].
      intros v w' [j Hj]%list_elem_of_lookup ->. apply wp_index.
      destruct (Hcell i t j v Hi Hj) as (row' & r & x & Hrow' & _ & Hx & _).
      assert (row' = row) as -> by congruence. by rewrite Hx. }
    cbv beta. by intros out w' [-> Hout]. }
  cbv beta. intros rows2 w' [-> Hrows2]. apply wp_ret. split; [done|].
  f_equal. apply list_eq_same_length with (length frame_indices).
  - done.
  - apply Forall2_length in Hrows1, Hrows2. congruence.
  - intros i out r Hi Hout Hr.
    destruct (lookup_lt_is_Some_2 frame_indices i) as [t Ht]; [done|].
    destruct (Forall2_lookup_l _ _ _ _ _ Hrows1 Ht) as (row & Hrow1 & Hlm).
    destruct (Forall2_lookup_l _ _ _ _ _ Hrows2 Hrow1)
      as (out' & Hout' & Hcells).
    simplify_eq. apply list_eq_same_length with V.
    + by rewrite (Forall_lookup_1 _ _ _ _ Hrows Hr).
    + apply Forall2_length in Hcells. by rewrite <- Hcells.
    + intros j x y Hj Hx Hy.
      destruct (lookup_lt_is_Some_2 view_indices j) as [v Hv].
      { by rewrite view_indices_eq. }
      destruct (Forall2_lookup_l _ _ _ _ _ Hcells Hv) as (x' & Hx' & Hrowv).
      destruct (Hcell i t j v Ht Hv) as (row' & r' & z & ? & ? & ? & ?).
      congruence.
Qed.


(** *** What a diffusion call is conditioned on *)

Lemma read_slots (g : list (list (option Image))) (f : nat → nat * nat)
    (l : list nat) w :
  wp True (for_list (λ x, get2 g (f x).1 (f x).2) l ≫= cat) w
     (λ ys w', w' = w
        ∧ Forall2 (λ x y, slot g (f x).1 (f x).2 = Some (Some y)) l ys).
Proof.
  apply wp_bind. eapply wp_mono.
  { apply (wp_for_list True _ (λ w', w' = w)
             (λ x y, slot g (f x).1 (f x).2 = Some y)); [done|].
    intros x w' _ ->. apply wp_get2.
    by destruct (slot g (f x).1 (f x).2). }
  cbv beta. intros xs w' [-> Hxs]. apply wp_cat; [|by left].
  intros ys ->. split; [done|]. apply Forall2_fmap_r in Hxs.
  eapply Forall2_impl; [exact Hxs|]. done.
Qed.

Lemma view_angles_length (angles : list Float) w :
  wp True (view_angles angles) w
     (λ l w', w' = w ∧ length l = T * V).
Proof.
  unfold view_angles. apply wp_bind. eapply wp_mono.
  { apply (wp_for_list True _ (λ w', w' = w) (λ _ _, True)); [done|].
    intros v w' _ ->. apply wp_index. by destruct (angles !! v). }
  cbv beta. intros sel w' [-> Hsel]. apply wp_ret. split; [done|].
  apply Forall2_length in Hsel.
  rewrite (length_mjoin_uniform V).
  - by rewrite length_replicate.
  - apply Forall_replicate. by rewrite <- Hsel.
Qed.

Lemma conditioning_spec polars_rad azimuths_rad
    (g : list (list (option Image))) t0 frame_indices w :
  wp True (conditioning polars_rad azimuths_rad g t0 frame_indices) w
     (λ c w', w' = w
        ∧ slot g t0 0 = Some (c_image c)
        ∧ Forall2 (λ t x, slot g t 0 = Some (Some x))
                  frame_indices (c_motion c)
        ∧ Forall2 (λ v x, slot g t0 v = Some (Some x))
                  view_indices (c_view c)
        ∧ length (c_polars c) = T * V ∧ length (c_azims c) = T * V).
Proof.
  unfold conditioning, v0. apply wp_bind, wp_get2.
  destruct (slot g t0 0) as [image|]; [|done].
  pose proof (read_slots g (λ t, (t, 0)) frame_indices w) as Hmotion.
  pose proof (read_slots g (λ v, (t0, v)) view_indices w) as Hview.
  apply wp_bind. unfold wp in Hmotion |- * at 1.
  unfold mbind, M_bind, bind in Hmotion. cbn [fst snd] in Hmotion.
  destruct (for_list _ frame_indices w) as [w1 [e|motion]]; [done|].
  apply wp_bind. unfold wp at 1.
  destruct (cat motion w1) as [w2 [e|cond_motion]]; [done|].
  destruct Hmotion as [-> Hmotion].
  apply wp_bind. unfold wp in Hview |- * at 1.
  unfold mbind, M_bind, bind in Hview. cbn [fst snd] in Hview.
  destruct (for_list _ view_indices w) as [w3 [e|views]]; [done|].
  apply wp_bind. unfold wp at 1.
  destruct (cat views w3) as [w4 [e|cond_view]]; [done|].
  destruct Hview as [-> Hview].
  apply wp_bind. eapply wp_mono; [apply view_angles_length|].
  cbv beta. intros polars w5 [-> Hpolars].
  apply wp_bind. eapply wp_mono; [apply view_angles_length|].
  cbv beta. intros azims w6 [-> Hazims].
  apply wp_bind, wp_index. destruct (azimuths_rad !! 0) as [ref|]; [|done].
  apply wp_ret. cbn [c_image c_motion c_view c_polars c_azims].
  rewrite length_fmap. done.
Qed.


Lemma gather_pure (lm : list (list Latent)) frame_indices w :
  wp True (gather lm frame_indices) w (λ _ w', w' = w).
Proof.
  unfold gather. apply wp_bind. eapply wp_mono.
  { apply (wp_for_list True _ (λ w', w' = w) (λ _ _, True)); [done|].
    intros t w' _ ->. apply wp_index. by destruct (lm !! t). }
  cbv beta. intros rows w' [-> _]. apply wp_bind. eapply wp_mono.
  { apply (wp_for_list True _ (λ w', w' = w) (λ _ _, True)); [done|].
    intros row w' _ ->. eapply wp_mono.
    { apply (wp_for_list True _ (λ w', w' = w) (λ _ _, True)); [done|].
      intros v w' _ ->. apply wp_index. by destruct (row !! v). }
    cbv beta. by intros out w' [-> _]. }
  cbv beta. intros rows' w' [-> _]. by apply wp_ret.
Qed.

(** One iteration of the dense loop, in full: what it reads, the call it
    issues, and where the returned latents go. *)
Lemma dense_step_spec vd model sd polars_rad azimuths_rad
    (g : list (list (option Image))) step frame_indices
    (lm : list (list Latent)) w :
  NoDup frame_indices →
  wp True (dense_step vd model sd polars_rad azimuths_rad g step
                      (frame_indices, lm)) w
     (λ st w', ∃ tref image polars azims cond_motion cond_view noisy,
        st.1 = reverse frame_indices
        ∧ reverse frame_indices !! 0 = Some tref
        ∧ slot g tref 0 = Some (Some image)
        ∧ Forall2 (λ t x, slot g t 0 = Some (Some x))
                  (reverse frame_indices) cond_motion
        ∧ Forall2 (λ v x, slot g tref v = Some (Some x))
                  view_indices cond_view
        ∧ length polars = T * V ∧ length azims = T * V
        ∧ gather lm (reverse frame_indices) w = (w, inr noisy)
        ∧ w' = mkWorld
                 (run_img2vid_per_step vd model image sd polars azims
                    cond_motion cond_view step noisy (rng w)).2
                 (folder w)
                 (calls w ++ [RunImg2VidPerStep image polars azims
                                cond_motion cond_view step noisy])
        ∧ length (run_img2vid_per_step vd model image sd polars azims
                    cond_motion cond_view step noisy (rng w)).1 = T * V
        ∧ (∀ i t j v, reverse frame_indices !! i = Some t →
                      view_indices !! j = Some v →
                      ∃ x, slot (chunks T V
                                   (run_img2vid_per_step vd model image sd
                                      polars azims cond_motion cond_view
                                      step noisy (rng w)).1) i j = Some x
                           ∧ slot st.2 t v = Some x)
        ∧ (∀ t v, ¬ (t ∈ frame_indices ∧ v ∈ view_indices) →
                  slot st.2 t v = slot lm t v)).
Proof.
  intros Hnodup. unfold dense_step. cbv beta iota zeta.
  apply wp_bind, wp_index.
  destruct (reverse frame_indices !! 0) as [tref|] eqn:Href; [|done].
  apply wp_bind. eapply wp_mono; [apply conditioning_spec|].
  cbv beta. intros c w1 (-> & Himage & Hmotion & Hview & Hpolars & Hazims).
  apply wp_bind. pose proof (gather_pure lm (reverse frame_indices) w) as Hg.
  unfold wp in Hg |- * at 1.
  destruct (gather lm (reverse frame_indices) w) as [w2 [e|noisy]] eqn:Hgather;
    [done|]. subst w2.
  unfold call_run_img2vid_per_step. apply wp_bind, wp_bind, wp_not_none.
  destruct (c_image c) as [image|]; [|done].
  apply wp_bind, wp_log, wp_with_rng. cbn [rng folder calls fst snd].
  apply wp_bind, wp_view. case_decide as Hlen; [|done].
  apply wp_bind. eapply wp_mono.
  { apply scatter_spec. by rewrite reverse_Permutation. }
  cbv beta. intros lm' w' (-> & Hplaced & Hrest). apply wp_ret.
  exists tref, image, (c_polars c), (c_azims c), (c_motion c), (c_view c),
         noisy.
  cbn [fst snd]. do 10 (split; [done|]). split; [exact Hplaced|].
  intros t v Hnot. apply Hrest. by rewrite elem_of_reverse.
Qed.


Lemma chunks_length {A} rows cols (l : list A) :
  length (chunks rows cols l) = rows.
Proof.
  revert l. induction rows as [|r IH]; intros l; simpl; [done|].
  by rewrite IH.
Qed.

Lemma chunks_widths {A} rows cols (l : list A) :
  length l = rows * cols →
  Forall (λ row, length row = cols) (chunks rows cols l).
Proof.
  revert l. induction rows as [|r IH]; intros l Hlen; simpl; [done|].
  constructor.
  - rewrite length_take. lia.
  - apply IH. rewrite length_drop. lia.
Qed.

Lemma join_chunks {A} rows cols (l : list A) :
  length l = rows * cols → mjoin (chunks rows cols l) = l.
Proof.
  revert l. induction rows as [|r IH]; intros l Hlen; simpl.
  - by destruct l.
  - rewrite IH; [apply take_drop|]. rewrite length_drop. lia.
Qed.

Lemma slot_reverse {A} (m : list (list A)) i j :
  i < length m → slot (reverse m) i j = slot m (length m - S i) j.
Proof. intros Hi. unfold slot. by rewrite reverse_lookup. Qed.

(** Reading the latent matrix back after an iteration. *)
Lemma dense_step_round_trip vd model sd polars_rad azimuths_rad
    (g : list (list (option Image))) step frame_indices
    (lm : list (list Latent)) w :
  NoDup frame_indices → length frame_indices = T →
  wp True (dense_step vd model sd polars_rad azimuths_rad g step
                      (frame_indices, lm)) w
     (λ st w', ∃ image polars azims cond_motion cond_view noisy,
        calls w' = calls w ++ [RunImg2VidPerStep image polars azims
                                 cond_motion cond_view step noisy]
        ∧ st.1 = reverse frame_indices
        ∧ Forall2 (λ t x, slot g t 0 = Some (Some x))
                  (reverse frame_indices) cond_motion
        ∧ gather st.2 st.1 w'
          = (w', inr (run_img2vid_per_step vd model image sd polars azims
                        cond_motion cond_view step noisy (rng w)).1)
        ∧ gather st.2 (reverse st.1) w'
          = (w', inr (mjoin (reverse (chunks T V
                        (run_img2vid_per_step vd model image sd polars azims
                           cond_motion cond_view step noisy (rng w)).1))))).
Proof.
  intros Hnodup Hfi. eapply wp_mono; [by apply dense_step_spec|].
  cbv beta.
  intros [fi lm'] w' (tref & image & polars & azims & cond_motion
    & cond_view & noisy & Hst & _ & _ & Hmotion & _ & _ & _ & _ & Hw & Hlen
    & Hplaced & _).
  cbn [fst snd] in *. subst fi.
  exists image, polars, azims, cond_motion, cond_view, noisy.
  set (out := (run_img2vid_per_step vd model image sd polars azims
                 cond_motion cond_view step noisy (rng w)).1) in *.
  split; [by rewrite Hw|]. do 2 (split; [done|]). split.
  - rewrite <- (join_chunks T V out) at 1 by done. apply gather_reads.
    + by rewrite chunks_length, length_reverse.
    + by apply chunks_widths.
    + intros i t j v Hi Hj _.
      destruct (Hplaced i t j v Hi Hj) as (x & -> & ->). done.
  - rewrite reverse_involutive. apply gather_reads.
    + by rewrite length_reverse, chunks_length.
    + apply Forall_reverse. by apply chunks_widths.
    + intros i t j v Hi Hj _.
      assert (i < T) as HiT by (rewrite <- Hfi; by eapply lookup_lt_Some).
      rewrite slot_reverse, chunks_length by (by rewrite chunks_length).
      assert (reverse frame_indices !! (T - S i) = Some t) as Hi'.
      { rewrite reverse_lookup by lia. rewrite <- Hi. f_equal. lia. }
      destruct (Hplaced _ t j v Hi' Hj) as (x & -> & ->). done.
Qed.


Lemma Forall2_functional {A B} (R : A → B → Prop) l k k' :
  (∀ x y y', R x y → R x y' → y = y') →
  Forall2 R l k → Forall2 R l k' → k = k'.
Proof.
  intros Hfun Hk. revert k'.
  induction Hk as [|x y l k Hxy _ IH]; intros k' Hk'.
  - by apply Forall2_nil_inv_l in Hk'.
  - apply Forall2_cons_inv_l in Hk' as (y' & k'' & Hxy' & Hk'' & ->).
    f_equal; [by eapply Hfun|by apply IH].
Qed.

(** X4: between two consecutive denoising steps of a window the frame order
    flips, and the data flips with it: the second call receives as noisy
    latents the first call's output with its [T] blocks of [V] latents in
    reverse order (written to the latent matrix by the first step and read
    back by the second), and as motion conditioning the first call's frames
    reversed.  After the two steps the frame order is the original one. *)
Theorem consecutive_steps_flip_frame_blocks vd model sd polars_rad
    azimuths_rad (g : list (list (option Image))) step step'
    frame_indices (lm : list (list Latent)) w w1 w2 st1 st2 :
  NoDup frame_indices → length frame_indices = T →
  dense_step vd model sd polars_rad azimuths_rad g step
             (frame_indices, lm) w = (w1, inr st1) →
  dense_step vd model sd polars_rad azimuths_rad g step' st1 w1
    = (w2, inr st2) →
  ∃ image polars azims cond_motion cond_view noisy
    image' polars' azims' cond_view',
    calls w2
    = calls w
      ++ [RunImg2VidPerStep image polars azims cond_motion cond_view
                            step noisy;
          RunImg2VidPerStep image' polars' azims' (reverse cond_motion)
            cond_view' step'
            (mjoin (reverse (chunks T V
               (run_img2vid_per_step vd model image sd polars azims
                  cond_motion cond_view step noisy (rng w)).1)))]
    ∧ st2.1 = frame_indices.
Proof.
  intros Hnodup Hfi Hstep Hstep'.
  pose proof (proj1 (wp_partial _ _ _)
                (dense_step_round_trip vd model sd polars_rad azimuths_rad g
                   step frame_indices lm w Hnodup Hfi) _ _ Hstep) as H1.
  cbv beta in H1.
  destruct H1 as (image & polars & azims & cond_motion & cond_view & noisy
    & Hw1 & Hst1 & Hmotion & _ & Hread).
  destruct st1 as [fi1 lm1]. cbn [fst snd] in *. subst fi1.
  assert (NoDup (reverse frame_indices)) as Hnodup'
    by (by rewrite reverse_Permutation).
  pose proof (proj1 (wp_partial _ _ _)
                (dense_step_spec vd model sd polars_rad azimuths_rad g step'
                   (reverse frame_indices) lm1 w1 Hnodup') _ _ Hstep') as H2.
  cbv beta in H2.
  destruct H2 as (tref & image' & polars' & azims' & cond_motion'
    & cond_view' & noisy' & Hst2 & _ & _ & Hmotion' & _ & _ & _ & Hgather
    & Hw2 & _).
  rewrite Hread in Hgather. injection Hgather as <-.
  rewrite reverse_involutive in Hst2, Hmotion'.
  assert (cond_motion' = reverse cond_motion) as ->.
  { eapply Forall2_functional; [|exact Hmotion'|].
    - cbv beta. intros t x y Hx Hy. congruence.
    - rewrite <- (reverse_involutive frame_indices) at 1.
      by apply Forall2_reverse. }
  exists image, polars, azims, cond_motion, cond_view, noisy,
         image', polars', azims', cond_view'.
  split; [|done]. rewrite Hw2. cbn [calls]. rewrite Hw1.
  by rewrite <- app_assoc.
Qed.


Lemma anchor_frame_indices_NoDup : NoDup anchor_frame_indices.
Proof. apply (bool_decide_unpack _). by vm_compute. Qed.

Lemma anchor_pass_spec vd model sd polars_rad azimuths_rad
    (g : list (list (option Image))) w :
  wp True (anchor_pass vd model sd polars_rad azimuths_rad g) w
     (λ g' w', ∃ image polars azims cond_motion cond_view,
        w' = mkWorld
               (run_img2vid vd model image sd polars azims cond_motion
                  cond_view (rng w)).2
               (folder w)
               (calls w
                ++ [RunImg2Vid image polars azims cond_motion cond_view])
        ∧ slot g 0 0 = Some (Some image)
        ∧ Forall2 (λ t x, slot g t 0 = Some (Some x))
                  anchor_frame_indices cond_motion
        ∧ Forall2 (λ v x, slot g 0 v = Some (Some x)) view_indices cond_view
        ∧ length polars = T * V ∧ length azims = T * V
        ∧ (∀ i t j v, anchor_frame_indices !! i = Some t →
                      view_indices !! j = Some v →
                      slot g t v = Some None →
                      ∃ x, (run_img2vid vd model image sd polars azims
                              cond_motion cond_view (rng w)).1
                           !! (i * V + j) = Some x
                           ∧ slot g' t v = Some (Some (rescale x)))
        ∧ (∀ t v, slot g t v ≠ Some None
                  ∨ ¬ (t ∈ anchor_frame_indices ∧ v ∈ view_indices) →
                  slot g' t v = slot g t v)).
Proof.
  unfold anchor_pass. cbv beta zeta. apply wp_bind.
  eapply wp_mono; [apply conditioning_spec|].
  cbv beta. intros c w1 (-> & Himage & Hmotion & Hview & Hpolars & Hazims).
  unfold call_run_img2vid. apply wp_bind, wp_bind, wp_not_none.
  destruct (c_image c) as [image|]; [|done].
  apply wp_bind, wp_log, wp_with_rng. cbn [rng folder calls fst snd].
  apply wp_bind, wp_view. case_decide as Hlen; [|done].
  eapply wp_mono.
  { apply anchor_commit_places, anchor_frame_indices_NoDup. }
  cbv beta. intros g' w' (-> & Hplaced & Hkept).
  exists image, (c_polars c), (c_azims c), (c_motion c), (c_view c).
  do 6 (split; [done|]). split; [|exact Hkept].
  intros i t j v Hi Hj Hempty.
  destruct (Hplaced i t j v Hi Hj Hempty) as (x & Hx & Hg').
  exists x. split; [|done]. rewrite <- Hx. symmetry.
  apply lookup_lt_Some in Hi, Hj. apply slot_chunks; [exact Hi|exact Hj|done].
Qed.


End Placement.


Lemma consecutive_steps_flip_frame_blocks_witness :
  NoDup (window 4) ∧ length (window 4) = T
  ∧ ∃ w1 w2 st1 st2,
      dense_step (version_dict Stub.a) () 23%Z Stub.angles.1 Stub.angles.2
                 Stub.g1 0 (window 4, Stub.lm0) Stub.w0 = (w1, inr st1)
      ∧ dense_step (version_dict Stub.a) () 23%Z Stub.angles.1 Stub.angles.2
                   Stub.g1 1 st1 w1 = (w2, inr st2)
      ∧ ∃ image polars azims cond_motion cond_view noisy
          image' polars' azims' cond_view',
          calls w2
          = calls Stub.w0
            ++ [RunImg2VidPerStep image polars azims cond_motion cond_view
                                  0 noisy;
                RunImg2VidPerStep image' polars' azims'
                  (reverse cond_motion) cond_view' 1
                  (mjoin (reverse (chunks T V
                     (run_img2vid_per_step (version_dict Stub.a) () image
                        23%Z polars azims cond_motion cond_view 0 noisy
                        (rng Stub.w0)).1)))]
          ∧ st2.1 = window 4.
Proof.
  split; [apply (bool_decide_unpack _); by vm_compute|].
  split; [reflexivity|].
  eexists _, _, _, _. split; [by vm_compute|]. split; [by vm_compute|].
  eapply (consecutive_steps_flip_frame_blocks (version_dict Stub.a) () 23%Z
            Stub.angles.1 Stub.angles.2 Stub.g1 0 1 (window 4) Stub.lm0
            Stub.w0).
  - apply (bool_decide_unpack _). by vm_compute.
  - reflexivity.
  - by vm_compute.
  - by vm_compute.
Defined.

(** ** The order of the calls *)

Section Order.
Context {Float Image Latent Model RNG : Type}.
Context `{O : !Oracle Float Image Latent Model RNG}.
Local Abbreviation M := (M Float Image Latent RNG).
Local Abbreviation World := (World Float Image Latent RNG).
Local Abbreviation Grid := (list (list (option Image))).
Implicit Types (w : World) (g : Grid) (lm : list (list Latent)).

Lemma issues_ret {A} (x : A) : issues (ret x : M A) [].
Proof. intros w. simpl. by rewrite app_nil_r. Qed.

Lemma issues_raise {A} e ks : issues (raise e : M A) ks.
Proof.
  intros w. simpl. exists []. split; [apply prefix_nil|by rewrite app_nil_r].
Qed.

Lemma issues_bind {A B} (m : M A) (k : A → M B) ks1 ks2 :
  issues m ks1 → (∀ x, issues (k x) ks2) → issues (m ≫= k) (ks1 ++ ks2).
Proof.
  intros Hm Hk w. unfold mbind, M_bind, bind. specialize (Hm w).
  destruct (m w) as [w1 [e|x]].
  - destruct Hm as (pre & Hpre & ->). exists pre.
    split; [by apply prefix_app_r|done].
  - specialize (Hk x w1). destruct (k x w1) as [w2 [e|y]].
    + destruct Hk as (pre & Hpre & ->). exists (ks1 ++ pre).
      split; [by apply prefix_app|]. by rewrite Hm, app_assoc.
    + by rewrite Hk, Hm, app_assoc.
Qed.

(** An action that makes no call, followed by one that does. *)
Lemma issues_then {A B} (m : M A) (k : A → M B) ks :
  issues m [] → (∀ x, issues (k x) ks) → issues (m ≫= k) ks.
Proof. intros Hm Hk. by apply (issues_bind m k [] ks). Qed.

Lemma issues_for_each {A S} (l : list A) (body : A → S → M S) s
    (f : A → list Kind) :
  (∀ x s, issues (body x s) (f x)) →
  issues (for_each l body s) (mjoin (f <$> l)).
Proof.
  intros Hbody. revert s. induction l as [|x l IH]; intros s; simpl.
  - apply issues_ret.
  - apply issues_bind; [apply Hbody|apply IH].
Qed.

Lemma issues_for_each_silent {A S} (l : list A) (body : A → S → M S) s :
  (∀ x s, issues (body x s) []) → issues (for_each l body s) [].
Proof.
  intros Hbody. revert s. induction l as [|x l IH]; intros s; simpl.
  - apply issues_ret.
  - apply issues_then; [apply Hbody|apply IH].
Qed.

Lemma issues_for_list {A B} (f : A → M B) (l : list A) :
  (∀ x, issues (f x) []) → issues (for_list f l) [].
Proof.
  intros Hf. induction l as [|x l IH]; simpl.
  - apply issues_ret.
  - apply issues_then; [apply Hf|]. intros y.
    apply issues_then; [apply IH|]. intros ys. apply issues_ret.
Qed.

Lemma issues_log (c : Call Float Image Latent) : issues (log c : M unit) [kind c].
Proof. intros w. simpl. by rewrite fmap_app. Qed.

Lemma issues_with_rng {A} (f : RNG → A * RNG) : issues (with_rng f : M A) [].
Proof.
  intros w. unfold with_rng. destruct (f (rng w)). simpl.
  by rewrite app_nil_r.
Qed.

Lemma issues_same_calls {A} (m : M A) :
  (∀ w, calls (m w).1 = calls w) → issues m [].
Proof.
  intros Hm w. specialize (Hm w). destruct (m w) as [w' [e|x]]; simpl in Hm.
  - exists []. split; [done|]. by rewrite Hm, app_nil_r.
  - by rewrite Hm, app_nil_r.
Qed.

Ltac silent_step :=
  lazymatch goal with
  | |- issues (_ ≫= _) [] => apply issues_then; [|intros ?]
  | |- issues (ret _) [] => apply issues_ret
  | |- issues (raise _) _ => apply issues_raise
  | |- issues (for_each _ _ _) [] => apply issues_for_each_silent; intros ? ?
  | |- issues (for_list _ _) [] => apply issues_for_list; intros ?
  | |- issues (with_rng _) [] => apply issues_with_rng
  | |- issues (assert ?b _) [] => unfold assert; destruct b
  | |- issues (index ?l ?i) [] => unfold index; destruct (l !! i)
  | |- issues (index_last ?l) [] => unfold index_last; destruct (l !! _)
  | |- issues (not_none ?o) [] => unfold not_none; destruct o
  | |- issues (view _ _ _) [] => unfold view; case_decide
  | |- issues (get2 _ _ _) [] => unfold get2
  | |- issues (set2 _ _ _ _) [] => unfold set2
  | |- issues (cat _) [] => unfold cat
  | |- issues (torch_manual_seed _) [] => by apply issues_same_calls
  | |- issues glob_mp4 [] => by apply issues_same_calls
  | |- issues (write_file _) [] => by apply issues_same_calls
  | |- issues (match ?x with _ => _ end) _ => destruct x
  | |- issues ((match ?x with _ => _ end) _) _ => destruct x
  | |- issues (if ?x then _ else _) _ => destruct x
  | |- issues (let '(_, _) := ?x in _) _ => destruct x
  end.
Ltac silent := repeat (cbv beta; silent_step).

Lemma issues_camera_viewpoints a : issues (camera_viewpoints a) [].
Proof. unfold camera_viewpoints. silent. Qed.

Lemma issues_init_grid images_t0 images_v0 :
  issues (init_grid images_t0 images_v0 : M Grid) [].
Proof. unfold init_grid. silent. Qed.

Lemma issues_conditioning polars_rad azimuths_rad g t0 frame_indices :
  issues (conditioning polars_rad azimuths_rad g t0 frame_indices) [].
Proof. unfold conditioning, view_angles. silent. Qed.

Lemma issues_call_sample_sv3d a image polars azims :
  issues (call_sample_sv3d a image polars azims) [KSv3d].
Proof.
  unfold call_sample_sv3d.
  apply (issues_bind _ _ [KSv3d] []); [apply issues_log|]. intros _.
  apply issues_with_rng.
Qed.

Lemma issues_save_video file frames :
  issues (save_video file frames : M unit) [KSave].
Proof.
  unfold save_video. apply issues_then; [silent|]. intros ys.
  apply (issues_bind _ _ [KSave] []); [apply issues_log|]. intros _.
  by apply issues_same_calls.
Qed.

Lemma issues_anchor_pass vd model sd polars_rad azimuths_rad g :
  issues (anchor_pass vd model sd polars_rad azimuths_rad g) [KAnchor].
Proof.
  unfold anchor_pass. cbv zeta.
  apply issues_then; [apply issues_conditioning|]. intros c.
  apply (issues_bind _ _ [KAnchor] []).
  - unfold call_run_img2vid. apply issues_then; [silent|]. intros image.
    apply (issues_bind _ _ [KAnchor] []); [apply issues_log|]. intros _.
    apply issues_with_rng.
  - intros samples. apply issues_then; [silent|]. intros rows.
    unfold anchor_commit. silent.
Qed.

Lemma issues_dense_step vd model sd polars_rad azimuths_rad g step st :
  issues (dense_step vd model sd polars_rad azimuths_rad g step st)
         [KStep step].
Proof.
  unfold dense_step. destruct st as [frame_indices lm]. cbv zeta.
  apply issues_then; [silent|]. intros t0.
  apply issues_then; [apply issues_conditioning|]. intros c.
  apply issues_then; [unfold gather; silent|]. intros noisy.
  apply (issues_bind _ _ [KStep step] []).
  - unfold call_run_img2vid_per_step. apply issues_then; [silent|].
    intros image.
    apply (issues_bind _ _ [KStep step] []); [apply issues_log|]. intros _.
    apply issues_with_rng.
  - intros samples. apply issues_then; [silent|]. intros rows.
    apply issues_then; [unfold scatter; silent|]. intros lm'.
    apply issues_ret.
Qed.

Lemma join_singletons {A B} (f : A → B) (l : list A) :
  mjoin ((λ x, [f x]) <$> l) = f <$> l.
Proof. induction l as [|x l IH]; [done|]. simpl. f_equal. exact IH. Qed.

Lemma issues_dense_window vd model sd steps polars_rad azimuths_rad t0 g :
  issues (dense_window vd model sd steps polars_rad azimuths_rad t0 g)
         (KStep <$> seq 0 steps).
Proof.
  unfold dense_window. cbv zeta.
  apply issues_then; [unfold torch_randn; silent|]. intros lm.
  rewrite <- (app_nil_r (KStep <$> seq 0 steps)).
  apply issues_bind.
  - unfold dense_steps.
    rewrite <- (join_singletons KStep).
    apply issues_for_each. intros step st. apply issues_dense_step.
  - intros [fi lm']. unfold decode_commit. silent.
Qed.

Lemma issues_dense_pass vd model sd steps polars_rad azimuths_rad g :
  issues (dense_pass vd model sd steps polars_rad azimuths_rad g)
         (mjoin (replicate 5 (KStep <$> seq 0 steps))).
Proof.
  unfold dense_pass.
  change (replicate 5 (KStep <$> seq 0 steps))
    with ((λ _ : nat, KStep <$> seq 0 steps) <$> window_starts).
  apply issues_for_each. intros t0 g'. apply issues_dense_window.
Qed.

Lemma issues_save_outputs base_count g :
  issues (save_outputs base_count g : M unit) (replicate 9 KSave).
Proof.
  unfold save_outputs.
  apply (issues_bind _ _ (replicate 8 KSave) [KSave]).
  - change (replicate 8 KSave)
      with (mjoin ((λ _ : nat, [KSave]) <$> view_indices)).
    apply issues_for_each. intros v []. apply issues_then; [silent|].
    intros frames. apply issues_save_video.
  - intros _. apply issues_then; [silent|]. intros frames.
    apply issues_save_video.
Qed.

Lemma issues_sample a :
  issues (sample a)
         ([KSv3d; KSave; KSave; KAnchor]
          ++ mjoin (replicate 5 (KStep <$> seq 0 (num_steps a)))
          ++ replicate 9 KSave).
Proof.
  unfold sample. rewrite app_assoc. apply issues_bind.
  - unfold sample_grid. cbv zeta.
    apply issues_then; [silent|]. intros _.
    apply issues_then; [apply issues_camera_viewpoints|].
    intros [polars_rad azimuths_rad].
    apply issues_then; [silent|]. intros first.
    apply (issues_bind _ _ [KSv3d]); [apply issues_call_sample_sv3d|].
    intros images_t0.
    apply issues_then; [apply issues_init_grid|]. intros g0.
    apply issues_then; [silent|]. intros n_mp4.
    apply issues_then; [silent|]. intros row0.
    apply (issues_bind _ _ [KSave]); [apply issues_save_video|]. intros _.
    apply issues_then; [silent|]. intros col0.
    apply (issues_bind _ _ [KSave]); [apply issues_save_video|]. intros _.
    apply (issues_bind _ _ [KAnchor]); [apply issues_anchor_pass|]. intros g1.
    rewrite <- (app_nil_r (mjoin _)).
    apply issues_bind; [apply issues_dense_pass|]. intros g2.
    apply issues_ret.
  - intros [base_count g]. apply issues_save_outputs.
Qed.

(** X6: the order of the calls of a run.  A run that returns has made, in
    this order: the SV3D call, the writes of the two seed videos, the SV4D
    anchor call, then for each of the five windows the denoising calls of
    the steps 0, 1, ..., [num_steps - 1], and last the writes of nine
    videos.  A run that raises has made an initial part of this sequence
    and nothing else. *)
Theorem calls_follow_the_schedule (a : Args Float) w :
  ∃ issued,
    kind <$> calls (sample a w).1 = (kind <$> calls w) ++ issued
    ∧ match (sample a w).2 with
      | inr _ =>
          issued = [KSv3d; KSave; KSave; KAnchor]
                   ++ mjoin (replicate 5 (KStep <$> seq 0 (num_steps a)))
                   ++ replicate 9 KSave
      | inl _ =>
          issued `prefix_of`
            [KSv3d; KSave; KSave; KAnchor]
            ++ mjoin (replicate 5 (KStep <$> seq 0 (num_steps a)))
            ++ replicate 9 KSave
      end.
Proof.
  pose proof (issues_sample a w) as Hrun.
  destruct (sample a w) as [w' [e|[]]]; simpl.
  - destruct Hrun as (pre & Hpre & Hcalls). by exists pre.
  - eexists. split; [exact Hrun|done].
Qed.

(** *** The conditioning of the denoising steps *)

Lemma NoDup_iter_reverse k (l : list nat) :
  NoDup l → NoDup (Nat.iter k reverse l).
Proof.
  intros Hl. rewrite iter_reverse_even.
  destruct (Nat.even k); [done|]. by rewrite reverse_Permutation.
Qed.

Lemma seq_middle n pre x post : seq 0 n = pre ++ x :: post → x = length pre.
Proof.
  intros Hseq.
  assert (seq 0 n !! length pre = Some x) as Hx
    by (rewrite Hseq; apply list_lookup_middle; done).
  apply lookup_seq in Hx as [-> _]. done.
Qed.

Lemma dense_steps_trace vd model sd polars_rad azimuths_rad g steps
    frame_indices lm w :
  NoDup frame_indices →
  wp True (dense_steps vd model sd polars_rad azimuths_rad g steps
                       (frame_indices, lm)) w
     (λ st w',
        st.1 = Nat.iter steps reverse frame_indices
        ∧ ∃ cs, calls w' = calls w ++ cs
          ∧ Forall2
              (λ k c, ∃ tref image polars azims cond_motion cond_view noisy,
                 c = RunImg2VidPerStep image polars azims cond_motion
                                       cond_view k noisy
                 ∧ Nat.iter (S k) reverse frame_indices !! 0 = Some tref
                 ∧ slot g tref 0 = Some (Some image)
                 ∧ Forall2 (λ t x, slot g t 0 = Some (Some x))
                           (Nat.iter (S k) reverse frame_indices) cond_motion
                 ∧ Forall2 (λ v x, slot g tref v = Some (Some x))
                           view_indices cond_view
                 ∧ length polars = T * V ∧ length azims = T * V)
              (seq 0 steps) cs).
Proof.
  intros Hnodup. unfold dense_steps. eapply wp_mono.
  { apply (wp_for_each True _
      (λ pre st w',
         st.1 = Nat.iter (length pre) reverse frame_indices
         ∧ ∃ cs, calls w' = calls w ++ cs
           ∧ Forall2
               (λ k c, ∃ tref image polars azims cond_motion cond_view noisy,
                  c = RunImg2VidPerStep image polars azims cond_motion
                                        cond_view k noisy
                  ∧ Nat.iter (S k) reverse frame_indices !! 0 = Some tref
                  ∧ slot g tref 0 = Some (Some image)
                  ∧ Forall2 (λ t x, slot g t 0 = Some (Some x))
                            (Nat.iter (S k) reverse frame_indices) cond_motion
                  ∧ Forall2 (λ v x, slot g tref v = Some (Some x))
                            view_indices cond_view
                  ∧ length polars = T * V ∧ length azims = T * V)
               pre cs)).
    { split; [done|]. exists []. split; [by rewrite app_nil_r|constructor]. }
    intros pre step [fi lm1] w1 [post Hseq] (Hfi & cs & Hcalls & Htrace).
    apply seq_middle in Hseq as ->. cbn [fst] in Hfi. subst fi.
    eapply wp_mono.
    { apply dense_step_spec. by apply NoDup_iter_reverse. }
    cbv beta.
    intros st w2 (tref & image & polars & azims & cond_motion & cond_view
      & noisy & Hst & Href & Himage & Hmotion & Hview & Hpolars & Hazims
      & _ & -> & _).
    rewrite length_app. cbn [length]. rewrite Nat.add_1_r. split; [done|].
    exists (cs ++ [RunImg2VidPerStep image polars azims cond_motion
                     cond_view (length pre) noisy]).
    cbn [calls]. rewrite Hcalls, <- app_assoc. split; [done|].
    apply Forall2_app; [done|]. constructor; [|constructor].
    by exists tref, image, polars, azims, cond_motion, cond_view, noisy. }
  cbv beta. intros st w' [Hst Htrace]. by rewrite length_seq in Hst.
Qed.

Lemma torch_randn_calls rows cols w :
  wp True (torch_randn rows cols) w (λ _ w', calls w' = calls w).
Proof.
  unfold torch_randn. eapply wp_mono.
  { apply (wp_for_list True _ (λ w', calls w' = calls w) (λ _ _, True));
      [done|].
    intros _ w1 _ Hw1. eapply wp_mono.
    { apply (wp_for_list True _ (λ w', calls w' = calls w) (λ _ _, True));
        [done|].
      intros _ w2 _ Hw2. apply wp_with_rng. by split. }
    cbv beta. by intros row w2 [Hw2 _]. }
  cbv beta. by intros lm w' [Hw' _].
Qed.

Lemma dense_window_trace vd model sd steps polars_rad azimuths_rad t0 g w :
  wp True (dense_window vd model sd steps polars_rad azimuths_rad t0 g) w
     (λ _ w', ∃ cs, calls w' = calls w ++ cs
        ∧ Forall2
            (λ k c, ∃ image polars azims cond_motion cond_view noisy,
               c = RunImg2VidPerStep image polars azims cond_motion
                                     cond_view k noisy
               ∧ slot g (if Nat.even k then t0 + 4 else t0) 0
                 = Some (Some image)
               ∧ Forall2 (λ v x, slot g (if Nat.even k then t0 + 4 else t0) v
                                 = Some (Some x))
                         view_indices cond_view
               ∧ Forall2 (λ t x, slot g t 0 = Some (Some x))
                         (if Nat.even k then reverse (window t0)
                          else window t0)
                         cond_motion)
            (seq 0 steps) cs).
Proof.
  unfold dense_window. cbv zeta. apply wp_bind.
  eapply wp_mono; [apply torch_randn_calls|].
  cbv beta. intros lm w1 Hw1. apply wp_bind. eapply wp_mono.
  { apply dense_steps_trace. rewrite window_eq.
    apply NoDup_ListNoDup. repeat constructor; simpl; lia. }
  cbv beta. intros [fi lm'] w2 (_ & cs & Hcalls & Htrace).
  eapply wp_mono; [apply decode_commit_spec; by left|].
  cbv beta. intros g' w3 [-> _]. exists cs. rewrite Hcalls, Hw1.
  split; [done|].
  eapply Forall2_impl; [exact Htrace|]. cbv beta.
  intros k c (tref & image & polars & azims & cond_motion & cond_view & noisy
    & -> & Href & Himage & Hmotion & Hview & _).
  exists image, polars, azims, cond_motion, cond_view, noisy.
  split; [done|].
  rewrite iter_reverse_even, Nat.even_succ, <- Nat.negb_even in Href, Hmotion.
  rewrite window_eq in Href, Hmotion. rewrite window_eq.
  destruct (Nat.even k); simpl in Href, Hmotion; injection Href as <-; done.
Qed.

(** X7: the conditioning of the denoising steps of one window.  [g] is
    the image matrix as the window finds it; it is not changed before the
    last step has returned.  Step [k] is numbered [k] in its call.  On even
    steps the reference image is view 0 of the last frame of the window,
    [t0 + 4], the view conditioning is that frame's views 1..8, and the
    motion conditioning is view 0 of the frames in descending order; on odd
    steps the reference frame is [t0] and the frames ascend. *)
Theorem window_conditioning_alternates vd model sd steps polars_rad
    azimuths_rad t0 g g' w w' :
  dense_window vd model sd steps polars_rad azimuths_rad t0 g w
  = (w', inr g') →
  ∃ cs, calls w' = calls w ++ cs
    ∧ Forall2
        (λ k c, ∃ image polars azims cond_motion cond_view noisy,
           c = RunImg2VidPerStep image polars azims cond_motion
                                 cond_view k noisy
           ∧ slot g (if Nat.even k then t0 + 4 else t0) 0 = Some (Some image)
           ∧ Forall2 (λ v x, slot g (if Nat.even k then t0 + 4 else t0) v
                             = Some (Some x))
                     view_indices cond_view
           ∧ Forall2 (λ t x, slot g t 0 = Some (Some x))
                     (if Nat.even k then reverse (window t0) else window t0)
                     cond_motion)
        (seq 0 steps) cs.
Proof.
  intros Hrun.
  exact (proj1 (wp_partial _ _ _)
           (dense_window_trace vd model sd steps polars_rad azimuths_rad
              t0 g w) _ _ Hrun).
Qed.

End Order.

Lemma window_conditioning_alternates_witness :
  Stub.after_window0
  = (Stub.after_window0.1, inr (Stub.value [] Stub.after_window0))
  ∧ ∃ cs, calls Stub.after_window0.1 = calls Stub.after_anchor.1 ++ cs
      ∧ Forall2
          (λ k c, ∃ image polars azims cond_motion cond_view noisy,
             c = RunImg2VidPerStep image polars azims cond_motion
                                   cond_view k noisy
             ∧ slot Stub.g1 (if Nat.even k then 0 + 4 else 0) 0
               = Some (Some image)
             ∧ Forall2 (λ v x, slot Stub.g1 (if Nat.even k then 0 + 4 else 0)
                                    v = Some (Some x))
                       view_indices cond_view
             ∧ Forall2 (λ t x, slot Stub.g1 t 0 = Some (Some x))
                       (if Nat.even k then reverse (window 0) else window 0)
                       cond_motion)
          (seq 0 2) cs.
Proof.
  split; [by vm_compute|].
  apply (window_conditioning_alternates (version_dict Stub.a) () 23%Z 2
           Stub.angles.1 Stub.angles.2 0 Stub.g1
           (Stub.value [] Stub.after_window0) Stub.after_anchor.1
           Stub.after_window0.1).
  by vm_compute.
Defined.

(** ** The output videos *)

Section Videos.
Context {Float Image Latent Model RNG : Type}.
Context `{O : !Oracle Float Image Latent Model RNG}.
Local Abbreviation M := (M Float Image Latent RNG).
Local Abbreviation World := (World Float Image Latent RNG).
Local Abbreviation Grid := (list (list (option Image))).
Implicit Types (w : World) (g : Grid) (lm : list (list Latent)).

Lemma wp_conj {A} E (m : M A) w (Q1 Q2 : A → World → Prop) :
  wp E m w Q1 → wp E m w Q2 → wp E m w (λ a w', Q1 a w' ∧ Q2 a w').
Proof. unfold wp. by destruct (m w) as [w' [e|a]]. Qed.

Lemma saved_frames_app (cs1 cs2 : list (Call Float Image Latent)) :
  saved_frames (cs1 ++ cs2) = saved_frames cs1 ++ saved_frames cs2.
Proof. apply omap_app. Qed.

Lemma save_video_frames file frames w :
  wp True (save_video file frames) w
     (λ _ w', ∃ ys, frames = Some <$> ys
                    ∧ saved_frames (calls w') = saved_frames (calls w) ++ [ys]).
Proof.
  unfold save_video. apply wp_bind, wp_cat; [|by left]. intros ys ->.
  apply wp_bind, wp_log, wp_write_file. exists ys. split; [done|].
  cbn [calls]. by rewrite saved_frames_app.
Qed.

Lemma read_frames g (f : nat → nat * nat) (l : list nat) w :
  wp True (for_list (λ x, get2 g (f x).1 (f x).2) l) w
     (λ xs w', w' = w
        ∧ Forall2 (λ x y, slot g (f x).1 (f x).2 = Some y) l xs).
Proof.
  apply (wp_for_list True _ (λ w', w' = w)
           (λ x y, slot g (f x).1 (f x).2 = Some y)); [done|].
  intros x w' _ ->. apply wp_get2.
  by destruct (slot g (f x).1 (f x).2).
Qed.

(** Cutting one video out of the image matrix. *)
Lemma save_slots g (f : nat → nat * nat) (l : list nat) file w :
  wp True (frames ← for_list (λ x, get2 g (f x).1 (f x).2) l;
           save_video file frames) w
     (λ _ w', ∃ ys,
        Forall2 (λ x y, slot g (f x).1 (f x).2 = Some (Some y)) l ys
        ∧ saved_frames (calls w') = saved_frames (calls w) ++ [ys]).
Proof.
  apply wp_bind. eapply wp_mono; [apply read_frames|].
  cbv beta. intros xs w' [-> Hxs].
  eapply wp_mono; [apply save_video_frames|].
  cbv beta. intros _ w' (ys & -> & Hsaved). exists ys. split; [|done].
  apply Forall2_fmap_r in Hxs. eapply Forall2_impl; [exact Hxs|]. done.
Qed.

Lemma save_outputs_frames base_count g w :
  wp True (save_outputs base_count g) w
     (λ _ w', ∃ vids diag,
        saved_frames (calls w') = saved_frames (calls w) ++ vids ++ [diag]
        ∧ Forall2 (λ v frames,
                     Forall2 (λ t x, slot g t v = Some (Some x))
                             (seq 0 n_frames) frames)
                  view_indices vids
        ∧ Forall2 (λ t x, slot g t (diag_view t) = Some (Some x))
                  (seq 0 n_frames) diag).
Proof.
  unfold save_outputs. apply wp_bind. eapply wp_mono.
  { apply (wp_for_each True _
      (λ pre _ w', ∃ vids,
         saved_frames (calls w') = saved_frames (calls w) ++ vids
         ∧ Forall2 (λ v frames,
                      Forall2 (λ t x, slot g t v = Some (Some x))
                              (seq 0 n_frames) frames)
                   pre vids)).
    { exists []. split; [by rewrite app_nil_r|constructor]. }
    intros pre v [] w1 _ (vids & Hsaved & Hvids).
    eapply wp_mono; [apply (save_slots g (λ t, (t, v)))|].
    cbv beta. intros _ w2 (ys & Hys & Hsaved2). exists (vids ++ [ys]).
    split; [by rewrite Hsaved2, Hsaved, <- app_assoc|].
    apply Forall2_app; [done|]. by repeat constructor. }
  cbv beta. intros _ w1 (vids & Hsaved & Hvids).
  eapply wp_mono; [apply (save_slots g (λ t, (t, diag_view t)))|].
  cbv beta. intros _ w2 (diag & Hdiag & Hsaved2). exists vids, diag.
  split; [by rewrite Hsaved2, Hsaved, <- app_assoc|done].
Qed.

(** *** Where the frames of the videos come from *)

Lemma camera_viewpoints_pure (a : Args Float) w :
  wp True (camera_viewpoints a) w (λ _ w', w' = w).
Proof.
  unfold camera_viewpoints. apply wp_bind.
  destruct (elevations_deg a) as [e|l|]; [| |done].
  all: apply wp_ret, wp_bind, wp_assert; case_bool_decide; [|done].
  all: apply wp_bind, wp_assert; case_bool_decide; [|done].
  all: apply wp_bind; eapply wp_mono;
    [apply (wp_for_list True _ (λ w', w' = w) (λ _ _, True)); [done|];
     intros x w' _ ->; apply wp_bind, wp_index_last;
     destruct (_ !! _); [by apply wp_ret|done]|].
  all: cbv beta; intros ys w' [-> _]; by apply wp_ret.
Qed.

Lemma saved_frames_steps (cs : list (Call Float Image Latent)) (ks : list nat)
    (P : nat → Call Float Image Latent → Prop) :
  (∀ k c, P k c → ∃ image polars azims cond_motion cond_view noisy,
                    c = RunImg2VidPerStep image polars azims cond_motion
                                          cond_view k noisy) →
  Forall2 P ks cs → saved_frames cs = [].
Proof.
  intros HP Hcs. induction Hcs as [|k c ks cs Hc _ IH]; [done|].
  destruct (HP k c Hc) as (?&?&?&?&?&?&->). exact IH.
Qed.

Lemma dense_pass_no_frames vd model sd steps polars_rad azimuths_rad g w :
  wp True (dense_pass vd model sd steps polars_rad azimuths_rad g) w
     (λ _ w', saved_frames (calls w') = saved_frames (calls w)).
Proof.
  unfold dense_pass.
  apply (wp_for_each_inv True _
           (λ _ w', saved_frames (calls w') = saved_frames (calls w)));
    [done|].
  intros t0 g1 w1 _ Hsaved.
  eapply wp_mono; [apply dense_window_trace|].
  cbv beta. intros g2 w2 (cs & -> & Hcs).
  rewrite saved_frames_app, Hsaved.
  erewrite (saved_frames_steps cs); [by rewrite app_nil_r| |exact Hcs].
  cbv beta. intros k c (image & polars & azims & cond_motion & cond_view
    & noisy & -> & _). by repeat eexists.
Qed.

(** The image matrix and the seed videos of a run, in terms of the input
    frames and of the batch SV3D returned. *)
Lemma sample_grid_provenance (a : Args Float) w :
  (∀ x ps azs r,
     length (sample_sv3d a x n_views_sv3d ps azs r).1 = n_views_sv3d) →
  wp True (sample_grid a) w
     (λ r w', ∃ polars azims first row col,
        camera_viewpoints a
          (mkWorld (manual_seed (seed a)) (folder w) (calls w))
        = (mkWorld (manual_seed (seed a)) (folder w) (calls w),
           inr (polars, azims))
        ∧ read_video a n_frames Dims.W Dims.H !! 0 = Some first
        ∧ saved_frames (calls w') = saved_frames (calls w) ++ [row; col]
        ∧ row !! 0 = Some first
        ∧ (∀ i cam, 1 ≤ i → subsampled_views !! i = Some cam →
             row !! i
             = unsqueeze
                 <$> (sample_sv3d a first n_views_sv3d polars azims
                        (manual_seed (seed a))).1 !! (cam - 1))
        ∧ Forall2 (λ t x, read_video a n_frames Dims.W Dims.H !! t = Some x)
                  (seq 0 n_frames) col
        ∧ (∀ t, t < n_frames →
             ∃ x, read_video a n_frames Dims.W Dims.H !! t = Some x
                  ∧ slot r.2 t 0 = Some (Some x))
        ∧ (∀ i cam, 1 ≤ i → subsampled_views !! i = Some cam →
             slot r.2 0 i
             = Some (unsqueeze
                       <$> (sample_sv3d a first n_views_sv3d polars azims
                              (manual_seed (seed a))).1 !! (cam - 1)))
        ∧ (∀ t v, 1 ≤ t < n_frames → 1 ≤ v ≤ V →
             ∃ z, slot r.2 t v
                  = Some (Some (rescale
                       (decode_latents
                          (load_model model_config (device a)
                             (vd_T (version_dict a)) (num_steps a)
                             (verbose a)) z T))))).
Proof.
  intros Hsv3d. unfold sample_grid. cbv zeta.
  apply wp_bind, wp_torch_manual_seed.
  apply wp_bind.
  pose proof (camera_viewpoints_pure a
                (mkWorld (manual_seed (seed a)) (folder w) (calls w)))
    as Hcam.
  unfold wp in Hcam |- * at 1.
  destruct (camera_viewpoints a _) as [w1 [e|[polars azims]]] eqn:Hcameq;
    [done|]. subst w1.
  apply wp_bind, wp_index.
  destruct (read_video a n_frames Dims.W Dims.H !! 0) as [first|] eqn:Hfirst;
    [|done].
  unfold call_sample_sv3d. apply wp_bind, wp_bind, wp_log, wp_with_rng.
  cbn [rng folder calls fst snd].
  specialize (Hsv3d first polars azims (manual_seed (seed a))).
  set (sv3d := (sample_sv3d a first n_views_sv3d polars azims
                  (manual_seed (seed a))).1) in *.
  match goal with |- wp _ _ ?w0 _ => set (w2 := w0) end.
  apply wp_bind.
  pose proof (init_grid_spec True (roll 1 sv3d)
                (read_video a n_frames Dims.W Dims.H) w2 (or_introl I))
    as Hinit.
  unfold wp in Hinit |- * at 1.
  destruct (init_grid (roll 1 sv3d) _ w2) as [w3 [e|g0]] eqn:Hiniteq;
    [done|].
  destruct Hinit as (-> & Hshape0 & Hcol0 & _ & _).
  destruct (init_grid_views sv3d _ _ _ _ Hsv3d Hiniteq)
    as (_ & Hrow0 & _).
  apply wp_bind, wp_glob_mp4. apply wp_bind, wp_index.
  destruct (_ !! 0) as [row0|] eqn:Hg0 in |- *; [|done].
  apply wp_bind. eapply wp_mono; [apply save_video_frames|].
  cbv beta. intros _ w4 (row & -> & Hsaved4).
  apply wp_bind. eapply wp_mono; [apply (read_frames g0 (λ t, (t, 0)))|].
  cbv beta. intros xs w5 [-> Hcol]. cbn [fst snd] in Hcol.
  apply wp_bind. eapply wp_mono; [apply save_video_frames|].
  cbv beta. intros _ w5 (col & -> & Hsaved5).
  apply Forall2_fmap_r in Hcol.
  apply wp_bind. eapply wp_mono; [apply anchor_pass_spec|].
  cbv beta.
  intros g1 w6 (image & ps & azs & cm & cv & -> & _ & _ & _ & _ & _ & _
    & Hkept1).
  eapply wp_bind, wp_mono.
  { apply wp_conj; [apply dense_pass_no_frames|].
    apply wp_conj; [apply dense_pass_frame|apply dense_pass_decoded]. }
  cbv beta. intros g2 w7 (Hsaved7 & Hframe & Hdecoded). apply wp_ret.
  exists polars, azims, first, row, col. cbn [fst snd].
  split; [done|]. split; [done|]. split.
  { rewrite Hsaved7. cbn [calls]. rewrite saved_frames_app. simpl.
    rewrite app_nil_r, Hsaved5, Hsaved4. subst w2. cbn [calls].
    rewrite saved_frames_app. simpl. by rewrite app_nil_r, <- app_assoc. }
  assert (∀ i, slot g0 0 i = Some <$> row !! i) as Hrow.
  { intros i. unfold slot. rewrite Hg0. simpl. apply list_lookup_fmap. }
  split.
  { destruct (Hcol0 0) as (x & Hx & Hslot); [unfold n_frames; lia|].
    rewrite Hrow in Hslot. rewrite Hfirst in Hx. injection Hx as <-.
    destruct (row !! 0); by simplify_eq/=. }
  split.
  { intros i cam Hi Hcam. specialize (Hrow0 i cam Hi Hcam).
    rewrite Hrow in Hrow0. destruct (row !! i); by simplify_eq/=. }
  split.
  { eapply Forall2_impl; [exact Hcol|]. cbv beta. intros t x Hx.
    destruct (decide (t < n_frames)) as [Ht|Ht].
    - destruct (Hcol0 t Ht) as (y & Hy & Hslot). congruence.
    - assert (is_Some (slot g0 t 0)) as Hsome by (by rewrite Hx).
      apply Hshape0 in Hsome. lia. }
  split.
  { intros t Ht. destruct (Hcol0 t Ht) as (x & Hx & Hslot). exists x.
    split; [done|]. rewrite Hframe by (by right).
    rewrite Hkept1; [done|]. left. by rewrite Hslot. }
  split.
  { intros i cam Hi Hcam. rewrite Hframe by (by left).
    rewrite Hkept1; [by apply Hrow0|]. right. intros [Hin _].
    revert Hin. apply (bool_decide_unpack _). by vm_compute. }
  intros t v Ht Hv. destruct (windows_cover t Ht) as (t0 & Ht0 & Hw).
  apply (Hdecoded t0 t v); [done|done|lia|by apply elem_of_view_indices].
Qed.


Lemma frames_of_slots g (v : nat → nat) frames t :
  Forall2 (λ t x, slot g t (v t) = Some (Some x)) (seq 0 n_frames) frames →
  t < n_frames →
  ∃ x, frames !! t = Some x ∧ slot g t (v t) = Some (Some x).
Proof.
  intros Hframes Ht.
  assert (seq 0 n_frames !! t = Some t) as Hseq by (by apply lookup_seq).
  destruct (Forall2_lookup_l _ _ _ _ _ Hframes Hseq) as (x & Hx & Hslot).
  by exists x.
Qed.

Lemma sample_frames (a : Args Float) w :
  (∀ x ps azs r,
     length (sample_sv3d a x n_views_sv3d ps azs r).1 = n_views_sv3d) →
  wp True (sample a) w
     (λ _ w', ∃ polars azims first row col vids diag,
        camera_viewpoints a
          (mkWorld (manual_seed (seed a)) (folder w) (calls w))
        = (mkWorld (manual_seed (seed a)) (folder w) (calls w),
           inr (polars, azims))
        ∧ read_video a n_frames Dims.W Dims.H !! 0 = Some first
        ∧ saved_frames (calls w')
          = saved_frames (calls w) ++ [row; col] ++ vids ++ [diag]
        ∧ row !! 0 = Some first
        ∧ (∀ i cam, 1 ≤ i → subsampled_views !! i = Some cam →
             row !! i
             = unsqueeze
                 <$> (sample_sv3d a first n_views_sv3d polars azims
                        (manual_seed (seed a))).1 !! (cam - 1))
        ∧ Forall2 (λ t x, read_video a n_frames Dims.W Dims.H !! t = Some x)
                  (seq 0 n_frames) col
        ∧ Forall2
            (λ v frames,
               length frames = n_frames
               ∧ (∀ cam, subsampled_views !! v = Some cam →
                    frames !! 0
                    = unsqueeze
                        <$> (sample_sv3d a first n_views_sv3d polars azims
                               (manual_seed (seed a))).1 !! (cam - 1))
               ∧ ∀ t, 1 ≤ t < n_frames →
                   ∃ z, frames !! t
                        = Some (rescale
                            (decode_latents
                               (load_model model_config (device a)
                                  (vd_T (version_dict a)) (num_steps a)
                                  (verbose a)) z T)))
            view_indices vids
        ∧ length diag = n_frames
        ∧ ∀ t, t < n_frames →
            if decide (diag_view t = 0)
            then diag !! t = read_video a n_frames Dims.W Dims.H !! t
            else ∃ z, diag !! t
                      = Some (rescale
                          (decode_latents
                             (load_model model_config (device a)
                                (vd_T (version_dict a)) (num_steps a)
                                (verbose a)) z T))).
Proof.
  intros Hsv3d. unfold sample. apply wp_bind.
  eapply wp_mono; [by apply sample_grid_provenance|].
  cbv beta.
  intros [base_count g] w1 (polars & azims & first & row & col & Hcam
    & Hfirst & Hsaved1 & Hrow0 & Hrow & Hcol & Hin & Hsv & Hdec).
  cbn [fst snd] in *.
  eapply wp_mono; [apply save_outputs_frames|].
  cbv beta. intros _ w2 (vids & diag & Hsaved2 & Hvids & Hdiag).
  exists polars, azims, first, row, col, vids, diag.
  do 2 (split; [done|]).
  split; [by rewrite Hsaved2, Hsaved1, <- app_assoc|].
  do 3 (split; [done|]). split; [|split].
  - apply Forall2_same_length_lookup_2; [by eapply Forall2_length|].
    intros j v frames Hv Hj.
    pose proof (Forall2_lookup_lr _ _ _ _ _ _ Hvids Hv Hj) as Hframes.
    cbv beta in Hframes.
    apply list_elem_of_lookup_2, elem_of_view_indices in Hv.
    split; [|split].
    + apply Forall2_length in Hframes. by rewrite <- Hframes, length_seq.
    + intros cam Hcamv.
      destruct (frames_of_slots g (λ _, v) frames 0 Hframes)
        as (x & Hx & Hslot); [unfold n_frames; lia|].
      rewrite (Hsv v cam) in Hslot by (done || lia).
      injection Hslot as Hslot. by rewrite Hx, Hslot.
    + intros t Ht.
      destruct (frames_of_slots g (λ _, v) frames t Hframes)
        as (x & Hx & Hslot); [lia|].
      destruct (Hdec t v Ht Hv) as [z Hz]. exists z. congruence.
  - apply Forall2_length in Hdiag. by rewrite <- Hdiag, length_seq.
  - intros t Ht.
    destruct (frames_of_slots g diag_view diag t Hdiag Ht)
      as (x & Hx & Hslot).
    case_decide as Hview.
    + rewrite Hview in Hslot. destruct (Hin t Ht) as (y & Hy & Hslot').
      congruence.
    + assert (diag_view t < n_views) as Hlt
        by (apply Nat.mod_upper_bound; done).
      assert (t ≠ 0) as Hne by (by intros ->).
      destruct (Hdec t (diag_view t)) as [z Hz];
        [lia|unfold n_views in Hlt; lia|].
      exists z. congruence.
Qed.

(** X8: the two seed videos of a completed run.  The first holds the first
    input frame followed by the SV3D outputs of the indices
    [subsampled_views[i] - 1], unsqueezed, for [i] from 1 to 8; the second
    holds the first [n_frames] input frames as the reader returned them.
    SV3D is the one assumption: it returns [n_views_sv3d] images. *)
Theorem seed_videos_show_inputs (a : Args Float) w w' :
  (∀ x ps azs r,
     length (sample_sv3d a x n_views_sv3d ps azs r).1 = n_views_sv3d) →
  sample a w = (w', inr ()) →
  ∃ polars azims first row col rest,
    camera_viewpoints a (mkWorld (manual_seed (seed a)) (folder w) (calls w))
    = (mkWorld (manual_seed (seed a)) (folder w) (calls w),
       inr (polars, azims))
    ∧ read_video a n_frames Dims.W Dims.H !! 0 = Some first
    ∧ saved_frames (calls w') = saved_frames (calls w) ++ [row; col] ++ rest
    ∧ row !! 0 = Some first
    ∧ (∀ i cam, 1 ≤ i → subsampled_views !! i = Some cam →
         row !! i
         = unsqueeze
             <$> (sample_sv3d a first n_views_sv3d polars azims
                    (manual_seed (seed a))).1 !! (cam - 1))
    ∧ col = take n_frames (read_video a n_frames Dims.W Dims.H).
Proof.
  intros Hsv3d Hrun.
  destruct (proj1 (wp_partial _ _ _) (sample_frames a w Hsv3d) _ _ Hrun)
    as (polars & azims & first & row & col & vids & diag & Hcam & Hfirst
        & Hsaved & Hrow0 & Hrow & Hcol & _).
  exists polars, azims, first, row, col, (vids ++ [diag]).
  do 5 (split; [done|]).
  apply list_eq. intros t. destruct (decide (t < n_frames)) as [Ht|Ht].
  - rewrite lookup_take_lt by done.
    assert (seq 0 n_frames !! t = Some t) as Hseq by (by apply lookup_seq).
    destruct (Forall2_lookup_l _ _ _ _ _ Hcol Hseq) as (x & -> & Hx).
    by rewrite Hx.
  - apply Forall2_length in Hcol. rewrite length_seq in Hcol.
    rewrite lookup_take_ge by lia. apply lookup_ge_None_2. lia.
Qed.

(** X9: the eight novel-view videos of a completed run.  The video of
    view [v] has [n_frames] frames; frame 0 is the SV3D output of index
    [subsampled_views[v] - 1], unsqueezed and otherwise untouched by SV4D;
    every later frame is a decoded, rescaled SV4D latent. *)
Theorem view_videos_open_with_sv3d (a : Args Float) w w' :
  (∀ x ps azs r,
     length (sample_sv3d a x n_views_sv3d ps azs r).1 = n_views_sv3d) →
  sample a w = (w', inr ()) →
  ∃ polars azims first seeds vids diag,
    camera_viewpoints a (mkWorld (manual_seed (seed a)) (folder w) (calls w))
    = (mkWorld (manual_seed (seed a)) (folder w) (calls w),
       inr (polars, azims))
    ∧ read_video a n_frames Dims.W Dims.H !! 0 = Some first
    ∧ saved_frames (calls w')
      = saved_frames (calls w) ++ seeds ++ vids ++ [diag]
    ∧ length seeds = 2
    ∧ Forall2
        (λ v frames,
           length frames = n_frames
           ∧ (∀ cam, subsampled_views !! v = Some cam →
                frames !! 0
                = unsqueeze
                    <$> (sample_sv3d a first n_views_sv3d polars azims
                           (manual_seed (seed a))).1 !! (cam - 1))
           ∧ ∀ t, 1 ≤ t < n_frames →
               ∃ z, frames !! t
                    = Some (rescale
                        (decode_latents
                           (load_model model_config (device a)
                              (vd_T (version_dict a)) (num_steps a)
                              (verbose a)) z T)))
        view_indices vids.
Proof.
  intros Hsv3d Hrun.
  destruct (proj1 (wp_partial _ _ _) (sample_frames a w Hsv3d) _ _ Hrun)
    as (polars & azims & first & row & col & vids & diag & Hcam & Hfirst
        & Hsaved & _ & _ & _ & Hvids & _).
  by exists polars, azims, first, [row; col], vids, diag.
Qed.

(** X10: the diagonal video of a completed run has [n_frames] frames.
    Where its view index [diag_view t] is 0 it shows input frame [t] as the
    reader returned it; at every other frame it shows a decoded, rescaled
    SV4D latent. *)
Theorem diagonal_video_shows_input_at_view_0 (a : Args Float) w w' :
  (∀ x ps azs r,
     length (sample_sv3d a x n_views_sv3d ps azs r).1 = n_views_sv3d) →
  sample a w = (w', inr ()) →
  ∃ earlier diag,
    saved_frames (calls w') = saved_frames (calls w) ++ earlier ++ [diag]
    ∧ length earlier = 10
    ∧ length diag = n_frames
    ∧ ∀ t, t < n_frames →
        if decide (diag_view t = 0)
        then diag !! t = read_video a n_frames Dims.W Dims.H !! t
        else ∃ z, diag !! t
                  = Some (rescale
                      (decode_latents
                         (load_model model_config (device a)
                            (vd_T (version_dict a)) (num_steps a)
                            (verbose a)) z T)).
Proof.
  intros Hsv3d Hrun.
  destruct (proj1 (wp_partial _ _ _) (sample_frames a w Hsv3d) _ _ Hrun)
    as (polars & azims & first & row & col & vids & diag & _ & _
        & Hsaved & _ & _ & _ & Hvids & Hlen & Hdiag).
  exists ([row; col] ++ vids), diag. split; [by rewrite <- app_assoc|].
  split; [|done]. apply Forall2_length in Hvids.
  rewrite length_app, <- Hvids. reflexivity.
Qed.

End Videos.


Lemma seed_videos_show_inputs_witness :
  (∀ x ps azs r,
     length (sample_sv3d Stub.a x n_views_sv3d ps azs r).1 = n_views_sv3d)
  ∧ sample Stub.a Stub.w0 = ((sample Stub.a Stub.w0).1, inr ())
  ∧ ∃ polars azims first row col rest,
      camera_viewpoints Stub.a
        (mkWorld (manual_seed (seed Stub.a)) (folder Stub.w0)
                 (calls Stub.w0))
      = (mkWorld (manual_seed (seed Stub.a)) (folder Stub.w0)
                 (calls Stub.w0),
         inr (polars, azims))
      ∧ read_video Stub.a n_frames Dims.W Dims.H !! 0 = Some first
      ∧ saved_frames (calls (sample Stub.a Stub.w0).1)
        = saved_frames (calls Stub.w0) ++ [row; col] ++ rest
      ∧ row !! 0 = Some first
      ∧ (∀ i cam, 1 ≤ i → subsampled_views !! i = Some cam →
           row !! i
           = unsqueeze
               <$> (sample_sv3d Stub.a first n_views_sv3d polars azims
                      (manual_seed (seed Stub.a))).1 !! (cam - 1))
      ∧ col = take n_frames (read_video Stub.a n_frames Dims.W Dims.H).
Proof.
  split; [intros; by vm_compute|]. split; [by vm_compute|].
  apply (seed_videos_show_inputs Stub.a Stub.w0 (sample Stub.a Stub.w0).1).
  - intros. by vm_compute.
  - by vm_compute.
Defined.

Lemma view_videos_open_with_sv3d_witness :
  (∀ x ps azs r,
     length (sample_sv3d Stub.a x n_views_sv3d ps azs r).1 = n_views_sv3d)
  ∧ sample Stub.a Stub.w0 = ((sample Stub.a Stub.w0).1, inr ())
  ∧ ∃ polars azims first seeds vids diag,
      camera_viewpoints Stub.a
        (mkWorld (manual_seed (seed Stub.a)) (folder Stub.w0)
                 (calls Stub.w0))
      = (mkWorld (manual_seed (seed Stub.a)) (folder Stub.w0)
                 (calls Stub.w0),
         inr (polars, azims))
      ∧ read_video Stub.a n_frames Dims.W Dims.H !! 0 = Some first
      ∧ saved_frames (calls (sample Stub.a Stub.w0).1)
        = saved_frames (calls Stub.w0) ++ seeds ++ vids ++ [diag]
      ∧ length seeds = 2
      ∧ Forall2
          (λ v frames,
             length frames = n_frames
             ∧ (∀ cam, subsampled_views !! v = Some cam →
                  frames !! 0
                  = unsqueeze
                      <$> (sample_sv3d Stub.a first n_views_sv3d polars azims
                             (manual_seed (seed Stub.a))).1 !! (cam - 1))
             ∧ ∀ t, 1 ≤ t < n_frames →
                 ∃ z, frames !! t
                      = Some (rescale
                          (decode_latents
                             (load_model model_config (device Stub.a)
                                (vd_T (version_dict Stub.a))
                                (num_steps Stub.a) (verbose Stub.a)) z T)))
          view_indices vids.
Proof.
  split; [intros; by vm_compute|]. split; [by vm_compute|].
  apply (view_videos_open_with_sv3d Stub.a Stub.w0
           (sample Stub.a Stub.w0).1).
  - intros. by vm_compute.
  - by vm_compute.
Defined.

Lemma diagonal_video_shows_input_at_view_0_witness :
  (∀ x ps azs r,
     length (sample_sv3d Stub.a x n_views_sv3d ps azs r).1 = n_views_sv3d)
  ∧ sample Stub.a Stub.w0 = ((sample Stub.a Stub.w0).1, inr ())
  ∧ ∃ earlier diag,
      saved_frames (calls (sample Stub.a Stub.w0).1)
      = saved_frames (calls Stub.w0) ++ earlier ++ [diag]
      ∧ length earlier = 10
      ∧ length diag = n_frames
      ∧ ∀ t, t < n_frames →
          if decide (diag_view t = 0)
          then diag !! t = read_video Stub.a n_frames Dims.W Dims.H !! t
          else ∃ z, diag !! t
                    = Some (rescale
                        (decode_latents
                           (load_model model_config (device Stub.a)
                              (vd_T (version_dict Stub.a))
                              (num_steps Stub.a) (verbose Stub.a)) z T)).
Proof.
  split; [intros; by vm_compute|]. split; [by vm_compute|].
  apply (diagonal_video_shows_input_at_view_0 Stub.a Stub.w0
           (sample Stub.a Stub.w0).1).
  - intros. by vm_compute.
  - by vm_compute.
Defined.

(** ** The conditioning of the dense pass *)

Section Sources.
Context {Float Image Latent Model RNG : Type}.
Context `{O : !Oracle Float Image Latent Model RNG}.
Local Abbreviation M := (M Float Image Latent RNG).
Local Abbreviation World := (World Float Image Latent RNG).
Local Abbreviation Grid := (list (list (option Image))).
Implicit Types (w : World) (g : Grid) (lm : list (list Latent)).




(** *** The camera angles given to SV4D *)

Lemma view_angles_spec (angles : list Float) w :
  wp True (view_angles angles) w
     (λ out w', w' = w
        ∧ ∀ i j cam, i < T → j < V → subsampled_views !! (j + 1) = Some cam →
            ∃ x, angles !! cam = Some x ∧ out !! (i * V + j) = Some x).
Proof.
  unfold view_angles. apply wp_bind. eapply wp_mono.
  { apply (wp_for_list True _ (λ w', w' = w)
             (λ cam x, angles !! cam = Some x)); [done|].
    intros cam w' _ ->. apply wp_index. by destruct (angles !! cam). }
  cbv beta. intros sel w' [-> Hsel]. apply wp_ret. split; [done|].
  intros i j cam Hi Hj Hcam.
  assert (drop 1 subsampled_views !! j = Some cam) as Hdrop
    by (by rewrite lookup_drop, Nat.add_comm).
  destruct (Forall2_lookup_l _ _ _ _ _ Hsel Hdrop) as (x & Hx & Hangle).
  exists x. split; [done|].
  apply (join_lookup_Some_same_length' V); [|done|].
  - apply Forall_replicate. by apply Forall2_length in Hsel.
  - exists sel. split; [|done]. by apply lookup_replicate_2.
Qed.

Lemma conditioning_angles polars_rad azimuths_rad g t0 frame_indices w :
  wp True (conditioning polars_rad azimuths_rad g t0 frame_indices) w
     (λ c _, ∃ ref, azimuths_rad !! 0 = Some ref
        ∧ ∀ i j cam, i < T → j < V →
            subsampled_views !! (j + 1) = Some cam →
            ∃ p a, polars_rad !! cam = Some p
                   ∧ azimuths_rad !! cam = Some a
                   ∧ c_polars c !! (i * V + j) = Some p
                   ∧ c_azims c !! (i * V + j)
                     = Some (fmod (fsub a ref) two_pi)).
Proof.
  unfold conditioning. do 5 (apply wp_bind_any; intros ? ?).
  apply wp_bind. eapply wp_mono; [apply view_angles_spec|].
  cbv beta. intros polars w1 [-> Hpolars].
  apply wp_bind. eapply wp_mono; [apply view_angles_spec|].
  cbv beta. intros azims w2 [-> Hazims].
  apply wp_bind, wp_index. unfold v0.
  destruct (azimuths_rad !! 0) as [ref|]; [|done].
  apply wp_ret. exists ref. split; [done|].
  intros i j cam Hi Hj Hcam. cbn [c_polars c_azims].
  destruct (Hpolars i j cam Hi Hj Hcam) as (p & Hp & Hout).
  destruct (Hazims i j cam Hi Hj Hcam) as (x & Hx & Hout').
  exists p, x. do 3 (split; [done|]).
  by rewrite list_lookup_fmap, Hout'.
Qed.

(** X12: the camera angles SV4D is given, in the anchor call and in every
    denoising call alike.  In each of the [T] blocks of [V] angles, entry
    [j] is the angle of index [subsampled_views[j + 1]] of the run's angle
    arrays, the azimuth taken relative to the azimuth of index 0 and
    reduced modulo [2 * pi].  The angles depend neither on the frames nor
    on the step. *)
Theorem conditioning_angles_follow_subsampled_views polars_rad azimuths_rad
    g t0 frame_indices w w' c :
  conditioning polars_rad azimuths_rad g t0 frame_indices w = (w', inr c) →
  ∃ ref, azimuths_rad !! 0 = Some ref
    ∧ ∀ i j cam, i < T → j < V → subsampled_views !! (j + 1) = Some cam →
        ∃ p a, polars_rad !! cam = Some p
               ∧ azimuths_rad !! cam = Some a
               ∧ c_polars c !! (i * V + j) = Some p
               ∧ c_azims c !! (i * V + j) = Some (fmod (fsub a ref) two_pi).
Proof.
  intros Hrun.
  exact (proj1 (wp_partial _ _ _)
           (conditioning_angles polars_rad azimuths_rad g t0 frame_indices w)
           _ _ Hrun).
Qed.

End Sources.


Lemma conditioning_angles_follow_subsampled_views_witness :
  ∃ c,
    conditioning Stub.angles.1 Stub.angles.2 Stub.g0 0 anchor_frame_indices
                 Stub.w0 = (Stub.w0, inr c)
    ∧ ∃ ref, Stub.angles.2 !! 0 = Some ref
      ∧ ∀ i j cam, i < T → j < V →
          subsampled_views !! (j + 1) = Some cam →
          ∃ p a, Stub.angles.1 !! cam = Some p
                 ∧ Stub.angles.2 !! cam = Some a
                 ∧ c_polars c !! (i * V + j) = Some p
                 ∧ c_azims c !! (i * V + j)
                   = Some (fmod (fsub a ref) two_pi).
Proof.
  eexists. split; [by vm_compute|].
  eapply (conditioning_angles_follow_subsampled_views Stub.angles.1
            Stub.angles.2 Stub.g0 0 anchor_frame_indices Stub.w0 Stub.w0).
  by vm_compute.
Defined.

(** ** The inference script *)

Lemma string_length_app (s1 s2 : string) :
  String.length (s1 +:+ s2) = String.length s1 + String.length s2.
Proof. induction s1 as [|c s1 IH]; simpl; [done|]. by rewrite IH. Qed.

Lemma append_inj_l (s1 s2 t : string) : s1 +:+ t = s2 +:+ t → s1 = s2.
Proof.
  revert s2. induction s1 as [|c s1 IH]; intros [|c' s2] Heq; simpl in Heq.
  - done.
  - apply (f_equal String.length) in Heq.
    rewrite !string_length_app in Heq. simpl in Heq. lia.
  - apply (f_equal String.length) in Heq.
    rewrite !string_length_app in Heq. simpl in Heq. lia.
  - injection Heq as -> Heq. f_equal. by apply IH.
Qed.

Section Script.
Import Inference.
Context {PIL : Type}.
Variable pipe : Config → string → Layout → string → list PIL.
Variable cuda_is_available : bool.

Lemma path_join_relative a b1 b2 :
  String.prefix "/" b1 = false → String.prefix "/" b2 = false →
  path_join a b1 = path_join a b2 → b1 = b2.
Proof.
  unfold path_join. intros -> ->.
  destruct (bool_decide (a = "") || ends_with "/" a).
  - apply append_inj_r.
  - intros Heq. by do 2 apply append_inj_r in Heq.
Qed.

Lemma image_path_inj cfg : Inj (=) (=) (image_path cfg).
Proof.
  intros i j Heq. unfold image_path in Heq.
  apply path_join_relative in Heq; [|done..].
  apply append_inj_r, append_inj_l in Heq. by apply (inj pretty).
Qed.

Lemma image_path_not_config cfg index : image_path cfg index ≠ config_path cfg.
Proof.
  unfold image_path, config_path. intros Heq.
  apply path_join_relative in Heq; [|done..]. discriminate Heq.
Qed.

Lemma drawn_app (es1 es2 : list (Event (PIL:=PIL))) :
  drawn (es1 ++ es2) = drawn es1 ++ drawn es2.
Proof. apply omap_app. Qed.

Lemma piped_app (es1 es2 : list (Event (PIL:=PIL))) :
  piped (es1 ++ es2) = piped es1 ++ piped es2.
Proof. apply omap_app. Qed.

Lemma save_examples_events cfg ex (images : list PIL) n s :
  drawn (events (foldl (save_example cfg ex) s
                       (zip (seq n (length images)) images)))
  = drawn (events s)
    ++ imap (λ index image,
               (image, bboxes ex, phrases ex, image_path cfg (n + index)))
            images
  ∧ piped (events (foldl (save_example cfg ex) s
                         (zip (seq n (length images)) images)))
    = piped (events s).
Proof.
  revert n s. induction images as [|image images IH]; intros n s.
  - simpl. by rewrite app_nil_r.
  - cbn [length seq zip zip_with foldl imap].
    destruct (IH (S n) (save_example cfg ex s (n, image))) as [-> ->].
    cbn [save_example emit events]. rewrite !drawn_app, !piped_app.
    cbn [drawn piped omap]. rewrite !app_nil_r, Nat.add_0_r, <- app_assoc.
    split; [|done]. f_equal. cbn [app]. f_equal. apply imap_ext.
    intros k x _. simpl. do 2 f_equal. lia.
Qed.

(** X13: what [main] does with the images the pipeline returns.  The
    pipeline is run once, on the prompt, the boxes and the phrases of the
    chosen example.  Every image it returns is drawn once, in order, with
    these same boxes and phrases, image [index] to [example_<index>.png]
    in the save folder.  These paths are pairwise distinct and none of
    them is the path of the saved configuration, so no image replaces
    another image or the configuration. *)
Theorem main_saves_each_image_under_its_own_name cfg s :
  let ex := examples cfg in
  let images := pipe cfg (prompt ex) (bboxes ex) (phrases ex) in
  piped (events (main pipe cuda_is_available cfg s))
  = piped (events s) ++ [(prompt ex, bboxes ex, phrases ex)]
  ∧ drawn (events (main pipe cuda_is_available cfg s))
    = drawn (events s)
      ++ imap (λ index image,
                 (image, bboxes ex, phrases ex, image_path cfg index))
              images
  ∧ NoDup (image_path cfg <$> seq 0 (length images))
  ∧ ∀ index, image_path cfg index ≠ config_path cfg.
Proof.
  intros ex images. unfold main. fold ex. fold images. cbv zeta.
  unfold enumerate.
  match goal with
  | |- context [foldl _ ?s0 _] =>
      destruct (save_examples_events cfg ex images 0 s0) as [-> ->]
  end.
  split; [|split; [|split]].
  - unfold prepare_folder. case_bool_decide; cbn [emit events];
      rewrite !piped_app; cbn [piped omap]; by rewrite !app_nil_r.
  - unfold prepare_folder. case_bool_decide; cbn [emit events];
      rewrite !drawn_app; cbn [drawn omap]; by rewrite !app_nil_r.
  - apply NoDup_fmap_2; [apply image_path_inj|apply NoDup_seq].
  - intros index. apply image_path_not_config.
Qed.

End Script.

(** ** Run numbers *)

(** *** Strings *)









(** *** Decimal numerals *)

(** Every character of [s] is a decimal digit. *)
Local Abbreviation digits s :=
  (∀ i c, String.get i s = Some c → ∃ d, c = pretty_N_char d).









(** *** Padded run numbers *)

Local Abbreviation zeros p := (String.concat "" (replicate p "0")).







(** *** The names of a run *)

(** What follows the run number in the eleven names. *)
Local Abbreviation suffixes :=
  (["_t000.mp4"; "_v000.mp4"]
   ++ ((λ v, "_v" +:+ zfill 3 v +:+ ".mp4") <$> view_indices)
   ++ ["_diag.mp4"]).






(** *** Counting the videos in the folder *)





Section Numbering.
Context {Float Image Latent Model RNG : Type}.
Context `{O : !Oracle Float Image Latent Model RNG}.


End Numbering.

